(** * tenzing-core: a shallow embedding of the MCTS scheduling core

    The embedding follows the layout of the repository:

    - [Platform]: [include/sched/platform.hpp], stream and event handles;
    - [OpsCuda]:  [include/sched/ops_cuda.hpp], the bound operations and
                  their comparison operators;
    - [MctsNode]: [include/sched/mcts_node.hpp], the templated search node
                  ([backprop], [expand], [get_simulation_order]);
    - [Mcts]:     [src/mcts.cpp], the name broadcast [mpi_bcast], the
                  search node of that file and the driver loop [mcts];
    - [Frontier]: [src/mcts_node.cpp], [get_frontier].

    The properties proved about them are stated in the [...Spec] modules
    and proved in the [...Facts] modules.

    Operations held through [std::shared_ptr<CpuNode>] and compared with
    [std::find] are compared by address; such operations are modelled by
    their address, a natural number.  Code that can throw returns an
    [Outcome]. *)

From Stdlib Require Import List Bool Arith Lia NArith ZArith Ascii String.
From Stdlib Require Import Permutation Wf_nat Relations.
Import ListNotations.

Set Implicit Arguments.
Set Warnings "-register-all".
Open Scope string_scope.
Open Scope list_scope.

(** ** Handles of [platform.hpp] *)

Module Platform.

(** [struct Stream { unsigned id_; }], default stream 0. *)
Record Stream := mkStream { stream_id : N }.

(** [struct Event { unsigned id_; }]. *)
Record Event := mkEvent { event_id : N }.

(** [Stream::operator==] *)
Definition stream_eq (a b : Stream) : bool := N.eqb (stream_id a) (stream_id b).

(** [Stream::operator<] *)
Definition stream_lt (a b : Stream) : bool := N.ltb (stream_id a) (stream_id b).

(** [Event::operator==] *)
Definition event_eq (a b : Event) : bool := N.eqb (event_id a) (event_id b).

End Platform.

(** ** Bound operations of [ops_cuda.hpp] *)

Module OpsCuda.
Import Platform.

(** [class StreamWait]: the constructor fixes the name. *)
Record StreamWait := mkStreamWait
  { sw_name : string; sw_event : Event; sw_waitee : Stream; sw_waiter : Stream }.

Definition new_StreamWait (waitee waiter : Stream) (event : Event) : StreamWait :=
  mkStreamWait "StreamWait-anon" event waitee waiter.

(** [class StreamSync] *)
Record StreamSync := mkStreamSync { ss_name : string; ss_stream : Stream }.

Definition new_StreamSync (stream : Stream) : StreamSync :=
  mkStreamSync "streamsync-anon" stream.

(** [class CudaEventRecord] *)
Record CudaEventRecord := mkCudaEventRecord
  { er_name : string; er_event : Event; er_stream : Stream }.

Definition new_CudaEventRecord (event : Event) (stream : Stream) : CudaEventRecord :=
  mkCudaEventRecord "CudaEventRecord-anon" event stream.

(** [class CudaStreamWaitEvent] *)
Record CudaStreamWaitEvent := mkCudaStreamWaitEvent
  { swe_name : string; swe_stream : Stream; swe_event : Event }.

Definition new_CudaStreamWaitEvent (stream : Stream) (event : Event)
  : CudaStreamWaitEvent :=
  mkCudaStreamWaitEvent "CudaStreamWaitEvent-anon" stream event.

(** [class CudaEventSync] *)
Record CudaEventSync := mkCudaEventSync { es_name : string; es_event : Event }.

Definition new_CudaEventSync (event : Event) : CudaEventSync :=
  mkCudaEventSync "CudaEventSync-anon" event.

(** [StreamWait::operator==]: [name() == rhs.name()] *)
Definition StreamWait_eq (a b : StreamWait) : bool :=
  String.eqb (sw_name a) (sw_name b).

(** [StreamSync::operator==]: [(void) rhs; return true;] *)
Definition StreamSync_eq (a b : StreamSync) : bool := true.

(** [CudaEventRecord::operator==]: [name() == rhs.name()] *)
Definition CudaEventRecord_eq (a b : CudaEventRecord) : bool :=
  String.eqb (er_name a) (er_name b).

(** [CudaStreamWaitEvent::operator==]: [name() == rhs.name()] *)
Definition CudaStreamWaitEvent_eq (a b : CudaStreamWaitEvent) : bool :=
  String.eqb (swe_name a) (swe_name b).

(** [CudaEventSync::operator==]: [name() == rhs.name()] *)
Definition CudaEventSync_eq (a b : CudaEventSync) : bool :=
  String.eqb (es_name a) (es_name b).

Section WithGpuOp.

  (** [class GpuOp : public OpBase] is abstract; the concrete device
    operations and the virtual [eq] they inherit from [OpBase] live
    outside the files at hand. *)
Variable GpuOp : Type.
Variable gpu_eq : GpuOp -> GpuOp -> bool.

  (** [class BoundGpuOp]: a [GpuOp] and the stream it will run in. *)
Record BoundGpuOp := mkBoundGpuOp { bg_op : GpuOp; bg_stream : Stream }.

  (** [BoundGpuOp::operator==]:
    [(stream_ == rhs.stream_) && op_->eq(rhs.op_)] *)
Definition BoundGpuOp_eq (a b : BoundGpuOp) : bool :=
  stream_eq (bg_stream a) (bg_stream b) && gpu_eq (bg_op a) (bg_op b).

  (** [BoundGpuOp::unbound] *)
Definition unbound (a : BoundGpuOp) : GpuOp := bg_op a.

End WithGpuOp.

End OpsCuda.


(** ** Outcomes of fallible code *)

Module Outcomes.

(** What a call ends in: a value, [std::out_of_range] thrown by
    [std::map::at], the [THROW_RUNTIME] of the source, or, for the loops
    modelled with a step budget, an exhausted budget. *)
Inductive Outcome (A : Type) : Type :=
| Ok (a : A)
| OutOfRange
| Throw (msg : string)
| OutOfFuel.

Arguments Ok {A} a.
Arguments OutOfRange {A}.
Arguments Throw {A} msg.
Arguments OutOfFuel {A}.

Definition bind {A B : Type} (m : Outcome A) (k : A -> Outcome B) : Outcome B :=
  match m with
  | Ok a => k a
  | OutOfRange => OutOfRange
  | Throw msg => Throw msg
  | OutOfFuel => OutOfFuel
  end.

Definition is_ok {A : Type} (m : Outcome A) : bool :=
  match m with Ok _ => true | _ => false end.

End Outcomes.

Notation "x <- m ;; k" := (Outcomes.bind m (fun x => k))
  (at level 61, m at next level, right associativity).

(** ** [Graph<CpuNode>] as the search node uses it *)

Module Graphs.
Import Outcomes.

(** A [std::shared_ptr<CpuNode>]: [std::find] and the map keys compare the
    pointers. *)
Definition Op : Type := nat.

(** [std::map<Op, std::set<Op>>], the entries and each set in iteration
    order. *)
Definition OpMap : Type := list (Op * list Op).

Record Graph : Type := mkGraph
  { start_ : Op; succs_ : OpMap; preds_ : OpMap }.

(** [std::map::find] *)
Fixpoint find_key (m : OpMap) (k : Op) : option (list Op) :=
  match m with
  | [] => None
  | (k', v) :: m' => if Nat.eqb k' k then Some v else find_key m' k
  end.

(** [std::map::at]: throws [std::out_of_range] on a missing key. *)
Definition at_ (m : OpMap) (k : Op) : Outcome (list Op) :=
  match find_key m k with
  | Some v => Ok v
  | None => OutOfRange
  end.

(** [v.end() != std::find(v.begin(), v.end(), x)] *)
Fixpoint found (x : Op) (v : list Op) : bool :=
  match v with
  | [] => false
  | y :: t => Nat.eqb y x || found x t
  end.

(** [v.erase(v.begin() + i)] *)
Fixpoint erase_at (i : nat) (v : list Op) : list Op :=
  match v, i with
  | [], _ => []
  | _ :: t, 0 => t
  | y :: t, S j => y :: erase_at j t
  end.

End Graphs.

(** ** [Node<Strategy>] of [mcts_node.hpp] *)

Module MctsNode.
Import Outcomes Graphs.

(** [size_t] arithmetic: [++n_] *)
Definition size_max : N := 2 ^ 64.

Definition size_incr (n : N) : N := ((n + 1) mod size_max)%N.

Section WithStrategy.

(** The [Strategy] template parameter: its [Context], its per-node [State]
    with the [times] member the node reads, and [Strategy::backprop].  The
    strategies themselves are not among the files at hand; [backprop] is
    taken to write the context and the node's [state_] only. *)
Variable Context : Type.
Variable State : Type.
Variable Time : Type.
Variable times : State -> list Time.
Variable init_state : State.
Variable BenchResult : Type.

(** [struct Node].  [parent_] is kept outside the record (see [Frame]);
    [valueEstimate_] is written by the constructor only and read nowhere. *)
Inductive Node : Type := mkNode
  { op_ : Op;
    children_ : list Node;
    expanded_ : bool;
    fullyVisited_ : bool;
    n_ : N;
    state_ : State }.

Variable Strategy_backprop : Context -> Node -> BenchResult -> Context * State.

(** [Node(const std::shared_ptr<CpuNode> &op)] *)
Definition new_Node (op : Op) : Node := mkNode op [] false false 0%N init_state.

(** The parent seen from one of its children: the parent's own fields and
    the children stored before and after that child in [children_]. *)
Record Frame : Type := mkFrame
  { fr_op : Op;
    fr_left : list Node;
    fr_right : list Node;
    fr_expanded : bool;
    fr_fullyVisited : bool;
    fr_n : N;
    fr_state : State }.

(** A node together with the chain of [parent_] pointers up to the root
    (nearest parent first; empty for the root, whose [parent_] is null). *)
Definition Location : Type := (Node * list Frame)%type.

(** [*parent_] as a node: the child sits between its siblings. *)
Definition plug (f : Frame) (child : Node) : Node :=
  mkNode (fr_op f) (fr_left f ++ child :: fr_right f)
         (fr_expanded f) (fr_fullyVisited f) (fr_n f) (fr_state f).

(** The frame of [parent] around the child that [f] surrounds. *)
Definition reframe (f : Frame) (parent : Node) : Frame :=
  mkFrame (op_ parent) (fr_left f) (fr_right f)
          (expanded_ parent) (fullyVisited_ parent) (n_ parent) (state_ parent).

(** The nodes from [this] up to the root. *)
Fixpoint path_nodes (this : Node) (up : list Frame) : list Node :=
  match up with
  | [] => [this]
  | f :: up' => this :: path_nodes (plug f this) up'
  end.

(** The root of the tree a location lies in. *)
Fixpoint root_of (this : Node) (up : list Frame) : Node :=
  match up with
  | [] => this
  | f :: up' => root_of (plug f this) up'
  end.

(** [child.state_.times.empty()] *)
Definition unplayed (child : Node) : bool :=
  match times (state_ child) with [] => true | _ :: _ => false end.

(** [Node::is_leaf] *)
Definition is_leaf (this : Node) : bool :=
  match children_ this with
  | [] => true
  | _ :: _ => existsb unplayed (children_ this)
  end.

(** [Node::is_terminal] *)
Definition is_terminal (g : Graph) (this : Node) : Outcome bool :=
  ss <- at_ (succs_ g) (op_ this) ;;
  Ok (match ss with [] => true | _ :: _ => false end).

(** *** [Node::backprop] *)

(** The loop [allChildrenVisited = allChildrenVisited && child.fullyVisited_]. *)
Definition allChildrenVisited (children : list Node) : bool :=
  fold_left (fun acc child => acc && fullyVisited_ child) children true.

(** Lines 61-77: the count and the flag. *)
Definition visit (this : Node) : Node :=
  let n' := size_incr (n_ this) in
  let fv' :=
    match children_ this with
    | [] => if expanded_ this then expanded_ this else fullyVisited_ this
    | _ :: _ =>
        if allChildrenVisited (children_ this) then true else fullyVisited_ this
    end in
  mkNode (op_ this) (children_ this) (expanded_ this) fv' n' (state_ this).

Definition set_state (this : Node) (s : State) : Node :=
  mkNode (op_ this) (children_ this) (expanded_ this) (fullyVisited_ this)
         (n_ this) s.

(** [backprop] returns the context, the location after the in-place update
    and the nodes [Strategy::backprop] was invoked on, in call order. *)
Fixpoint backprop (ctx : Context) (this : Node) (up : list Frame)
  (br : BenchResult) : Context * Location * list Node :=
  let this1 := visit this in
  let (ctx1, st) := Strategy_backprop ctx this1 br in
  let this2 := set_state this1 st in
  match up with
  | [] => (ctx1, (this2, []), [this1])
  | f :: up' =>
      let '(ctx2, (parent', up''), calls) :=
        backprop ctx1 (plug f this2) up' br in
      (ctx2, (this2, reframe f parent' :: up''), this1 :: calls)
  end.

(** *** [Node::expand] *)

(** The [while(current)] walk: [this] first, the root last. *)
Definition path_to_root (this : Node) (up : list Frame) : list Op :=
  op_ this :: map fr_op up.

(** [if (frontier.end() == std::find(...)) frontier.push_back(child)] *)
Definition push_unique (frontier : list Op) (child : Op) : list Op :=
  if found child frontier then frontier else frontier ++ [child].

(** Lines 178-185: every successor of every op of the path, once. *)
Fixpoint gather_succs (g : Graph) (path : list Op) (frontier : list Op)
  : Outcome (list Op) :=
  match path with
  | [] => Ok frontier
  | op :: rest =>
      ss <- at_ (succs_ g) op ;;
      gather_succs g rest (fold_left push_unique ss frontier)
  end.

(** Lines 189-196: [std::find] and [erase] until [op] is found no more;
    the elements before the first occurrence are passed over in every
    round, so every occurrence goes and the rest keeps its order. *)
Fixpoint erase_all (op : Op) (frontier : list Op) : list Op :=
  match frontier with
  | [] => []
  | x :: t => if Nat.eqb x op then erase_all op t else x :: erase_all op t
  end.

(** Lines 188-197 *)
Definition remove_done (path : list Op) (frontier : list Op) : list Op :=
  fold_left (fun fr op => erase_all op fr) path frontier.

(** [path.end() == std::find(path.begin(), path.end(), pred)] for some
    [pred] of the list. *)
Definition some_pred_missing (path : list Op) (ps : list Op) : bool :=
  existsb (fun pred => negb (found pred path)) ps.

(** One round of lines 205-214: the position of the first frontier op with
    a predecessor outside the path, if any. *)
Fixpoint first_unready (g : Graph) (path : list Op) (frontier : list Op)
  : Outcome (option nat) :=
  match frontier with
  | [] => Ok None
  | x :: t =>
      ps <- at_ (preds_ g) x ;;
      if some_pred_missing path ps then Ok (Some 0)
      else
        r <- first_unready g path t ;;
        Ok (option_map S r)
  end.

(** Lines 201-217: [while(changed)], one erasure per round. *)
Fixpoint prune_unready (rounds : nat) (g : Graph) (path : list Op)
  (frontier : list Op) : Outcome (list Op) :=
  match rounds with
  | 0 => OutOfFuel
  | S rounds' =>
      r <- first_unready g path frontier ;;
      match r with
      | None => Ok frontier
      | Some i => prune_unready rounds' g path (erase_at i frontier)
      end
  end.

(** Lines 169-217: the frontier the children are made from.  A round of
    the last loop either erases an element or ends the loop, so
    [length frontier + 1] rounds are enough. *)
Definition expand_frontier (g : Graph) (path : list Op) : Outcome (list Op) :=
  frontier <- gather_succs g path [] ;;
  let frontier := remove_done path frontier in
  prune_unready (S (List.length frontier)) g path frontier.

Definition set_children (this : Node) (cs : list Node) : Node :=
  mkNode (op_ this) cs true (fullyVisited_ this) (n_ this) (state_ this).

(** Lines 167-229: [if (!expanded_) { ... }] *)
Definition generate_children (g : Graph) (this : Node) (up : list Frame)
  : Outcome Node :=
  if expanded_ this then Ok this
  else
    frontier <- expand_frontier g (path_to_root this up) ;;
    Ok (set_children this (children_ this ++ map new_Node frontier)).

(** Lines 243-247: the first child with no playout recorded, with the
    children before and after it. *)
Fixpoint first_unplayed (before : list Node) (children : list Node)
  : option (list Node * Node * list Node) :=
  match children with
  | [] => None
  | child :: rest =>
      if unplayed child then Some (before, child, rest)
      else first_unplayed (before ++ [child]) rest
  end.

(** The frame of [this] around the child between [before] and [after]. *)
Definition frame_around (this : Node) (before after : list Node) : Frame :=
  mkFrame (op_ this) before after (expanded_ this) (fullyVisited_ this)
          (n_ this) (state_ this).

(** [Node::expand]: the location of the node returned. *)
Definition expand (g : Graph) (loc : Location) : Outcome Location :=
  let (this, up) := loc in
  this' <- generate_children g this up ;;
  match children_ this' with
  | [] => Ok (this', up)
  | _ :: _ =>
      match first_unplayed [] (children_ this') with
      | Some (before, child, after) =>
          Ok (child, frame_around this' before after :: up)
      | None => Throw "unreachable"
      end
  end.

(** *** [Node::get_simulation_order] *)

(** [rand()] of the C library: a hidden state and the next number. *)
Variable RandState : Type.
Variable rand : RandState -> nat * RandState.

(** Lines 285-297 and 318-330: [unique], [notDone], [predsDone], and the
    [push_back] when all three hold. *)
Definition push_ready (g : Graph) (path frontier : list Op) (child : Op)
  : Outcome (list Op) :=
  let unique := negb (found child frontier) in
  let notDone := negb (found child path) in
  ps <- at_ (preds_ g) child ;;
  let predsDone := negb (some_pred_missing path ps) in
  Ok (if unique && notDone && predsDone then frontier ++ [child] else frontier).

(** The loop over [g.succs_.at(op)]. *)
Fixpoint push_ready_all (g : Graph) (path frontier : list Op) (ss : list Op)
  : Outcome (list Op) :=
  match ss with
  | [] => Ok frontier
  | child :: rest =>
      frontier' <- push_ready g path frontier child ;;
      push_ready_all g path frontier' rest
  end.

(** Lines 282-299: the loop over the ops of the path. *)
Fixpoint initial_frontier (g : Graph) (path todo frontier : list Op)
  : Outcome (list Op) :=
  match todo with
  | [] => Ok frontier
  | op :: rest =>
      ss <- at_ (succs_ g) op ;;
      frontier' <- push_ready_all g path frontier ss ;;
      initial_frontier g path rest frontier'
  end.

(** Lines 303-335: [while(!frontier.empty())], at most [fuel] rounds. *)
Fixpoint playout (fuel : nat) (g : Graph) (rs : RandState)
  (path frontier : list Op) {struct fuel} : Outcome (list Op * RandState) :=
  match frontier with
  | [] => Ok (path, rs)
  | _ :: _ =>
      match fuel with
      | 0 => OutOfFuel
      | S fuel' =>
          let (r, rs') := rand rs in
          let ii := r mod List.length frontier in
          let op := nth ii frontier 0 in
          let path' := path ++ [op] in
          ss <- at_ (succs_ g) op ;;
          frontier' <- push_ready_all g path' frontier ss ;;
          playout fuel' g rs' path' (erase_at ii frontier')
      end
  end.

(** [Node::get_simulation_order] *)
Definition get_simulation_order (fuel : nat) (g : Graph) (loc : Location)
  (rs : RandState) : Outcome (list Op * RandState) :=
  let (this, up) := loc in
  let path := rev (path_to_root this up) in
  frontier <- initial_frontier g path path [] ;;
  playout fuel g rs path frontier.

End WithStrategy.

End MctsNode.

(** ** The name broadcast and the driver of [mcts.cpp] *)

Module Mcts.
Import Outcomes Graphs.

(** *** Integer conversions of [mpi_bcast] *)

(** [size_t -> int]: [nameLengths.push_back(op->name().size())] *)
Definition int_of_size (n : nat) : Z :=
  let m := (Z.of_nat n mod 2 ^ 32)%Z in
  if (m <? 2 ^ 31)%Z then m else (m - 2 ^ 32)%Z.

(** [int -> size_t]: [totalLength += l], [std::string(p, l)] *)
Definition size_of_int (z : Z) : nat := Z.to_nat (z mod 2 ^ 64)%Z.

(** [size_t] addition *)
Definition size_add (a b : nat) : nat :=
  Z.to_nat ((Z.of_nat a + Z.of_nat b) mod 2 ^ 64)%Z.

Section WithOps.

(** The operations of an order as [mpi_bcast] sees them: objects of the
    rank that holds them, with their [name()]. *)
Variable BOp : Type.
Variable name : BOp -> string.

(** [MPI_Bcast(buffer, count, type, 0, comm)] on a rank other than 0:
    the buffer receives what rank 0 sends; the counts of the two ranks
    have to agree, a call with another count is erroneous. *)
Definition MPI_Bcast {A : Type} (sent buffer : list A) : Outcome (list A) :=
  if Nat.eqb (List.length sent) (List.length buffer) then Ok sent
  else Throw "MPI_Bcast: count mismatch".

(** Lines 38-41 *)
Definition name_lengths (order : list BOp) : list Z :=
  map (fun op => int_of_size (String.length (name op))) order.

(** Lines 45-48 *)
Definition total_length (nameLengths : list Z) : nat :=
  fold_left (fun total l => size_add total (size_of_int l)) nameLengths 0.

(** Lines 51-55: the characters rank 0 sends. *)
Definition all_names (order : list BOp) : list Ascii.ascii :=
  flat_map (fun op => list_ascii_of_string (name op)) order.

(** Lines 62-67: [std::string(&allNames[off], l)], [off += l]. *)
Fixpoint break_names (allNames : list Ascii.ascii) (nameLengths : list Z)
  : list string :=
  match nameLengths with
  | [] => []
  | l :: rest =>
      string_of_list_ascii (firstn (size_of_int l) allNames)
      :: break_names (skipn (size_of_int l) allNames) rest
  end.

(** Lines 75-81: the first position of [order] whose op has that name. *)
Fixpoint find_name (n : string) (order : list BOp) : option nat :=
  match order with
  | [] => None
  | op :: rest =>
      if String.eqb (name op) n then Some 0
      else option_map S (find_name n rest)
  end.

(** Lines 71-85 *)
Fixpoint find_positions (names : list string) (order : list BOp)
  : Outcome (list nat) :=
  match names with
  | [] => Ok []
  | n :: rest =>
      match find_name n order with
      | None => Throw ("couldn't find op for name " ++ n)
      | Some oi =>
          pos <- find_positions rest order ;;
          Ok (oi :: pos)
      end
  end.

(** Lines 88-91: [perm.push_back(order[oi])]; every [oi] is in range. *)
Fixpoint permute (pos : list nat) (order : list BOp) : list BOp :=
  match pos with
  | [] => []
  | oi :: rest =>
      match nth_error order oi with
      | Some op => op :: permute rest order
      | None => permute rest order
      end
  end.

(** [mpi_bcast(order, comm)]: [root_order] is the order rank 0 passes,
    [order] the one this rank passes; the result is [order] afterwards. *)
Definition mpi_bcast (rank : nat) (root_order order : list BOp)
  : Outcome (list BOp) :=
  if Nat.eqb rank 0 then Ok order
  else
    nameLengths <- MPI_Bcast (name_lengths root_order) (name_lengths order) ;;
    let totalLength := total_length nameLengths in
    allNames <- MPI_Bcast (all_names root_order)
                          (repeat Ascii.zero totalLength) ;;
    let names := break_names allNames nameLengths in
    pos <- find_positions names order ;;
    Ok (permute pos order).

End WithOps.

(** *** The search node of [mcts.cpp] *)

Section WithDouble.

(** [double] and what the node does with it. *)
Variable double : Type.
Variable infinity : double.
Variable neg_infinity : double.
Variable std_sort : list double -> list double.

(** [struct Context] *)
Record Context : Type := mkContext { minT : double; maxT : double }.

(** [struct Node]; [parent_] is kept in the frames, as for the templated
    node. *)
Inductive Node : Type := mkNode
  { op_ : Op;
    children_ : list Node;
    times_ : list double;
    expanded_ : bool }.

Record Frame : Type := mkFrame
  { fr_op : Op;
    fr_left : list Node;
    fr_right : list Node;
    fr_times : list double;
    fr_expanded : bool }.

Definition Location : Type := (Node * list Frame)%type.

Definition new_Node (op : Op) : Node := mkNode op [] [] false.

Definition plug (f : Frame) (child : Node) : Node :=
  mkNode (fr_op f) (fr_left f ++ child :: fr_right f) (fr_times f) (fr_expanded f).

Definition frame_around (this : Node) (before after : list Node) : Frame :=
  mkFrame (op_ this) before after (times_ this) (expanded_ this).

Fixpoint root_of (this : Node) (up : list Frame) : Node :=
  match up with
  | [] => this
  | f :: up' => root_of (plug f this) up'
  end.

(** [child.times_.empty()] *)
Definition unplayed (child : Node) : bool :=
  match times_ child with [] => true | _ :: _ => false end.

(** [Node::is_leaf] *)
Definition is_leaf (this : Node) : bool :=
  match children_ this with
  | [] => true
  | _ :: _ => existsb unplayed (children_ this)
  end.

(** [Node::is_terminal] *)
Definition is_terminal (g : Graph) (this : Node) : Outcome bool :=
  ss <- at_ (succs_ g) (op_ this) ;;
  Ok (match ss with [] => true | _ :: _ => false end).

(** Lines 147-186 of [Node::select]: the index [im] of the child with the
    largest upper confidence bound, computed in [float]. *)
Variable uct_argmax : Context -> Node -> nat.

(** [Node::select]; [is_terminal] is evaluated only when [is_leaf()] is
    false. *)
Fixpoint select (ctx : Context) (g : Graph) (this : Node) (up : list Frame)
  {struct this} : Outcome Location :=
  match this with
  | mkNode op children times expanded =>
      if is_leaf this then Ok (this, up)
      else
        terminal <- is_terminal g this ;;
        if terminal then Ok (this, up)
        else
          (fix descend (before after : list Node) (im : nat) {struct after}
             : Outcome Location :=
             match after with
             | [] => Throw "children_[im] out of range"
             | child :: rest =>
                 match im with
                 | 0 => select ctx g child (frame_around this before rest :: up)
                 | S im' => descend (before ++ [child]) rest im'
                 end
             end) [] children (uct_argmax ctx this)
  end.

(** Lines 211-217: every successor of every op of the path. *)
Fixpoint gather_succs (g : Graph) (path : list Op) (frontier : list Op)
  : Outcome (list Op) :=
  match path with
  | [] => Ok frontier
  | op :: rest =>
      ss <- at_ (succs_ g) op ;;
      gather_succs g rest (frontier ++ ss)
  end.

Definition path_to_root (this : Node) (up : list Frame) : list Op :=
  op_ this :: map fr_op up.

(** Lines 202-261; the two removal loops are those of the templated node. *)
Definition generate_children (g : Graph) (this : Node) (up : list Frame)
  : Outcome Node :=
  if expanded_ this then Ok this
  else
    let path := path_to_root this up in
    frontier <- gather_succs g path [] ;;
    let frontier := MctsNode.remove_done path frontier in
    frontier <- MctsNode.prune_unready (S (List.length frontier)) g path frontier ;;
    Ok (mkNode (op_ this) (children_ this ++ map new_Node frontier)
               (times_ this) true).

Fixpoint first_unplayed (before : list Node) (children : list Node)
  : option (list Node * Node * list Node) :=
  match children with
  | [] => None
  | child :: rest =>
      if unplayed child then Some (before, child, rest)
      else first_unplayed (before ++ [child]) rest
  end.

(** [Node::expand] *)
Definition expand (g : Graph) (loc : Location) : Outcome Location :=
  let (this, up) := loc in
  terminal <- is_terminal g this ;;
  if terminal then Ok (this, up)
  else
    this' <- generate_children g this up ;;
    match children_ this' with
    | [] => Ok (this', up)
    | _ :: _ =>
        match first_unplayed [] (children_ this') with
        | Some (before, child, after) =>
            Ok (child, frame_around this' before after :: up)
        | None => Throw "unreachable"
        end
    end.

(** [rand()] *)
Variable RandState : Type.
Variable rand : RandState -> nat * RandState.

(** Lines 356-385: the op is erased from the frontier before its
    successors are pushed. *)
Fixpoint playout (fuel : nat) (g : Graph) (rs : RandState)
  (path frontier : list Op) {struct fuel} : Outcome (list Op * RandState) :=
  match frontier with
  | [] => Ok (path, rs)
  | _ :: _ =>
      match fuel with
      | 0 => OutOfFuel
      | S fuel' =>
          let (r, rs') := rand rs in
          let ii := r mod List.length frontier in
          let op := nth ii frontier 0 in
          let frontier1 := erase_at ii frontier in
          let path' := path ++ [op] in
          ss <- at_ (succs_ g) op ;;
          frontier' <- MctsNode.push_ready_all g path' frontier1 ss ;;
          playout fuel' g rs' path' frontier'
      end
  end.

(** [Node::get_simulation_order]; lines 335-352 are lines 282-299 of the
    templated node. *)
Definition get_simulation_order (fuel : nat) (g : Graph) (loc : Location)
  (rs : RandState) : Outcome (list Op * RandState) :=
  let (this, up) := loc in
  let path := rev (path_to_root this up) in
  frontier <- MctsNode.initial_frontier g path path [] ;;
  playout fuel g rs path frontier.

(** [Node::backprop]: the location after the update. *)
Fixpoint backprop (this : Node) (up : list Frame) (med : double) : Location :=
  let this' := mkNode (op_ this) (children_ this)
                      (std_sort (times_ this ++ [med])) (expanded_ this) in
  match up with
  | [] => (this', [])
  | f :: up' =>
      let (parent', up'') := backprop (plug f this') up' med in
      (this', mkFrame (op_ parent') (fr_left f) (fr_right f)
                      (times_ parent') (expanded_ parent') :: up'')
  end.

(** *** The driver *)

(** [struct Result]: the list of simulation results, each a list of times
    and a path. *)
Record Result : Type := mkResult
  { simResults : list (list double * list Op) }.

(** [op->name()] of the operations of the graph. *)
Variable op_name : Op -> string.

(** What the loop of [mcts] holds between two rounds. *)
Record DriverState : Type := mkDriverState
  { ds_root : Node;
    ds_ctx : Context;
    ds_result : Result;
    ds_rand : RandState }.

(** One round of the loop of [mcts] on rank 0, lines 441-484.  The
    operations of the graph stand for themselves in the broadcast; on rank
    0 [mpi_bcast] leaves the order as it is.  The lines between [#if 0]
    and [#endif] are not compiled. *)
Definition mcts_round (fuel : nat) (g : Graph) (st : DriverState)
  : Outcome DriverState :=
  let order := map fst (succs_ g) in
  selected <- select (ds_ctx st) g (ds_root st) [] ;;
  child <- expand g selected ;;
  sim <- get_simulation_order fuel g child (ds_rand st) ;;
  let (order, rs') := sim in
  order <- mpi_bcast op_name 0 order order ;;
  Ok (mkDriverState (root_of (fst child) (snd child)) (ds_ctx st)
                    (ds_result st) rs').

Fixpoint mcts_rounds (rounds fuel : nat) (g : Graph) (st : DriverState)
  : Outcome DriverState :=
  match rounds with
  | 0 => Ok st
  | S rounds' =>
      st' <- mcts_round fuel g st ;;
      mcts_rounds rounds' fuel g st'
  end.

(** [mcts(g, comm)] on rank 0: the state when the loop is left. *)
Definition mcts (fuel : nat) (g : Graph) (rs : RandState) : Outcome DriverState :=
  mcts_rounds 10 fuel g
    (mkDriverState (new_Node (start_ g)) (mkContext infinity neg_infinity)
                   (mkResult []) rs).

End WithDouble.

End Mcts.

(** ** [get_frontier] of [mcts_node.cpp] *)

Module Frontier.
Import Outcomes Platform OpsCuda.

Section WithHelpers.

(** The operation classes declared outside the files at hand: the CPU
    operations and the unbound device operations, with the virtual [eq]
    of [OpBase]. *)
Variable CpuOp : Type.
Variable GpuOp : Type.
Variable cpu_eq : CpuOp -> CpuOp -> bool.
Variable gpu_eq : GpuOp -> GpuOp -> bool.

(** [BoundOp] and its subclasses. *)
Inductive BoundOp : Type :=
| BCpu (op : CpuOp)
| BGpu (op : BoundGpuOp GpuOp)
| BStreamWait (op : StreamWait)
| BStreamSync (op : StreamSync)
| BEventRecord (op : CudaEventRecord)
| BStreamWaitEvent (op : CudaStreamWaitEvent)
| BEventSync (op : CudaEventSync).

(** [OpBase]: an unbound device operation or a bound operation. *)
Inductive OpBase : Type :=
| Unbound (op : GpuOp)
| Bound (op : BoundOp).

(** The operations the scheduler inserts to order work across streams. *)
Definition is_sync (op : BoundOp) : bool :=
  match op with
  | BCpu _ | BGpu _ => false
  | BStreamWait _ | BStreamSync _ | BEventRecord _ | BStreamWaitEvent _
  | BEventSync _ => true
  end.

(** Modelled from the spec: [EQ_DEF] of [operation.hpp], the virtual [eq]
    of a bound operation.  Equality considers the variant and then the
    [operator==] of the class. *)
Definition BoundOp_eq (a b : BoundOp) : bool :=
  match a, b with
  | BCpu x, BCpu y => cpu_eq x y
  | BGpu x, BGpu y => BoundGpuOp_eq gpu_eq x y
  | BStreamWait x, BStreamWait y => StreamWait_eq x y
  | BStreamSync x, BStreamSync y => StreamSync_eq x y
  | BEventRecord x, BEventRecord y => CudaEventRecord_eq x y
  | BStreamWaitEvent x, BStreamWaitEvent y => CudaStreamWaitEvent_eq x y
  | BEventSync x, BEventSync y => CudaEventSync_eq x y
  | _, _ => false
  end.

(** Modelled from the spec: [keep_uniques], declared outside the files at
    hand.  The result is deduplicated by value equality: of operations
    that compare equal the first stays. *)
Fixpoint keep_uniques (v : list BoundOp) : list BoundOp :=
  match v with
  | [] => []
  | x :: t => x :: filter (fun y => negb (BoundOp_eq x y)) (keep_uniques t)
  end.

(** [Graph<OpBase>], [Platform] and the helpers [get_frontier] calls,
    all declared outside the files at hand. *)
Variable GraphT : Type.
Variable PlatformT : Type.

(** Equality of two [std::shared_ptr<OpBase>], as [std::find] tests it. *)
Variable same_ptr : OpBase -> OpBase -> bool.

(** [g.succs_find_or_find_unbound(op)]; [None] is [g.succs_.end()]. *)
Variable succs_find_or_find_unbound : GraphT -> BoundOp -> option (list OpBase).

(** [g.preds_.at(op)] *)
Variable preds_at : GraphT -> OpBase -> Outcome (list OpBase).

(** [Sequence<BoundOp>::contains_unbound] *)
Variable contains_unbound : list BoundOp -> OpBase -> bool.

(** [make_platform_variations(plat, op)]; the platform is passed by
    reference. *)
Variable make_platform_variations :
  PlatformT -> OpBase -> list BoundOp * PlatformT.

(** [EventSynchronizer::is_synced] and [EventSynchronizer::make_syncs] *)
Variable is_synced : BoundOp -> GraphT -> list BoundOp -> bool.
Variable make_syncs : BoundOp -> GraphT -> list BoundOp -> list BoundOp.

(** [onePredCompleted.end() != std::find(..., succ)] *)
Definition found_ptr (succ : OpBase) (v : list OpBase) : bool :=
  existsb (fun x => same_ptr x succ) v.

(** Lines 68-74 *)
Definition push_succs (onePredCompleted succs : list OpBase) : list OpBase :=
  fold_left (fun acc succ => if found_ptr succ acc then acc else acc ++ [succ])
            succs onePredCompleted.

(** Lines 57-76 *)
Definition one_pred_completed (g : GraphT) (completed : list BoundOp)
  : list OpBase :=
  fold_left (fun acc cOp =>
               match succs_find_or_find_unbound g cOp with
               | Some succs => push_succs acc succs
               | None => acc
               end)
            completed [].

(** Lines 88-110 *)
Fixpoint select_candidates (g : GraphT) (completed : list BoundOp)
  (onePredCompleted : list OpBase) : Outcome (list OpBase) :=
  match onePredCompleted with
  | [] => Ok []
  | cOp :: rest =>
      if contains_unbound completed cOp then select_candidates g completed rest
      else
        preds <- preds_at g cOp ;;
        let allPredsCompleted := forallb (contains_unbound completed) preds in
        candidates <- select_candidates g completed rest ;;
        Ok (if allPredsCompleted then cOp :: candidates else candidates)
  end.

(** Lines 131-145: the variations of one candidate. *)
Definition push_bounds (g : GraphT) (completed : list BoundOp)
  (frontier bounds : list BoundOp) : list BoundOp :=
  fold_left (fun fr bound =>
               if is_synced bound g completed then fr ++ [bound]
               else fr ++ make_syncs bound g completed)
            bounds frontier.

(** Lines 126-146 *)
Fixpoint generate_frontier (plat : PlatformT) (g : GraphT)
  (completed : list BoundOp) (candidates : list OpBase)
  (frontier : list BoundOp) : list BoundOp * PlatformT :=
  match candidates with
  | [] => (frontier, plat)
  | candidate :: rest =>
      let (bounds, plat') := make_platform_variations plat candidate in
      generate_frontier plat' g completed rest
                        (push_bounds g completed frontier bounds)
  end.

(** [get_frontier(plat, g, completed)]: the frontier and the platform
    afterwards. *)
Definition get_frontier (plat : PlatformT) (g : GraphT)
  (completed : list BoundOp) : Outcome (list BoundOp * PlatformT) :=
  let onePredCompleted := one_pred_completed g completed in
  candidates <- select_candidates g completed onePredCompleted ;;
  let (frontier, plat') := generate_frontier plat g completed candidates [] in
  Ok (keep_uniques frontier, plat').

End WithHelpers.

Arguments BCpu {CpuOp GpuOp} op.
Arguments BGpu {CpuOp GpuOp} op.
Arguments BStreamWait {CpuOp GpuOp} op.
Arguments BStreamSync {CpuOp GpuOp} op.
Arguments BEventRecord {CpuOp GpuOp} op.
Arguments BStreamWaitEvent {CpuOp GpuOp} op.
Arguments BEventSync {CpuOp GpuOp} op.
Arguments Unbound {CpuOp GpuOp} op.
Arguments Bound {CpuOp GpuOp} op.

End Frontier.

Unset Implicit Arguments.

(** ** Properties of graphs, paths and orders *)

Module GraphSpec.
Import Outcomes Graphs MctsNode.

(** Every successor listed in [succs_] is a key of both maps, as the
    graph's own edge insertion leaves them. *)
Definition graph_closed (g : Graph) : Prop :=
  forall u ss, find_key (succs_ g) u = Some ss ->
  forall v, In v ss ->
    find_key (succs_ g) v <> None /\ find_key (preds_ g) v <> None.

(** [x] has an entry in [preds_] and all its predecessors are on [path]. *)
Definition ready (g : Graph) (path : list Op) (x : Op) : bool :=
  match find_key (preds_ g) x with
  | Some ps => negb (some_pred_missing path ps)
  | None => false
  end.

(** [o] holds a value. *)
Definition is_some {A : Type} (o : option A) : bool :=
  match o with Some _ => true | None => false end.

(** [graph_closed], decided on the entries of [succs_]. *)
Definition graph_closedb (g : Graph) : bool :=
  forallb (fun entry =>
             forallb (fun v => is_some (find_key (succs_ g) v)
                               && is_some (find_key (preds_ g) v))
                     (snd entry))
          (succs_ g).

Section OnGraph.

Variable g : Graph.

(** [v] is a key of [succs_]. *)
Definition vertex (v : Op) : Prop := find_key (succs_ g) v <> None.

(** [v] is in [succs_[u]]. *)
Definition edge (u v : Op) : Prop :=
  exists ss, find_key (succs_ g) u = Some ss /\ In v ss.

(** [q] is in [preds_[v]]. *)
Definition pred_of (q v : Op) : Prop :=
  exists ps, find_key (preds_ g) v = Some ps /\ In q ps.

(** [v] is reached from [start_] along [succs_]. *)
Definition reachable (v : Op) : Prop :=
  Relation_Operators.clos_refl_trans_n1 Op edge (start_ g) v.

(** The invariants of the graph: both maps have an entry for [start_]
    and for every successor, they list the same edges, [start_] has no
    predecessor, and no chain of predecessors goes on for ever (the graph
    is acyclic). *)
Record graph_invariants : Prop := mkGraphInvariants
  { gi_closed : graph_closed g;
    gi_start : vertex (start_ g);
    gi_consistent : forall u v, edge u v <-> pred_of u v;
    gi_source : forall q, ~ pred_of q (start_ g);
    gi_acyclic : well_founded edge }.

(** Every predecessor of a vertex reached from [start_] is reached from
    [start_] too. *)
Definition rooted : Prop :=
  forall q v, reachable v -> pred_of q v -> reachable q.

(** Every element of the order comes after all its predecessors. *)
Definition preds_before (order : list Op) : Prop :=
  forall i x, nth_error order i = Some x ->
  forall q, pred_of q x -> exists j, j < i /\ nth_error order j = Some q.

(** The path from the root to a node of the search tree, root first: it
    starts at [start_], repeats no op, holds ops reached from [start_]
    only, each after its predecessors. *)
Record schedule_prefix (path : list Op) : Prop := mkSchedulePrefix
  { sp_start : hd_error path = Some (start_ g);
    sp_nodup : NoDup path;
    sp_reach : forall x, In x path -> reachable x;
    sp_order : preds_before path }.

(** The ops of an order that are vertices of the graph. *)
Definition graph_ops (order : list Op) : list Op :=
  filter (fun x => is_some (find_key (succs_ g) x)) order.

(** A topological sort of the part of the graph reached from [start_]. *)
Definition topological_sort (order : list Op) : Prop :=
  (forall v, reachable v -> count_occ Nat.eq_dec order v = 1) /\
  (forall v, In v order -> reachable v) /\
  preds_before order.

(** The invariant of the playout loop. *)
Record playout_inv (path frontier : list Op) : Prop := mkPlayoutInv
  { inv_nodup : NoDup (path ++ frontier);
    inv_start : In (start_ g) path;
    inv_reach : forall x, In x (path ++ frontier) -> reachable x;
    inv_order : preds_before path;
    inv_ready : forall x, In x frontier -> ready g path x = true;
    inv_complete : forall v, reachable v -> ~ In v path ->
                             ready g path v = true -> In v frontier }.

(** The vertices of the graph: the keys of [succs_]. *)
Definition vertices : list Op := map fst (succs_ g).

End OnGraph.

(** The paths, root first, of the nodes [expand] creates below a root
    that stands for [start_]. *)
Inductive tree_path (g : Graph) : list Op -> Prop :=
| tree_path_root : tree_path g [start_ g]
| tree_path_child (path frontier : list Op) (child : Op) :
    tree_path g path ->
    MctsNode.expand_frontier g (rev path) = Ok frontier ->
    In child frontier ->
    tree_path g (path ++ [child]).

(** *** Deciding the invariants of a given graph *)

(** [x] is in the list stored under [k]. *)
Definition listed (m : OpMap) (k x : Op) : bool :=
  match find_key m k with
  | Some l => found x l
  | None => false
  end.

(** Every edge of one map is an edge of the other. *)
Definition consistentb (g : Graph) : bool :=
  forallb (fun e => forallb (fun v => listed (preds_ g) v (fst e)) (snd e))
          (succs_ g)
  && forallb (fun e => forallb (fun u => listed (succs_ g) u (fst e)) (snd e))
             (preds_ g).

(** [start_] has no predecessor. *)
Definition sourceb (g : Graph) : bool :=
  match find_key (preds_ g) (start_ g) with
  | Some (_ :: _) => false
  | _ => true
  end.

(** [rank] grows along every edge. *)
Definition rankedb (g : Graph) (rank : Op -> nat) : bool :=
  forallb (fun e => forallb (fun v => Nat.ltb (rank (fst e)) (rank v)) (snd e)) (succs_ g).

(** Every op listed as a predecessor is [start_] or has a predecessor. *)
Definition rootedb (g : Graph) : bool :=
  forallb (fun e =>
             forallb (fun q => Nat.eqb q (start_ g)
                               || match find_key (preds_ g) q with
                                  | Some (_ :: _) => true
                                  | _ => false
                                  end)
                     (snd e))
          (preds_ g).

Definition graph_invariantsb (g : Graph) (rank : Op -> nat) : bool :=
  graph_closedb g && is_some (find_key (succs_ g) (start_ g))
  && consistentb g && sourceb g && rankedb g rank.

End GraphSpec.

(** ** Properties of the search node *)

Module NodeSpec.
Import Outcomes Graphs MctsNode.

Section WithStrategy.

Variable Context : Type.
Variable State : Type.
Variable BenchResult : Type.
Variable Strategy_backprop :
  Context -> Node State -> BenchResult -> Context * State.

Local Abbreviation Node := (Node State).

(** What one activation of [backprop] does to the flag of a node: the
    flag after the call holds iff it held before, or the node is a
    childless expanded node, or the node has children and all of them are
    fully visited. *)
Definition fully_visited_rule (old new : Node) : Prop :=
  fullyVisited_ new = true <->
  (fullyVisited_ old = true \/
   (children_ new = [] /\ expanded_ new = true) \/
   (children_ new <> [] /\
    forall c, In c (children_ new) -> fullyVisited_ c = true)).

(** What one activation does to a node of the path. *)
Definition visited_once (old new : Node) : Prop :=
  n_ new = size_incr (n_ old) /\
  op_ new = op_ old /\
  expanded_ new = expanded_ old /\
  fully_visited_rule old new.

(** The states [Strategy::backprop] hands back along the calls. *)
Fixpoint strategy_states (ctx : Context) (calls : list Node) (br : BenchResult)
  : list State :=
  match calls with
  | [] => []
  | nd :: rest =>
      snd (Strategy_backprop ctx nd br)
      :: strategy_states (fst (Strategy_backprop ctx nd br)) rest br
  end.

(** The context after the calls. *)
Definition strategy_context (ctx : Context) (calls : list Node) (br : BenchResult)
  : Context :=
  fold_left (fun c nd => fst (Strategy_backprop c nd br)) calls ctx.

(** Two nodes that agree on everything but their children. *)
Definition same_own (a b : Node) : Prop :=
  op_ a = op_ b /\ expanded_ a = expanded_ b /\
  fullyVisited_ a = fullyVisited_ b /\ n_ a = n_ b /\ state_ a = state_ b.

End WithStrategy.

End NodeSpec.

(** ** Properties of the broadcast *)

Module BcastSpec.
Import Outcomes Mcts.

Section WithOps.

Variable BOp : Type.
Variable name : BOp -> string.

(** The names of an order can be sent: each length fits an [int], their
    sum a [size_t]. *)
Definition names_fit (order : list BOp) : Prop :=
  Forall (fun op => (Z.of_nat (String.length (name op)) < 2 ^ 31)%Z) order /\
  (Z.of_nat (list_sum (map (fun op => String.length (name op)) order)) < 2 ^ 64)%Z.

(** The first op of [order] named [n]. *)
Definition first_named (n : string) (order : list BOp) : option BOp :=
  find (fun op => String.eqb (name op) n) order.

End WithOps.

End BcastSpec.

(** ** Properties of the driver *)

Module DriverSpec.
Import Outcomes Graphs Mcts.

Section WithDouble.

Variable double : Type.
Variable infinity : double.
Variable neg_infinity : double.
Variable RandState : Type.

Local Abbreviation Node := (Node double).

(** No node of the tree has a time recorded: [backprop] has visited
    none. *)
Fixpoint never_played (nd : Node) : bool :=
  match nd with
  | mkNode _ children times _ =>
      match times with
      | [] => forallb never_played children
      | _ :: _ => false
      end
  end.

(** The driver has backpropagated nothing: the tree holds no time, the
    context still has its initial bounds, no result is recorded. *)
Definition nothing_learnt (st : DriverState double RandState) : Prop :=
  never_played (ds_root st) = true /\
  ds_ctx st = mkContext infinity neg_infinity /\
  simResults (ds_result st) = [].

End WithDouble.

End DriverSpec.

(** ** Properties of the frontier *)

Module FrontierSpec.
Import Outcomes Platform OpsCuda Frontier.

Section WithHelpers.

Variable CpuOp : Type.
Variable GpuOp : Type.
Variable GraphT : Type.
Variable PlatformT : Type.

Local Abbreviation BoundOp := (BoundOp CpuOp GpuOp).
Local Abbreviation OpBase := (OpBase CpuOp GpuOp).

Variable preds_at : GraphT -> OpBase -> Outcome (list OpBase).
Variable contains_unbound : list BoundOp -> OpBase -> bool.
Variable make_platform_variations :
  PlatformT -> OpBase -> list BoundOp * PlatformT.
Variable is_synced : BoundOp -> GraphT -> list BoundOp -> bool.

(** No operation of the list compares equal to a later one. *)
Inductive unique_by (eq : BoundOp -> BoundOp -> bool) : list BoundOp -> Prop :=
| unique_nil : unique_by eq []
| unique_cons (x : BoundOp) (l : list BoundOp) :
    (forall y, In y l -> eq x y = false) ->
    unique_by eq l ->
    unique_by eq (x :: l).

(** [v] may be issued next: it is a platform variation of a vertex [x] of
    the graph that is not completed, all predecessors of [x] are
    completed, and [v] is synchronized with them. *)
Definition ready_variation (g : GraphT) (completed : list BoundOp) (v : BoundOp)
  : Prop :=
  exists plat x preds,
    In v (fst (make_platform_variations plat x)) /\
    contains_unbound completed x = false /\
    preds_at g x = Ok preds /\
    (forall p, In p preds -> contains_unbound completed p = true) /\
    is_synced v g completed = true.

End WithHelpers.

End FrontierSpec.

(** ** Strategies, graphs and operations to run the code on *)

Module Samples.
Import Outcomes Graphs Platform OpsCuda Frontier.

(** The state is the list of recorded times, as the reference strategies
    keep it; every backprop records the measured time. *)
Definition record_time (ctx : unit) (nd : MctsNode.Node (list nat)) (br : nat)
  : unit * list nat :=
  (ctx, br :: MctsNode.state_ nd).

(** [State::times] of that strategy. *)
Definition recorded (s : list nat) : list nat := s.

(** [start -> a], [start -> b] with [start = 0], [a = 1], [b = 2]. *)
Definition fork : Graph :=
  mkGraph 0 [(0, [1; 2]); (1, []); (2, [])] [(0, []); (1, [0]); (2, [0])].

(** [start -> a -> b] *)
Definition chain : Graph :=
  mkGraph 0 [(0, [1]); (1, [2]); (2, [])] [(0, []); (1, [0]); (2, [1])].

(** [rand()] as a congruential generator. *)
Definition lcg (s : nat) : nat * nat :=
  (s / 4, (s * 5 + 3) mod 64).

(** [start -> a], [start -> b], [a -> c], [b -> c]. *)
Definition diamond : Graph :=
  mkGraph 0 [(0, [1; 2]); (1, [3]); (2, [3]); (3, [])]
            [(0, []); (1, [0]); (2, [0]); (3, [1; 2])].

(** [start -> b] and [a -> b], [a] having no predecessor: [start = 0],
    [a = 1], [b = 2]. *)
Definition two_sources : Graph :=
  mkGraph 0 [(0, [2]); (1, [2]); (2, [])] [(0, []); (1, []); (2, [0; 1])].

(** An operation with a name and a stream, as a bound device operation
    has them. *)
Definition op_on (n : string) (stream : nat) : string * nat := (n, stream).

(** A graph [start -> k] with a CPU operation [start] and an unbound
    device operation [k], on a platform with the streams 0 and 1;
    operations are told apart by their names. *)
Definition demo_same_ptr (a b : OpBase string string) : bool :=
  match a, b with
  | Unbound x, Unbound y => String.eqb x y
  | Bound (BCpu x), Bound (BCpu y) => String.eqb x y
  | _, _ => false
  end.

Definition demo_succs (g : unit) (op : BoundOp string string)
  : option (list (OpBase string string)) :=
  match op with
  | BCpu "start" => Some [Unbound "k"]
  | BGpu (mkBoundGpuOp "k" _) => Some []
  | _ => None
  end.

Definition demo_preds (g : unit) (op : OpBase string string)
  : Outcome (list (OpBase string string)) :=
  match op with
  | Unbound "k" => Ok [Bound (BCpu "start")]
  | Bound (BCpu "start") => Ok []
  | _ => OutOfRange
  end.

Definition demo_contains_unbound (completed : list (BoundOp string string))
  (op : OpBase string string) : bool :=
  existsb (fun c => match op, c with
                    | Unbound x, BGpu b => String.eqb x (bg_op b)
                    | Bound (BCpu x), BCpu y => String.eqb x y
                    | _, _ => false
                    end) completed.

Definition demo_variations (plat : unit) (op : OpBase string string)
  : list (BoundOp string string) * unit :=
  match op with
  | Unbound k => ([BGpu (mkBoundGpuOp k (mkStream 0));
                   BGpu (mkBoundGpuOp k (mkStream 1))], plat)
  | Bound b => ([b], plat)
  end.

(** The variation on stream 0 counts as synchronized, the one on stream 1
    needs an event recorded and waited for. *)
Definition demo_is_synced (v : BoundOp string string) (g : unit)
  (completed : list (BoundOp string string)) : bool :=
  match v with
  | BGpu b => N.eqb (stream_id (bg_stream b)) 0
  | _ => true
  end.

Definition demo_make_syncs (v : BoundOp string string) (g : unit)
  (completed : list (BoundOp string string)) : list (BoundOp string string) :=
  match v with
  | BGpu b =>
      [BEventRecord (new_CudaEventRecord (mkEvent 0) (mkStream 0));
       BStreamWaitEvent
         (new_CudaStreamWaitEvent (bg_stream b) (mkEvent 0))]
  | _ => []
  end.

Definition demo_frontier : Outcome (list (BoundOp string string) * unit) :=
  get_frontier String.eqb String.eqb demo_same_ptr demo_succs demo_preds
               demo_contains_unbound demo_variations demo_is_synced
               demo_make_syncs tt tt [BCpu "start"].

End Samples.

From Stdlib Require Import DecimalString Sorted.

Set Implicit Arguments.

(** ** [struct Platform], [ResourceMap] and [CudaEventPool] of [platform.hpp] *)

Module PlatformRes.
Import Outcomes Platform.

(** [Stream::operator>] *)
Definition stream_gt (a b : Stream) : bool := N.ltb (stream_id b) (stream_id a).

(** [Stream::operator!=]: [!(rhs == *this)] *)
Definition stream_ne (a b : Stream) : bool := negb (stream_eq b a).

(** [Event::operator<] *)
Definition event_lt (a b : Event) : bool := N.ltb (event_id a) (event_id b).

(** [Event::operator>] *)
Definition event_gt (a b : Event) : bool := N.ltb (event_id b) (event_id a).

(** [Event::operator!=]: [!(rhs == *this)] *)
Definition event_ne (a b : Event) : bool := negb (event_eq b a).

(** A [size_t] turned into the [unsigned] of [Stream::id_t] and
    [Event::id_t]. *)
Definition unsigned_of_size (n : N) : N := (n mod 2 ^ 32)%N.

(** A [size_t] turned into an [int]. *)
Definition int_of_size (n : N) : Z :=
  let m := (Z.of_N n mod 2 ^ 32)%Z in
  if (m <? 2 ^ 31)%Z then m else (m - 2 ^ 32)%Z.

(** [size_t] addition. *)
Definition size_add (a b : N) : N := ((a + b) mod 2 ^ 64)%N.

(** [os << id_] *)
Definition show_unsigned (n : N) : string := NilZero.string_of_uint (N.to_uint n).

(** [v.size()] *)
Definition size {A : Type} (v : list A) : N := N.of_nat (List.length v).

Section WithCuda.

(** The handles of the CUDA runtime and of MPI, and the two runtime calls
    that create a handle.  [Cuda] is the state of the runtime;
    [CUDA_RUNTIME] ends the program when a call fails, the calls are taken
    to succeed. *)
Variable cudaStream_t : Type.
Variable cudaEvent_t : Type.
Variable MPI_Comm : Type.
Variable Cuda : Type.
Variable cudaStreamCreate : Cuda -> cudaStream_t * Cuda.
Variable cudaEventCreateWithFlags : Cuda -> cudaEvent_t * Cuda.

(** The [cudaStream_t] written [0]: the default stream. *)
Variable stream0 : cudaStream_t.

(** [struct Platform] *)
Record Platform : Type := mkPlatform
  { iEvent_ : N;
    cStreams_ : list cudaStream_t;
    events_ : list cudaEvent_t;
    comm_ : MPI_Comm;
    streams_ : list Stream }.

(** [Platform(MPI_Comm comm)] *)
Definition new_Platform (comm : MPI_Comm) : Platform :=
  mkPlatform 0 [stream0] [] comm [mkStream 0].

(** [reset_dynamic_resources] *)
Definition reset_dynamic_resources (p : Platform) : Platform :=
  mkPlatform 0 (cStreams_ p) (events_ p) (comm_ p) (streams_ p).

(** [num_streams] *)
Definition num_streams (p : Platform) : Outcome Z :=
  if negb (N.eqb (size (streams_ p)) (size (cStreams_ p)))
  then Throw "internal platform stream bookkeeping error"
  else
    match streams_ p with
    | [] => Throw "platform missing default stream"
    | _ :: _ => Ok (int_of_size (size (streams_ p) - 1))
    end.

(** [num_events] *)
Definition num_events (p : Platform) : Z := int_of_size (iEvent_ p).

(** [cuda_stream]; [cStreams_[stream.id_]] past the end is undefined. *)
Definition cuda_stream (p : Platform) (stream : Stream) : Outcome cudaStream_t :=
  if (size (streams_ p) <=? stream_id stream)%N
  then Throw ("requested non-existent stream " ++ show_unsigned (stream_id stream))
  else
    match nth_error (cStreams_ p) (N.to_nat (stream_id stream)) with
    | Some s => Ok s
    | None => Throw "cStreams_[stream.id_] out of range"
    end.

(** [cuda_event] *)
Definition cuda_event (p : Platform) (event : Event) : Outcome cudaEvent_t :=
  if (size (events_ p) <=? event_id event)%N
  then Throw ("requested unreserved event " ++ show_unsigned (event_id event))
  else if (iEvent_ p <=? event_id event)%N
  then Throw ("requested invalid event handle " ++ show_unsigned (event_id event))
  else
    match nth_error (events_ p) (N.to_nat (event_id event)) with
    | Some e => Ok e
    | None => Throw "events_[event.id_] out of range"
    end.

(** The loop of [reserve_events]: [rounds] bounds the number of events
    created. *)
Fixpoint reserve_loop (rounds : nat) (n : N) (cu : Cuda) (p : Platform)
  : Outcome (Cuda * Platform) :=
  if (size (events_ p) <? n)%N then
    match rounds with
    | 0 => OutOfFuel
    | S rounds' =>
        let (e, cu') := cudaEventCreateWithFlags cu in
        reserve_loop rounds' n cu'
          (mkPlatform (iEvent_ p) (cStreams_ p) (events_ p ++ [e]) (comm_ p)
                      (streams_ p))
    end
  else Ok (cu, p).

(** [reserve_events(n)]: every round adds an event, so the loop runs
    [n - events_.size()] times at most. *)
Definition reserve_events (n : N) (cu : Cuda) (p : Platform)
  : Outcome (Cuda * Platform) :=
  reserve_loop (N.to_nat (n - size (events_ p))) n cu p.

(** [new_event] *)
Definition new_event (cu : Cuda) (p : Platform) : Outcome (Event * Cuda * Platform) :=
  r <- reserve_events (size_add (iEvent_ p) 1) cu p ;;
  let (cu', p') := r in
  Ok (mkEvent (unsigned_of_size (iEvent_ p')), cu',
      mkPlatform (size_add (iEvent_ p') 1) (cStreams_ p') (events_ p') (comm_ p')
                 (streams_ p')).

(** [new_stream] *)
Definition new_stream (cu : Cuda) (p : Platform) : Stream * Cuda * Platform :=
  let stream := mkStream (unsigned_of_size (size (streams_ p))) in
  let (s, cu') := cudaStreamCreate cu in
  (stream, cu',
   mkPlatform (iEvent_ p) (cStreams_ p ++ [s]) (events_ p) (comm_ p)
              (streams_ p ++ [stream])).

(** The loop of [ensure_streams]. *)
Fixpoint ensure_loop (rounds : nat) (n : Z) (cu : Cuda) (p : Platform)
  : Outcome (Cuda * Platform) :=
  ns <- num_streams p ;;
  if (ns <? n)%Z then
    match rounds with
    | 0 => OutOfFuel
    | S rounds' =>
        let '(_, cu', p') := new_stream cu p in
        ensure_loop rounds' n cu' p'
    end
  else Ok (cu, p).

(** [ensure_streams(n)]: every round adds a stream, so the loop runs
    [n - num_streams()] times at most. *)
Definition ensure_streams (n : Z) (cu : Cuda) (p : Platform)
  : Outcome (Cuda * Platform) :=
  ns <- num_streams p ;;
  ensure_loop (Z.to_nat (n - ns)) n cu p.

(** [ensure_events(n)] *)
Definition ensure_events (n : N) (cu : Cuda) (p : Platform)
  : Outcome (Cuda * Platform) :=
  r <- reserve_events n cu p ;;
  let (cu', p') := r in
  Ok (cu',
      if (iEvent_ p' <? n)%N
      then mkPlatform n (cStreams_ p') (events_ p') (comm_ p') (streams_ p')
      else p').

(** [make_n_streams(n, comm)] *)
Definition make_n_streams (n : Z) (comm : MPI_Comm) (cu : Cuda)
  : Outcome (Cuda * Platform) :=
  ensure_streams n cu (new_Platform comm).

(** *** [class ResourceMap] *)

(** [std::map<Event, cudaEvent_t>]: the entries in key order; the keys
    are compared with [Event::operator<]. *)
Definition EventMap : Type := list (Event * cudaEvent_t).

(** [events.count(event)] *)
Fixpoint count (events : EventMap) (event : Event) : N :=
  match events with
  | [] => 0
  | (k, _) :: rest =>
      if event_lt event k then 0
      else if event_lt k event then count rest event
      else 1
  end.

(** [events.insert(std::make_pair(event, cevent))]: the map afterwards and
    [.second], whether the pair went in. *)
Fixpoint map_insert (events : EventMap) (event : Event) (cevent : cudaEvent_t)
  : EventMap * bool :=
  match events with
  | [] => ([(event, cevent)], true)
  | (k, v) :: rest =>
      if event_lt event k then ((event, cevent) :: (k, v) :: rest, true)
      else if event_lt k event then
        let (rest', second) := map_insert rest event cevent in
        ((k, v) :: rest', second)
      else ((k, v) :: rest, false)
  end.

(** [ResourceMap::contains] *)
Definition contains (events : EventMap) (event : Event) : bool :=
  negb (N.eqb 0 (count events event)).

(** [ResourceMap::insert] *)
Definition insert (events : EventMap) (event : Event) (cevent : cudaEvent_t)
  : EventMap * bool :=
  map_insert events event cevent.

(** *** [class CudaEventPool] *)

Record CudaEventPool : Type := mkCudaEventPool
  { pool_events_ : list cudaEvent_t;
    i_ : N }.

(** [CudaEventPool()] *)
Definition new_CudaEventPool : CudaEventPool := mkCudaEventPool [] 0.

(** The loop of [CudaEventPool::new_event], [rounds] rounds at most. *)
Fixpoint pool_loop (rounds : nat) (cu : Cuda) (pool : CudaEventPool)
  : Outcome (Cuda * CudaEventPool) :=
  if (i_ pool <=? size (pool_events_ pool))%N then
    match rounds with
    | 0 => OutOfFuel
    | S rounds' =>
        let (e, cu') := cudaEventCreateWithFlags cu in
        pool_loop rounds' cu' (mkCudaEventPool (pool_events_ pool ++ [e]) (i_ pool))
    end
  else Ok (cu, pool).

(** [CudaEventPool::new_event]; [events_[i_]] past the end is undefined. *)
Definition pool_new_event (rounds : nat) (cu : Cuda) (pool : CudaEventPool)
  : Outcome (cudaEvent_t * Cuda * CudaEventPool) :=
  r <- pool_loop rounds cu pool ;;
  let (cu', pool') := r in
  match nth_error (pool_events_ pool') (N.to_nat (i_ pool')) with
  | Some e => Ok (e, cu', mkCudaEventPool (pool_events_ pool') (size_add (i_ pool') 1))
  | None => Throw "events_[i_] out of range"
  end.

(** [CudaEventPool::reset] *)
Definition pool_reset (pool : CudaEventPool) : CudaEventPool :=
  mkCudaEventPool (pool_events_ pool) 0.

End WithCuda.

End PlatformRes.

Unset Implicit Arguments.

Set Implicit Arguments.

(** ** Ordering and [run] of the operations of [ops_cuda.hpp] *)

Module OpsOrder.
Import Outcomes Platform OpsCuda PlatformRes.

(** [std::string::operator<]: lexicographic on the characters. *)
Definition string_lt (a b : string) : bool := String.ltb a b.

(** [StreamWait::operator<] *)
Definition StreamWait_lt (a b : StreamWait) : bool :=
  string_lt (sw_name a) (sw_name b).

(** [StreamSync::operator<] *)
Definition StreamSync_lt (a b : StreamSync) : bool :=
  string_lt (ss_name a) (ss_name b).

(** [CudaEventRecord::operator<] *)
Definition CudaEventRecord_lt (a b : CudaEventRecord) : bool :=
  string_lt (er_name a) (er_name b).

(** [CudaStreamWaitEvent::operator<] *)
Definition CudaStreamWaitEvent_lt (a b : CudaStreamWaitEvent) : bool :=
  string_lt (swe_name a) (swe_name b).

(** [CudaEventSync::operator<] *)
Definition CudaEventSync_lt (a b : CudaEventSync) : bool :=
  string_lt (es_name a) (es_name b).

Section WithGpuOp.

(** [GpuOp] with the virtual [lt] and [name] it inherits from [OpBase]. *)
Variable GpuOp : Type.
Variable gpu_lt : GpuOp -> GpuOp -> bool.
Variable gpu_name : GpuOp -> string.

(** [BoundGpuOp::operator<] *)
Definition BoundGpuOp_lt (a b : BoundGpuOp GpuOp) : bool :=
  if stream_lt (bg_stream a) (bg_stream b) then true
  else if stream_gt (bg_stream a) (bg_stream b) then false
  else gpu_lt (bg_op a) (bg_op b).

(** [BoundGpuOp::name] *)
Definition BoundGpuOp_name (a : BoundGpuOp GpuOp) : string := gpu_name (bg_op a).

(** [BoundGpuOp::desc] *)
Definition BoundGpuOp_desc (a : BoundGpuOp GpuOp) : string :=
  "{" ++ BoundGpuOp_name a ++ ", s:" ++ show_unsigned (stream_id (bg_stream a)) ++ "}".

End WithGpuOp.

Section WithCuda.

Variable cudaStream_t : Type.
Variable cudaEvent_t : Type.
Variable MPI_Comm : Type.
Variable Cuda : Type.

(** The two calls of [StreamWait::run], taken to succeed. *)
Variable cudaEventRecord : cudaEvent_t -> cudaStream_t -> Cuda -> Cuda.
Variable cudaStreamWaitEvent : cudaStream_t -> cudaEvent_t -> Cuda -> Cuda.

(** [StreamWait::run]: the state of the runtime when the call is left, and
    how it is left. *)
Definition StreamWait_run (op : StreamWait)
  (plat : PlatformRes.Platform cudaStream_t cudaEvent_t MPI_Comm) (cu : Cuda)
  : Cuda * Outcome unit :=
  match cuda_event plat (sw_event op) with
  | Ok event =>
      match cuda_stream plat (sw_waitee op) with
      | Ok waitee =>
          let cu1 := cudaEventRecord event waitee cu in
          match cuda_stream plat (sw_waiter op) with
          | Ok waiter => (cudaStreamWaitEvent waiter event cu1, Ok tt)
          | OutOfRange => (cu1, OutOfRange)
          | Throw msg => (cu1, Throw msg)
          | OutOfFuel => (cu1, OutOfFuel)
          end
      | OutOfRange => (cu, OutOfRange)
      | Throw msg => (cu, Throw msg)
      | OutOfFuel => (cu, OutOfFuel)
      end
  | OutOfRange => (cu, OutOfRange)
  | Throw msg => (cu, Throw msg)
  | OutOfFuel => (cu, OutOfFuel)
  end.

End WithCuda.

End OpsOrder.

(** ** The operations of [ops_mpi.hpp] *)

Module OpsMpi.
Import Outcomes OpsOrder.

(** Addresses ([void *], [MPI_Request *], [MPI_Status *]) and the handles
    of MPI ([MPI_Datatype], [MPI_Comm], [MPI_Request]): [==] compares the
    address or the handle. *)
Definition Addr : Type := N.
Definition Handle : Type := N.

(** [Irecv::Args] *)
Record IrecvArgs : Type := mkIrecvArgs
  { ir_buf : Addr; ir_count : Z; ir_datatype : Handle; ir_source : Z;
    ir_tag : Z; ir_comm : Handle; ir_request : Addr }.

(** [Irecv::Args::operator==] *)
Definition IrecvArgs_eq (a b : IrecvArgs) : bool :=
  N.eqb (ir_buf a) (ir_buf b) && Z.eqb (ir_count a) (ir_count b)
  && N.eqb (ir_datatype a) (ir_datatype b) && Z.eqb (ir_source a) (ir_source b)
  && Z.eqb (ir_tag a) (ir_tag b) && N.eqb (ir_comm a) (ir_comm b)
  && N.eqb (ir_request a) (ir_request b).

(** [class Irecv] *)
Record Irecv : Type := mkIrecv { irecv_args_ : IrecvArgs; irecv_name_ : string }.

(** [Irecv::operator==] *)
Definition Irecv_eq (a b : Irecv) : bool := IrecvArgs_eq (irecv_args_ a) (irecv_args_ b).

(** [Irecv::operator<] *)
Definition Irecv_lt (a b : Irecv) : bool := string_lt (irecv_name_ a) (irecv_name_ b).

(** [Isend::Args] *)
Record IsendArgs : Type := mkIsendArgs
  { is_buf : Addr; is_count : Z; is_datatype : Handle; is_dest : Z;
    is_tag : Z; is_comm : Handle; is_request : Addr }.

(** [Isend::Args::operator==] *)
Definition IsendArgs_eq (a b : IsendArgs) : bool :=
  N.eqb (is_buf a) (is_buf b) && Z.eqb (is_count a) (is_count b)
  && N.eqb (is_datatype a) (is_datatype b) && Z.eqb (is_dest a) (is_dest b)
  && Z.eqb (is_tag a) (is_tag b) && N.eqb (is_comm a) (is_comm b)
  && N.eqb (is_request a) (is_request b).

(** [class Isend] *)
Record Isend : Type := mkIsend { isend_args_ : IsendArgs; isend_name_ : string }.

(** [Isend::operator==] *)
Definition Isend_eq (a b : Isend) : bool := IsendArgs_eq (isend_args_ a) (isend_args_ b).

(** [Isend::operator<] *)
Definition Isend_lt (a b : Isend) : bool := string_lt (isend_name_ a) (isend_name_ b).

(** [Wait::Args] *)
Record WaitArgs : Type := mkWaitArgs { w_request : Addr; w_status : Addr }.

(** [Wait::Args::operator==] *)
Definition WaitArgs_eq (a b : WaitArgs) : bool :=
  N.eqb (w_request a) (w_request b) && N.eqb (w_status a) (w_status b).

(** [class Wait] *)
Record Wait : Type := mkWait { wait_args_ : WaitArgs; wait_name_ : string }.

(** [Wait::operator==] *)
Definition Wait_eq (a b : Wait) : bool := WaitArgs_eq (wait_args_ a) (wait_args_ b).

(** [Wait::operator<] *)
Definition Wait_lt (a b : Wait) : bool := string_lt (wait_name_ a) (wait_name_ b).

(** [std::vector<T>::operator==] on handles or addresses: the sizes and
    the elements. *)
Fixpoint vector_eq (a b : list N) : bool :=
  match a, b with
  | [], [] => true
  | x :: a', y :: b' => N.eqb x y && vector_eq a' b'
  | _, _ => false
  end.

(** [class OwningWaitall] *)
Record OwningWaitall : Type := mkOwningWaitall
  { ow_reqs_ : list Handle; ow_name_ : string }.

(** [OwningWaitall(name)] *)
Definition new_OwningWaitall (name : string) : OwningWaitall :=
  mkOwningWaitall [] name.

(** [OwningWaitall(n, name)]: [reqs_(n)], [n] value-initialized requests. *)
Definition new_OwningWaitall_n (n : nat) (name : string) : OwningWaitall :=
  mkOwningWaitall (repeat 0%N n) name.

(** [OwningWaitall::operator==] *)
Definition OwningWaitall_eq (a b : OwningWaitall) : bool :=
  vector_eq (ow_reqs_ a) (ow_reqs_ b).

(** [OwningWaitall::operator<] *)
Definition OwningWaitall_lt (a b : OwningWaitall) : bool :=
  string_lt (ow_name_ a) (ow_name_ b).

(** [OwningWaitall::add_request] *)
Definition OwningWaitall_add_request (a : OwningWaitall) (req : Handle)
  : OwningWaitall :=
  mkOwningWaitall (ow_reqs_ a ++ [req]) (ow_name_ a).

(** [class MultiWait] *)
Record MultiWait : Type := mkMultiWait
  { mw_reqs_ : list Addr; mw_name_ : string }.

(** [MultiWait(name)] *)
Definition new_MultiWait (name : string) : MultiWait := mkMultiWait [] name.

(** [MultiWait::operator==] *)
Definition MultiWait_eq (a b : MultiWait) : bool :=
  vector_eq (mw_reqs_ a) (mw_reqs_ b).

(** [MultiWait::operator<] *)
Definition MultiWait_lt (a b : MultiWait) : bool :=
  string_lt (mw_name_ a) (mw_name_ b).

(** [MultiWait::add_request] *)
Definition MultiWait_add_request (a : MultiWait) (req : Addr) : MultiWait :=
  mkMultiWait (mw_reqs_ a ++ [req]) (mw_name_ a).

End OpsMpi.

Unset Implicit Arguments.

(** ** Properties of the platform *)

Module PlatformSpec.
Import Outcomes Platform PlatformRes.

Section WithCuda.

Variable cudaStream_t : Type.
Variable cudaEvent_t : Type.
Variable MPI_Comm : Type.
Variable Cuda : Type.
Variable cudaStreamCreate : Cuda -> cudaStream_t * Cuda.
Variable cudaEventCreateWithFlags : Cuda -> cudaEvent_t * Cuda.
Variable stream0 : cudaStream_t.

Local Abbreviation Platform := (PlatformRes.Platform cudaStream_t cudaEvent_t MPI_Comm).

(** The bookkeeping of a platform: a [cudaStream_t] for every stream, the
    default stream first, every stream at the position its id names, and
    an event reserved for every handle given out. *)
Record consistent (p : Platform) : Prop := mkConsistent
  { c_sizes : List.length (streams_ p) = List.length (cStreams_ p);
    c_default : streams_ p <> [];
    c_ids : forall i s, nth_error (streams_ p) i = Some s ->
                        stream_id s = unsigned_of_size (N.of_nat i);
    c_events : (iEvent_ p <= size (events_ p))%N }.

(** The member functions that change a platform. *)
Inductive Call : Type :=
| call_reset_dynamic_resources
| call_new_event
| call_new_stream
| call_ensure_streams (n : Z)
| call_reserve_events (n : N)
| call_ensure_events (n : N).

(** The argument of [ensure_streams] is an [int]. *)
Definition int_args (c : Call) : Prop :=
  match c with
  | call_ensure_streams n => (n < 2 ^ 31)%Z
  | _ => True
  end.

Definition run_call (c : Call) (cu : Cuda) (p : Platform) : Outcome (Cuda * Platform) :=
  match c with
  | call_reset_dynamic_resources => Ok (cu, reset_dynamic_resources p)
  | call_new_event =>
      r <- new_event cudaEventCreateWithFlags cu p ;;
      Ok (snd (fst r), snd r)
  | call_new_stream =>
      let r := new_stream cudaStreamCreate cu p in
      Ok (snd (fst r), snd r)
  | call_ensure_streams n => ensure_streams cudaStreamCreate n cu p
  | call_reserve_events n => reserve_events cudaEventCreateWithFlags n cu p
  | call_ensure_events n => ensure_events cudaEventCreateWithFlags n cu p
  end.

Fixpoint run_calls (cs : list Call) (cu : Cuda) (p : Platform)
  : Outcome (Cuda * Platform) :=
  match cs with
  | [] => Ok (cu, p)
  | c :: rest =>
      r <- run_call c cu p ;;
      run_calls rest (fst r) (snd r)
  end.

(** [k] calls of [cudaStreamCreate] in a row: the streams created and the
    runtime afterwards. *)
Fixpoint create_streams (k : nat) (cu : Cuda) : list cudaStream_t * Cuda :=
  match k with
  | 0 => ([], cu)
  | S k' =>
      let (s, cu') := cudaStreamCreate cu in
      let (ss, cu'') := create_streams k' cu' in
      (s :: ss, cu'')
  end.

(** [k] calls of [cudaEventCreateWithFlags] in a row. *)
Fixpoint create_events (k : nat) (cu : Cuda) : list cudaEvent_t * Cuda :=
  match k with
  | 0 => ([], cu)
  | S k' =>
      let (e, cu') := cudaEventCreateWithFlags cu in
      let (es, cu'') := create_events k' cu' in
      (e :: es, cu'')
  end.

(** [k] calls of [new_event] in a row: the handles returned, in order. *)
Fixpoint new_events (k : nat) (cu : Cuda) (p : Platform)
  : Outcome (list Event * Cuda * Platform) :=
  match k with
  | 0 => Ok ([], cu, p)
  | S k' =>
      r <- new_event cudaEventCreateWithFlags cu p ;;
      let '(e, cu', p') := r in
      r' <- new_events k' cu' p' ;;
      let '(es, cu'', p'') := r' in
      Ok (e :: es, cu'', p'')
  end.

(** [p] with the events [es] pushed to [events_]. *)
Definition add_events (p : Platform) (es : list cudaEvent_t) : Platform :=
  mkPlatform (iEvent_ p) (cStreams_ p) (events_ p ++ es) (comm_ p) (streams_ p).

(** [p] with [iEvent_] set to [n]. *)
Definition set_iEvent (p : Platform) (n : N) : Platform :=
  mkPlatform n (cStreams_ p) (events_ p) (comm_ p) (streams_ p).

(** The streams [new_stream] makes when [streams_] holds [first] streams
    and [k] streams are asked for in a row. *)
Definition next_streams (first k : nat) : list Stream :=
  map (fun i => mkStream (unsigned_of_size (N.of_nat i))) (seq first k).

(** [p] with the streams backed by [cs] pushed. *)
Definition add_streams (p : Platform) (cs : list cudaStream_t) : Platform :=
  mkPlatform (iEvent_ p) (cStreams_ p ++ cs) (events_ p) (comm_ p)
             (streams_ p ++ next_streams (List.length (streams_ p)) (List.length cs)).

(** The streams with the ids [0 .. k-1]. *)
Definition streams_upto (k : nat) : list Stream :=
  map (fun i => mkStream (N.of_nat i)) (seq 0 k).

(** The events with the ids [0 .. k-1]. *)
Definition events_upto (k : nat) : list Event :=
  map (fun i => mkEvent (N.of_nat i)) (seq 0 k).

(** The keys of a [std::map<Event, cudaEvent_t>] are in increasing
    order. *)
Fixpoint sorted_keys (events : EventMap cudaEvent_t) : Prop :=
  match events with
  | [] => True
  | (k, _) :: rest =>
      match rest with
      | [] => True
      | (k', _) :: _ => (event_id k < event_id k')%N
      end /\ sorted_keys rest
  end.

(** The value a key is mapped to. *)
Fixpoint lookup (events : EventMap cudaEvent_t) (event : Event) : option cudaEvent_t :=
  match events with
  | [] => None
  | (k, v) :: rest => if event_eq k event then Some v else lookup rest event
  end.

End WithCuda.

End PlatformSpec.

(** ** A runtime and platforms to run the code on *)

Module PlatformSamples.
Import Outcomes Platform PlatformRes PlatformSpec.

(** A CUDA runtime that numbers the streams and events it creates: its
    state is the next number. *)
Definition demo_create (cu : nat) : nat * nat := (cu, S cu).

(** A platform with two streams besides the default one, three events
    reserved and two handles given out. *)
Definition demo_platform : PlatformRes.Platform nat nat unit :=
  mkPlatform 2 [0; 7; 8] [20; 21; 22] tt [mkStream 0; mkStream 1; mkStream 2].

(** A map with the events 1 and 4. *)
Definition demo_events : EventMap nat := [(mkEvent 1, 21); (mkEvent 4, 24)].

End PlatformSamples.

(** ** Properties of the comparison operators *)

Module OrderSpec.

(** Of [a < b], [a == b] and [b < a] exactly one holds. *)
Definition exactly_one (lt_ab eq_ab lt_ba : bool) : Prop :=
  (lt_ab = true /\ eq_ab = false /\ lt_ba = false) \/
  (lt_ab = false /\ eq_ab = true /\ lt_ba = false) \/
  (lt_ab = false /\ eq_ab = false /\ lt_ba = true).

(** [lt] and [eq] order and identify the values of a class the way a key
    of [std::set] or [std::map] needs it. *)
Definition total_order {A : Type} (lt eq : A -> A -> bool) : Prop :=
  forall a b, exactly_one (lt a b) (eq a b) (lt b a).

(** A trace of the CUDA calls made: the runtime state of the samples. *)
Inductive CudaCall : Type :=
| EventRecord (event stream : nat)
| StreamWaitEvent (stream event : nat).

Definition demo_cudaEventRecord (event stream : nat) (cu : list CudaCall)
  : list CudaCall :=
  cu ++ [EventRecord event stream].

Definition demo_cudaStreamWaitEvent (stream event : nat) (cu : list CudaCall)
  : list CudaCall :=
  cu ++ [StreamWaitEvent stream event].

End OrderSpec.

(** ** Properties of the search tree *)

Module TreeSpec.
Import Outcomes Graphs GraphSpec.

(** [x] is a successor of an op of [path]. *)
Definition succ_of_path (g : Graph) (path : list Op) (x : Op) : Prop :=
  exists op ss, In op path /\ find_key (succs_ g) op = Some ss /\ In x ss.

(** [x] may come next after [path]: it is a successor of an op of the
    path, it is not on the path, and all its predecessors are. *)
Definition next_op (g : Graph) (path : list Op) (x : Op) : Prop :=
  succ_of_path g path x /\ ~ In x path /\ ready g path x = true.

(** The ops of [l], each at its first occurrence only. *)
Definition first_occurrences (l : list Op) : list Op :=
  fold_left MctsNode.push_unique l [].

(** Every op of [rest] has an entry in [preds_], and all its predecessors
    are on [path] or earlier in [rest]. *)
Definition after_preds (g : Graph) (path rest : list Op) : Prop :=
  forall i x, nth_error rest i = Some x ->
  exists ps, find_key (preds_ g) x = Some ps /\
             forall p, In p ps -> In p (path ++ firstn i rest).





(** The ops [succs_] lists as successors: the set of every key, one
    after the other. *)
Definition listed_successors (g : Graph) : list Op :=
  flat_map (fun k => match find_key (succs_ g) k with
                     | Some ss => ss
                     | None => []
                     end)
           (map fst (succs_ g)).

(** What the loops of [get_simulation_order] keep whatever the graph: the
    frontier repeats no op, holds no op of the path, and holds ops only
    whose predecessors are all on the path. *)
Record frontier_safe (g : Graph) (path frontier : list Op) : Prop := mkFrontierSafe
  { fs_nodup : NoDup frontier;
    fs_fresh : forall x, In x frontier -> ~ In x path;
    fs_ready : forall x, In x frontier -> ready g path x = true }.

Section WithState.

Variable State : Type.

(** The flags of a subtree are sound: a node marked fully visited is
    expanded and all its children are marked fully visited, a node that
    is not expanded has no children, and so on below. *)
Fixpoint flags_sound (nd : MctsNode.Node State) : bool :=
  match nd with
  | MctsNode.mkNode _ children expanded fullyVisited _ _ =>
      implb fullyVisited
            (expanded && forallb (@MctsNode.fullyVisited_ State) children)
      && (expanded || match children with [] => true | _ :: _ => false end)
      && forallb flags_sound children
  end.

(** The visits of the nodes of a list, added up (without wrap-around). *)
Definition visits (children : list (MctsNode.Node State)) : N :=
  fold_right (fun c acc => (MctsNode.n_ c + acc)%N) 0%N children.

(** The counts of a subtree add up: the children of a node were visited
    no more often than the node, and so on below. *)
Fixpoint counts_ok (nd : MctsNode.Node State) : bool :=
  match nd with
  | MctsNode.mkNode _ children _ _ n _ =>
      (visits children <=? n)%N && forallb counts_ok children
  end.

(** What [backprop] leaves to do above a node it has counted [n] visits
    for: next to each parent up to the root, subtrees whose counts add
    up, visited with the node no more often than the parent once the
    parent is counted, without wrap-around. *)
Fixpoint counts_above (n : N) (up : list (MctsNode.Frame State)) : Prop :=
  match up with
  | [] => True
  | f :: up' =>
      forallb counts_ok (MctsNode.fr_left f ++ MctsNode.fr_right f) = true /\
      (visits (MctsNode.fr_left f) + n + visits (MctsNode.fr_right f)
         <= MctsNode.fr_n f + 1)%N /\
      (MctsNode.fr_n f + 1 < MctsNode.size_max)%N /\
      counts_above (MctsNode.fr_n f + 1) up'
  end.

End WithState.

Section WithDouble.

Variable double : Type.

(** The nodes from a node of [mcts.cpp] up to the root. *)
Fixpoint path_nodes (this : Mcts.Node double) (up : list (Mcts.Frame double))
  : list (Mcts.Node double) :=
  match up with
  | [] => [this]
  | f :: up' => this :: path_nodes (Mcts.plug f this) up'
  end.

End WithDouble.

(** Insertion sort, a [std::sort] for the samples. *)
Fixpoint insert_sorted (x : nat) (l : list nat) : list nat :=
  match l with
  | [] => [x]
  | y :: t => if Nat.leb x y then x :: y :: t else y :: insert_sorted x t
  end.

Definition demo_sort (l : list nat) : list nat := fold_right insert_sorted [] l.

End TreeSpec.

(** ** Nodes to run the code on *)

Module TreeSamples.
Import Outcomes Graphs.

(** In the tree over the diamond, the node for [b], below the node for
    [a], below the root: the frames of the templated node ... *)
Definition diamond_up : list (MctsNode.Frame (list nat)) :=
  [MctsNode.mkFrame 1 [] [] true false 0 [];
   MctsNode.mkFrame 0 [] [MctsNode.new_Node [] 2] true false 0 []].

(** ... and those of the node of [mcts.cpp]. *)
Definition diamond_up0 : list (Mcts.Frame nat) :=
  [Mcts.mkFrame 1 [] [] [] true;
   Mcts.mkFrame 0 [] [Mcts.new_Node nat 2] [] true].

(** A graph with a cycle: [0 -> 1 -> 2 -> 1] and [0 -> 3]. *)
Definition looped : Graph :=
  mkGraph 0 [(0, [1; 3]); (1, [2]); (2, [1]); (3, [])]
            [(0, []); (1, [0; 2]); (2, [1]); (3, [0])].

End TreeSamples.

(** ** Comparison operators of the bound operations *)

Module OpsCudaFacts.
Import Platform OpsCuda.

Lemma stream_eq_true (a b : Stream) : stream_eq a b = true <-> a = b.
Proof.
  destruct a as [x], b as [y]; unfold stream_eq; simpl.
  rewrite N.eqb_eq. split; [intros ->; reflexivity | intros H; injection H; auto].
Qed.

Lemma event_eq_true (a b : Event) : event_eq a b = true <-> a = b.
Proof.
  destruct a as [x], b as [y]; unfold event_eq; simpl.
  rewrite N.eqb_eq. split; [intros ->; reflexivity | intros H; injection H; auto].
Qed.

(** Two event records built by the constructor compare equal whatever
    their event and stream. *)
Lemma CudaEventRecord_eq_anon (e1 e2 : Event) (s1 s2 : Stream) :
  CudaEventRecord_eq (new_CudaEventRecord e1 s1) (new_CudaEventRecord e2 s2) = true.
Proof. reflexivity. Qed.

(** Any two stream synchronisations compare equal, whatever their
    streams. *)
Lemma StreamSync_eq_always (a b : StreamSync) : StreamSync_eq a b = true.
Proof. reflexivity. Qed.

Lemma StreamSync_eq_other_stream :
  StreamSync_eq (new_StreamSync (mkStream 1)) (new_StreamSync (mkStream 2)) = true /\
  ss_stream (new_StreamSync (mkStream 1)) <> ss_stream (new_StreamSync (mkStream 2)).
Proof. split; [reflexivity|discriminate]. Qed.

(** C6, as stated, fails: two [CudaEventRecord]s that differ in both the
    event and the stream compare equal under [operator==]. *)
Lemma CudaEventRecord_eq_ignores_fields :
  let a := new_CudaEventRecord (mkEvent 0) (mkStream 1) in
  let b := new_CudaEventRecord (mkEvent 1) (mkStream 2) in
  CudaEventRecord_eq a b = true /\
  er_event a <> er_event b /\ er_stream a <> er_stream b.
Proof.
  cbv zeta. split; [reflexivity | split; discriminate].
Qed.

Lemma BoundGpuOp_eq_true (GpuOp : Type) (gpu_eq : GpuOp -> GpuOp -> bool)
  (a b : BoundGpuOp GpuOp) :
  BoundGpuOp_eq gpu_eq a b = true <->
  bg_stream a = bg_stream b /\ gpu_eq (bg_op a) (bg_op b) = true.
Proof.
  unfold BoundGpuOp_eq. rewrite andb_true_iff, stream_eq_true. reflexivity.
Qed.

(** C6 (amended): two [BoundGpuOp]s are equal iff they have the same
    stream and their underlying [GpuOp]s are equal; two values of one of
    the variants [StreamWait], [CudaEventRecord], [CudaStreamWaitEvent],
    [CudaEventSync] are equal iff their names are equal, their stream and
    event fields are not consulted. *)
Theorem bound_op_equality (GpuOp : Type) (gpu_eq : GpuOp -> GpuOp -> bool) :
  (forall a b : BoundGpuOp GpuOp,
     BoundGpuOp_eq gpu_eq a b = true <->
     bg_stream a = bg_stream b /\ gpu_eq (bg_op a) (bg_op b) = true) /\
  (forall a b, StreamWait_eq a b = true <-> sw_name a = sw_name b) /\
  (forall a b, CudaEventRecord_eq a b = true <-> er_name a = er_name b) /\
  (forall a b, CudaStreamWaitEvent_eq a b = true <-> swe_name a = swe_name b) /\
  (forall a b, CudaEventSync_eq a b = true <-> es_name a = es_name b).
Proof.
  split; [apply BoundGpuOp_eq_true|].
  split; [|split; [|split]]; intros a b;
    unfold StreamWait_eq, CudaEventRecord_eq, CudaStreamWaitEvent_eq,
      CudaEventSync_eq; apply String.eqb_eq.
Qed.

End OpsCudaFacts.

Unset Implicit Arguments.

(** ** Facts about the containers *)

Module GraphFacts.
Import Outcomes Graphs.

Lemma found_In (x : Op) (v : list Op) : found x v = true <-> In x v.
Proof.
  induction v as [|y t IH]; simpl.
  - split; [discriminate | tauto].
  - rewrite orb_true_iff, Nat.eqb_eq, IH. tauto.
Qed.

Lemma found_false (x : Op) (v : list Op) : found x v = false <-> ~ In x v.
Proof.
  rewrite <- found_In. destruct (found x v); split; congruence.
Qed.

Lemma found_app (x : Op) (u v : list Op) :
  found x (u ++ v) = found x u || found x v.
Proof.
  induction u as [|y t IH]; simpl; [reflexivity|].
  rewrite IH, orb_assoc. reflexivity.
Qed.

Lemma at_Ok (m : OpMap) (k : Op) (v : list Op) :
  at_ m k = Ok v <-> find_key m k = Some v.
Proof.
  unfold at_. destruct (find_key m k); split; congruence.
Qed.

Lemma erase_at_length (i : nat) (v : list Op) :
  i < List.length v -> List.length (erase_at i v) = pred (List.length v).
Proof.
  revert i; induction v as [|y t IH]; intros i Hi; simpl in *; [lia|].
  destruct i as [|j]; [reflexivity|].
  simpl. rewrite IH by lia. destruct t; simpl in *; lia.
Qed.

Lemma erase_at_In (i : nat) (v : list Op) (x : Op) :
  In x (erase_at i v) -> In x v.
Proof.
  revert i; induction v as [|y t IH]; intros i; destruct i as [|j]; simpl;
    try tauto.
  intros [H|H]; [tauto | right; eapply IH; eassumption].
Qed.

(** Erasing position [i] of a duplicate-free vector removes exactly the
    element stored there. *)
Lemma erase_at_NoDup_In (i : nat) (v : list Op) (x : Op) :
  NoDup v -> i < List.length v ->
  (In x (erase_at i v) <-> In x v /\ x <> nth i v 0).
Proof.
  revert i; induction v as [|y t IH]; intros i Hnd Hi; simpl in *; [lia|].
  inversion Hnd as [|? ? Hy Ht]; subst.
  destruct i as [|j]; simpl.
  - split.
    + intros H. split; [tauto|]. intros ->. contradiction.
    + intros [[H|H] Hne]; [congruence | assumption].
  - rewrite IH by (assumption || lia).
    assert (Hnth : In (nth j t 0) t) by (apply nth_In; lia).
    split.
    + intros [H|[H Hne]]; [|tauto].
      subst x. split; [tauto|]. intros E. rewrite E in Hy. contradiction.
    + intros [[H|H] Hne]; tauto.
Qed.

Lemma erase_at_NoDup (i : nat) (v : list Op) : NoDup v -> NoDup (erase_at i v).
Proof.
  revert i; induction v as [|y t IH]; intros i Hnd;
    [destruct i; simpl; constructor|].
  inversion Hnd as [|? ? Hy Ht]; subst.
  destruct i as [|j]; simpl; [assumption|].
  constructor; [|apply IH; assumption].
  intros H. apply erase_at_In in H. contradiction.
Qed.

End GraphFacts.

(** ** The frontier [expand] makes children from *)

Module ExpandFacts.
Import Outcomes Graphs GraphFacts MctsNode GraphSpec.


Lemma some_pred_missing_false (path ps : list Op) :
  some_pred_missing path ps = false <-> forall p, In p ps -> In p path.
Proof.
  unfold some_pred_missing. split.
  - intros H p Hp. apply found_In.
    destruct (found p path) eqn:E; [reflexivity|].
    assert (existsb (fun pred => negb (found pred path)) ps = true).
    { apply existsb_exists. exists p. rewrite E. auto. }
    congruence.
  - intros H. destruct (existsb _ ps) eqn:E; [|reflexivity].
    apply existsb_exists in E. destruct E as (p & Hp & Hn).
    apply H, found_In in Hp. rewrite Hp in Hn. discriminate.
Qed.

Lemma ready_spec (g : Graph) (path : list Op) (x : Op) :
  ready g path x = true <->
  exists ps, find_key (preds_ g) x = Some ps /\ forall p, In p ps -> In p path.
Proof.
  unfold ready. destruct (find_key (preds_ g) x) as [ps|].
  - rewrite negb_true_iff, some_pred_missing_false. split.
    + intros H. exists ps. auto.
    + intros (ps' & E & H). injection E as <-. exact H.
  - split; [discriminate|]. intros (ps & E & _). discriminate.
Qed.

Lemma push_unique_In (fr : list Op) (c x : Op) :
  In x (push_unique fr c) <-> In x fr \/ x = c.
Proof.
  unfold push_unique. destruct (found c fr) eqn:E.
  - apply found_In in E. split; [tauto|]. intros [H| ->]; assumption.
  - rewrite in_app_iff. simpl. intuition congruence.
Qed.

Lemma push_unique_NoDup (fr : list Op) (c : Op) :
  NoDup fr -> NoDup (push_unique fr c).
Proof.
  intros H. unfold push_unique. destruct (found c fr) eqn:E; [exact H|].
  apply found_false in E.
  apply NoDup_app; [exact H | constructor; [simpl; tauto | constructor] |].
  intros a Ha [<-|[]]. contradiction.
Qed.

Lemma fold_push_unique_In (ss fr : list Op) (x : Op) :
  In x (fold_left push_unique ss fr) <-> In x fr \/ In x ss.
Proof.
  revert fr. induction ss as [|c ss IH]; intros fr; simpl; [tauto|].
  rewrite IH, push_unique_In. intuition congruence.
Qed.

Lemma fold_push_unique_NoDup (ss fr : list Op) :
  NoDup fr -> NoDup (fold_left push_unique ss fr).
Proof.
  revert fr. induction ss as [|c ss IH]; intros fr H; simpl; [exact H|].
  apply IH, push_unique_NoDup, H.
Qed.

(** The gathered list holds what it held plus the successors of the path. *)
Lemma gather_succs_ok (g : Graph) (path acc : list Op) :
  (forall op, In op path -> find_key (succs_ g) op <> None) ->
  exists fr, gather_succs g path acc = Ok fr /\
    (NoDup acc -> NoDup fr) /\
    forall x, In x fr <->
      In x acc \/ exists op ss, In op path /\ find_key (succs_ g) op = Some ss /\ In x ss.
Proof.
  revert acc. induction path as [|op rest IH]; intros acc Hk; simpl.
  - exists acc. split; [reflexivity|]. split; [auto|].
    intros x. split; [tauto|]. intros [H|(op & ss & [] & _)]. exact H.
  - unfold at_. destruct (find_key (succs_ g) op) as [ss|] eqn:E.
    2:{ exfalso. apply (Hk op); simpl; auto. }
    simpl. destruct (IH (fold_left push_unique ss acc)) as (fr & Hfr & Hnd & Hin).
    { intros o Ho. apply Hk. simpl; auto. }
    exists fr. split; [exact Hfr|]. split.
    { intros Ha. apply Hnd, fold_push_unique_NoDup, Ha. }
    intros x. rewrite Hin, fold_push_unique_In. split.
    + intros [[H|H]|(o & ss' & Ho & Es & Hx)].
      * left; exact H.
      * right. exists op, ss. simpl; auto.
      * right. exists o, ss'. simpl; auto.
    + intros [H|(o & ss' & [<-|Ho] & Es & Hx)].
      * left; left; exact H.
      * left; right. congruence.
      * right. exists o, ss'. auto.
Qed.

Lemma erase_all_In (op : Op) (fr : list Op) (x : Op) :
  In x (erase_all op fr) <-> In x fr /\ x <> op.
Proof.
  induction fr as [|y t IH]; simpl; [tauto|].
  destruct (Nat.eqb y op) eqn:E.
  - apply Nat.eqb_eq in E. subst y. rewrite IH. intuition congruence.
  - apply Nat.eqb_neq in E. simpl. rewrite IH. intuition congruence.
Qed.

Lemma erase_all_NoDup (op : Op) (fr : list Op) : NoDup fr -> NoDup (erase_all op fr).
Proof.
  induction fr as [|y t IH]; simpl; intros H; [constructor|].
  inversion H as [|? ? Hy Ht]; subst.
  destruct (Nat.eqb y op); [auto|].
  constructor; [|auto]. rewrite erase_all_In. tauto.
Qed.

Lemma remove_done_In (path fr : list Op) (x : Op) :
  In x (remove_done path fr) <-> In x fr /\ ~ In x path.
Proof.
  unfold remove_done. revert fr. induction path as [|op rest IH]; intros fr; simpl.
  - tauto.
  - rewrite IH, erase_all_In. intuition congruence.
Qed.

Lemma remove_done_NoDup (path fr : list Op) : NoDup fr -> NoDup (remove_done path fr).
Proof.
  unfold remove_done. revert fr. induction path as [|op rest IH]; intros fr H; simpl.
  - exact H.
  - apply IH, erase_all_NoDup, H.
Qed.

(** One round of the pruning loop on a frontier whose ops all have a
    [preds_] entry. *)
Lemma first_unready_spec (g : Graph) (path fr : list Op) :
  (forall x, In x fr -> find_key (preds_ g) x <> None) ->
  (first_unready g path fr = Ok None /\ filter (ready g path) fr = fr) \/
  (exists i, first_unready g path fr = Ok (Some i) /\ i < List.length fr /\
             filter (ready g path) (erase_at i fr) = filter (ready g path) fr).
Proof.
  induction fr as [|x t IH]; intros Hk; simpl.
  - left. auto.
  - unfold at_.
    destruct (find_key (preds_ g) x) as [ps|] eqn:E.
    2:{ exfalso. apply (Hk x); simpl; auto. }
    assert (Hr : ready g path x = negb (some_pred_missing path ps)).
    { unfold ready. rewrite E. reflexivity. }
    rewrite Hr. simpl. destruct (some_pred_missing path ps) eqn:Em; simpl.
    + right. exists 0. split; [reflexivity|]. split; [lia|reflexivity].
    + destruct IH as [[H1 H2]|(i & H1 & H2 & H3)].
      { intros y Hy. apply Hk. simpl; auto. }
      * left. rewrite H1, H2. auto.
      * right. exists (S i). rewrite H1. simpl. split; [reflexivity|].
        split; [lia|]. rewrite Hr. simpl. rewrite H3. reflexivity.
Qed.

(** The pruning loop ends within its budget and keeps exactly the ready
    ops, in order. *)
Lemma prune_unready_filter (g : Graph) (path : list Op) (rounds : nat)
  (fr : list Op) :
  (forall x, In x fr -> find_key (preds_ g) x <> None) ->
  List.length fr < rounds ->
  prune_unready rounds g path fr = Ok (filter (ready g path) fr).
Proof.
  revert fr. induction rounds as [|n IH]; intros fr Hk Hlen; [lia|].
  simpl. destruct (first_unready_spec g path fr Hk) as [[H1 H2]|(i & H1 & H2 & H3)].
  - rewrite H1. simpl. rewrite H2. reflexivity.
  - rewrite H1. simpl. rewrite <- H3. apply IH.
    + intros x Hx. apply Hk. eapply erase_at_In; eassumption.
    + rewrite erase_at_length by assumption. lia.
Qed.

(** The frontier [expand] makes children from: the successors of the ops
    of the path, once each, that are not on the path and have all their
    predecessors on it. *)
Lemma expand_frontier_ok (g : Graph) (path : list Op) :
  graph_closed g ->
  (forall op, In op path -> find_key (succs_ g) op <> None) ->
  exists fr, expand_frontier g path = Ok fr /\ NoDup fr /\
    forall x, In x fr <->
      (exists op ss, In op path /\ find_key (succs_ g) op = Some ss /\ In x ss) /\
      ~ In x path /\ ready g path x = true.
Proof.
  intros Hc Hk. unfold expand_frontier.
  destruct (gather_succs_ok g path [] Hk) as (fr & Hfr & Hnd & Hin).
  rewrite Hfr. cbv beta iota zeta delta [bind].
  assert (Hp : forall x, In x (remove_done path fr) -> find_key (preds_ g) x <> None).
  { intros x Hx. apply remove_done_In in Hx. destruct Hx as [Hx _].
    apply Hin in Hx. destruct Hx as [[]|(op & ss & Ho & Es & Hx)].
    eapply Hc; eassumption. }
  rewrite (prune_unready_filter g path _ _ Hp) by lia.
  eexists. split; [reflexivity|]. split.
  { apply NoDup_filter, remove_done_NoDup, Hnd. constructor. }
  intros x. rewrite filter_In, remove_done_In, Hin. simpl. tauto.
Qed.

End ExpandFacts.

(** ** Facts about [Node<Strategy>] *)

Module MctsNodeFacts.
Import Outcomes Graphs GraphFacts MctsNode GraphSpec NodeSpec Samples ExpandFacts.

Section WithStrategy.

Variable Context : Type.
Variable State : Type.
Variable Time : Type.
Variable times : State -> list Time.
Variable init_state : State.
Variable BenchResult : Type.
Variable Strategy_backprop :
  Context -> Node State -> BenchResult -> Context * State.

Local Abbreviation Node := (Node State).
Local Abbreviation Frame := (Frame State).
Local Abbreviation backprop := (backprop Strategy_backprop).
Local Abbreviation unplayed := (unplayed times).
Local Abbreviation expand := (expand times init_state).
Local Abbreviation generate_children := (generate_children init_state).
Local Abbreviation fully_visited_rule := (fully_visited_rule State).
Local Abbreviation visited_once := (visited_once State).
Local Abbreviation same_own := (same_own State).
Local Abbreviation strategy_states :=
  (strategy_states Context State BenchResult Strategy_backprop).
Local Abbreviation strategy_context :=
  (strategy_context Context State BenchResult Strategy_backprop).

(** *** [backprop] *)

Lemma allChildrenVisited_forallb (cs : list Node) :
  allChildrenVisited cs = forallb (@fullyVisited_ State) cs.
Proof.
  unfold allChildrenVisited.
  assert (H : forall b, fold_left (fun acc child => acc && fullyVisited_ child) cs b
                        = b && forallb (@fullyVisited_ State) cs).
  { induction cs as [|c cs IH]; intros b; simpl.
    - rewrite andb_true_r. reflexivity.
    - rewrite IH, andb_assoc. reflexivity. }
  apply H.
Qed.

Lemma visit_fields (this : Node) :
  op_ (visit this) = op_ this /\ children_ (visit this) = children_ this /\
  expanded_ (visit this) = expanded_ this /\ state_ (visit this) = state_ this /\
  n_ (visit this) = size_incr (n_ this).
Proof. unfold visit; simpl; auto. Qed.

Lemma visit_rule (this : Node) (st : State) :
  fully_visited_rule this (set_state (visit this) st).
Proof.
  unfold fully_visited_rule, set_state, visit; simpl.
  destruct (children_ this) as [|c cs] eqn:Ec.
  - destruct (expanded_ this), (fullyVisited_ this); split; intros H;
      try reflexivity; try discriminate; auto.
    + destruct H as [H|[[_ H]|[H _]]]; congruence.
  - rewrite allChildrenVisited_forallb.
    destruct (forallb (@fullyVisited_ State) (c :: cs)) eqn:Ef.
    + split; [intros _|reflexivity].
      right; right. split; [discriminate|].
      rewrite forallb_forall in Ef. exact Ef.
    + split; [intros H; left; exact H|].
      intros [H|[[H _]|[_ H]]]; [exact H | discriminate |].
      apply forallb_forall in H. congruence.
Qed.

(** The node [backprop] leaves at [this]. *)
Lemma backprop_this (ctx : Context) (this : Node) (up : list Frame)
  (br : BenchResult) :
  fst (snd (fst (backprop ctx this up br)))
  = set_state (visit this) (snd (Strategy_backprop ctx (visit this) br)).
Proof.
  destruct up as [|f up']; simpl.
  - destruct (Strategy_backprop ctx (visit this) br) as [c s]; reflexivity.
  - destruct (Strategy_backprop ctx (visit this) br) as [c s].
    destruct (backprop c _ up' br) as [[c2 [p' u'']] calls]. reflexivity.
Qed.

Lemma plug_reframe (f : Frame) (child parent : Node) :
  children_ parent = fr_left f ++ child :: fr_right f ->
  plug (reframe f parent) child = parent.
Proof.
  intros H. destruct parent; unfold plug, reframe; simpl in *. subst. reflexivity.
Qed.

Lemma path_nodes_same_own (up : list Frame) (a b : Node) :
  same_own a b -> Forall2 same_own (path_nodes a up) (path_nodes b up).
Proof.
  revert a b. induction up as [|f up' IH]; intros a b H; simpl.
  - constructor; [exact H|constructor].
  - constructor; [exact H|]. apply IH. unfold same_own, plug; simpl. auto.
Qed.

Lemma Forall2_trans_with {A B : Type} (R : A -> A -> Prop) (P : A -> B -> Prop)
  (l l' : list A) (m : list B) :
  (forall a a' b, R a a' -> P a' b -> P a b) ->
  Forall2 R l l' -> Forall2 P l' m -> Forall2 P l m.
Proof.
  intros HRP H. revert m. induction H as [|a a' l l' Ha Hl IH]; intros m Hm.
  - inversion Hm; constructor.
  - inversion Hm as [|? b ? m' Hb Hm']; subst. constructor; eauto.
Qed.

Lemma visited_once_same_own (a a' b : Node) :
  same_own a a' -> visited_once a' b -> visited_once a b.
Proof.
  intros (Ho & He & Hf & Hn & Hs) (H1 & H2 & H3 & H4).
  unfold visited_once, fully_visited_rule in *.
  rewrite Hn, Ho, He, Hf. auto.
Qed.

(** C4 (amended): one call of [backprop] at a node updates every node
    from it up to the root exactly once: the count grows by one (in
    [size_t]), the flag obeys [fully_visited_rule] (true afterwards iff it
    was true before, or the node is childless and expanded, or the node
    has at least one child and all its children are fully visited),
    [Strategy::backprop] is called once per node, child before parent, on
    the node as counted and flagged, and its state is stored; siblings are
    left alone. *)
Theorem backprop_updates_path (ctx : Context) (this : Node) (up : list Frame)
  (br : BenchResult) :
  let '(ctx', (this', up'), calls) := backprop ctx this up br in
  Forall2 visited_once (path_nodes this up) (path_nodes this' up') /\
  Forall2 (fun new call => call = set_state new (state_ call))
          (path_nodes this' up') calls /\
  Forall2 (fun old call => state_ call = state_ old) (path_nodes this up) calls /\
  map (@state_ State) (path_nodes this' up') = strategy_states ctx calls br /\
  ctx' = strategy_context ctx calls br /\
  Forall2 (fun f f' => fr_left f' = fr_left f /\ fr_right f' = fr_right f) up up'.
Proof.
  revert ctx this. induction up as [|f up' IH]; intros ctx this.
  - simpl. destruct (Strategy_backprop ctx (visit this) br) as [c s] eqn:Es.
    simpl. unfold strategy_context. simpl. rewrite Es. simpl.
    repeat split; try (constructor; [|constructor]); auto.
    unfold visited_once. simpl. repeat split; auto; apply (visit_rule this s).
  - simpl. destruct (Strategy_backprop ctx (visit this) br) as [c s] eqn:Es.
    set (this2 := set_state (visit this) s).
    specialize (IH c (plug f this2)).
    pose proof (backprop_this c (plug f this2) up' br) as Hp.
    destruct (backprop c (plug f this2) up' br) as [[c2 [p' u'']] calls] eqn:Eb.
    simpl in Hp.
    destruct IH as (IH1 & IH2 & IH3 & IH4 & IH5 & IH6).
    assert (Hplug : plug (reframe f p') this2 = p').
    { apply plug_reframe. rewrite Hp. reflexivity. }
    assert (Hsame : Forall2 same_own (path_nodes (plug f this) up')
                            (path_nodes (plug f this2) up')).
    { apply path_nodes_same_own. unfold same_own, plug; simpl. auto. }
    simpl. rewrite Hplug. unfold strategy_context in *. simpl. rewrite Es. simpl.
    split; [|split; [|split; [|split; [|split]]]].
    + constructor.
      * unfold visited_once. simpl. repeat split; auto; apply (visit_rule this s).
      * eapply Forall2_trans_with; [|exact Hsame|exact IH1].
        apply visited_once_same_own.
    + constructor; [reflexivity|exact IH2].
    + constructor; [reflexivity|].
      eapply Forall2_trans_with; [|exact Hsame|exact IH3].
      intros a a' b (_ & _ & _ & _ & Hs) Hb. congruence.
    + f_equal. exact IH4.
    + exact IH5.
    + constructor; [simpl; auto|exact IH6].
Qed.

(** *** [expand] *)

(** For a node that counts its playouts in [n_] as it records their
    times, having no time recorded is having no playout. *)
Lemma unplayed_no_playout (c : Node) :
  n_ c = N.of_nat (List.length (times (state_ c))) ->
  (unplayed c = true <-> n_ c = 0%N).
Proof.
  intros H. unfold MctsNode.unplayed. rewrite H.
  destruct (times (state_ c)); simpl; split; intros E;
    try reflexivity; try discriminate; lia.
Qed.

Lemma first_unplayed_spec (before cs : list Node) :
  match first_unplayed times before cs with
  | None => Forall (fun c => unplayed c = false) cs
  | Some (b, c, a) =>
      exists l, b = before ++ l /\ cs = l ++ c :: a /\
                Forall (fun c => unplayed c = false) l /\ unplayed c = true
  end.
Proof.
  revert before. induction cs as [|c cs IH]; intros before; simpl.
  - constructor.
  - destruct (MctsNode.unplayed times c) eqn:E.
    + exists []. rewrite app_nil_r. simpl. auto.
    + specialize (IH (before ++ [c])).
      destruct (first_unplayed times (before ++ [c]) cs) as [[[b c'] a]|].
      * destruct IH as (l & Hb & Hcs & Hl & Hc).
        exists (c :: l). rewrite Hb, <- app_assoc. simpl. subst cs.
        repeat split; auto.
      * constructor; assumption.
Qed.

(** C5: on a closed graph whose maps know the ops of the path, child
    generation succeeds; with no child [expand] returns the node itself;
    with children it returns the first child that has no playout recorded
    ([state_.times] empty), all children before it having one; it throws
    "unreachable" iff there are children and each of them has a playout
    recorded, and fails in no other case. *)
Theorem expand_first_unplayed (g : Graph) (this : Node) (up : list Frame) :
  graph_closed g ->
  (forall op, In op (path_to_root this up) -> find_key (succs_ g) op <> None) ->
  exists this',
    generate_children g this up = Ok this' /\
    (children_ this' = [] -> expand g (this, up) = Ok (this', up)) /\
    (children_ this' <> [] ->
       (Forall (fun c => unplayed c = false) (children_ this') /\
        expand g (this, up) = Throw "unreachable") \/
       (exists before child after,
          children_ this' = before ++ child :: after /\
          Forall (fun c => unplayed c = false) before /\
          unplayed child = true /\
          expand g (this, up)
          = Ok (child, frame_around this' before after :: up))) /\
    (is_ok (expand g (this, up)) = false <->
       children_ this' <> [] /\
       Forall (fun c => unplayed c = false) (children_ this')).
Proof.
  intros Hc Hk.
  assert (Hgen : exists this', generate_children g this up = Ok this').
  { unfold generate_children, MctsNode.generate_children.
    destruct (expanded_ this); [eexists; reflexivity|].
    destruct (expand_frontier_ok g _ Hc Hk) as (fr & Hfr & _).
    rewrite Hfr. simpl. eexists; reflexivity. }
  destruct Hgen as (this' & Hgen). exists this'.
  split; [exact Hgen|].
  unfold expand, MctsNode.expand. fold generate_children. rewrite Hgen. simpl.
  pose proof (first_unplayed_spec [] (children_ this')) as Hf.
  destruct (children_ this') as [|c cs] eqn:Ecs.
  - split; [reflexivity|]. split; [congruence|].
    simpl. split; [discriminate|]. intros [H _]. congruence.
  - split; [discriminate|].
    destruct (first_unplayed times [] (c :: cs)) as [[[b c'] a]|] eqn:Ef.
    + destruct Hf as (l & Hb & Hcs & Hl & Hu). simpl in Hb. subst l.
      split.
      * intros _. right. exists b, c', a. auto.
      * simpl. split; [discriminate|]. intros [_ Hall].
        rewrite Hcs in Hall. apply Forall_app in Hall. destruct Hall as [_ Hall].
        inversion Hall; subst. congruence.
    + split.
      * intros _. left. auto.
      * simpl. split; [intros _; split; [discriminate|exact Hf]|reflexivity].
Qed.

(** *** Childless nodes *)

Lemma generate_children_expanded (g : Graph) (this this' : Node) (up : list Frame) :
  generate_children g this up = Ok this' -> expanded_ this' = true.
Proof.
  unfold generate_children, MctsNode.generate_children.
  destruct (expanded_ this) eqn:E.
  - intros H. injection H as <-. exact E.
  - destruct (expand_frontier g (path_to_root this up)); simpl; try discriminate.
    intros H. injection H as <-. reflexivity.
Qed.

(** C9 (amended): a backprop that visits a childless node sets its
    [fullyVisited_] flag only once the node has been expanded.  When
    [expand] has generated no child for a node it returns the node itself,
    and the backprop that follows sets the flag; a backprop that visits a
    childless node not yet expanded, as the first one after the node was
    created does, leaves the flag as it was. *)
Theorem childless_node_fully_visited (g : Graph) (ctx : Context) (this : Node)
  (up : list Frame) (br : BenchResult) :
  (forall this', generate_children g this up = Ok this' ->
     children_ this' = [] ->
     expand g (this, up) = Ok (this', up) /\
     fullyVisited_ (fst (snd (fst (backprop ctx this' up br)))) = true) /\
  (children_ this = [] -> expanded_ this = false ->
     fullyVisited_ (fst (snd (fst (backprop ctx this up br)))) = fullyVisited_ this).
Proof.
  split.
  - intros this' Hgen Hcs. split.
    + unfold expand, MctsNode.expand. fold generate_children.
      rewrite Hgen. simpl. rewrite Hcs. reflexivity.
    + rewrite backprop_this. unfold set_state, visit. simpl.
      rewrite Hcs, (generate_children_expanded g this this' up Hgen). reflexivity.
  - intros Hcs He. rewrite backprop_this. unfold set_state, visit. simpl.
    rewrite Hcs, He. reflexivity.
Qed.

End WithStrategy.

Lemma find_key_In (m : OpMap) (k : Op) (v : list Op) :
  find_key m k = Some v -> In (k, v) m.
Proof.
  induction m as [|[k' v'] m IH]; simpl; [discriminate|].
  destruct (Nat.eqb k' k) eqn:E.
  - apply Nat.eqb_eq in E. intros H. injection H as <-. left. congruence.
  - intros H. right. apply IH, H.
Qed.

Lemma graph_closedb_sound (g : Graph) : graph_closedb g = true -> graph_closed g.
Proof.
  unfold graph_closedb, graph_closed. intros H u ss Hu v Hv.
  rewrite forallb_forall in H. specialize (H _ (find_key_In _ _ _ Hu)).
  simpl in H. rewrite forallb_forall in H. specialize (H _ Hv).
  apply andb_true_iff in H. destruct H as [H1 H2].
  split; intros E; rewrite E in *; discriminate.
Qed.

(** C4, as stated, fails on a node that was just created: it has no
    child, so all its children are fully visited, and it is not expanded;
    backprop leaves [fullyVisited_] false. *)
Lemma backprop_fresh_node_flag :
  let this := new_Node [] 1 in
  let this' := fst (snd (fst (backprop record_time tt this [] 5))) in
  (forall c, In c (children_ this') -> fullyVisited_ c = true) /\
  n_ this' = 1%N /\
  fullyVisited_ this' = false.
Proof.
  cbv zeta. split; [intros c []|]. split; reflexivity.
Qed.

Lemma expand_first_unplayed_witness :
  exists this',
    generate_children (@nil nat) fork (new_Node [] 0) [] = Ok this' /\
    (is_ok (expand recorded [] fork (new_Node [] 0, [])) = false <->
       children_ this' <> [] /\
       Forall (fun c => unplayed recorded c = false) (children_ this')).
Proof.
  destruct (expand_first_unplayed (list nat) nat recorded [] fork
              (new_Node [] 0) [])
    as (this' & H1 & _ & _ & H4).
  - apply graph_closedb_sound. reflexivity.
  - intros op [<-|[]]. discriminate.
  - exists this'. split; assumption.
Defined.

(** C9, as stated, fails on [fork]: the first expansion of the root
    returns the child for [a], a terminal node; the first backprop that
    visits it leaves [fullyVisited_] false; and when that node is expanded
    in its turn it gets a child, for [b], although its op has no
    successor. *)
Lemma terminal_node_first_backprop :
  let root := new_Node (@nil nat) 0 in
  exists this up ctx' this' up' calls child up'',
    expand recorded [] fork (root, []) = Ok (this, up) /\
    is_terminal fork this = Ok true /\
    backprop record_time tt this up 5 = (ctx', (this', up'), calls) /\
    fullyVisited_ this' = false /\
    is_terminal fork this' = Ok true /\
    expand recorded [] fork (this', up') = Ok (child, up'') /\
    op_ child = 2 /\
    map (@fr_op (list nat)) up'' = [1; 0].
Proof.
  cbv zeta. do 8 eexists.
  repeat split; try (vm_compute; reflexivity).
Qed.

Lemma childless_node_fully_visited_witness :
  let this := new_Node (@nil nat) 2 in
  let up := [mkFrame 1 [] [] true false 1%N [5];
             mkFrame 0 [] [] true false 1%N [5]] in
  exists this',
    expand recorded [] chain (this, up) = Ok (this', up) /\
    fullyVisited_ (fst (snd (fst (backprop record_time tt this' up 7)))) = true /\
    fullyVisited_ (fst (snd (fst (backprop record_time tt this up 7)))) = false.
Proof.
  cbv zeta.
  destruct (childless_node_fully_visited unit (list nat) nat recorded []
              nat record_time chain tt (new_Node [] 2)
              [mkFrame 1 [] [] true false 1%N [5];
               mkFrame 0 [] [] true false 1%N [5]] 7) as [H1 H2].
  eexists. split; [|split].
  - apply H1; reflexivity.
  - apply H1; reflexivity.
  - apply H2; reflexivity.
Defined.

End MctsNodeFacts.

(** ** Playouts: [get_simulation_order] *)

Module SimulationFacts.
Import Outcomes Graphs GraphFacts MctsNode GraphSpec ExpandFacts MctsNodeFacts.

Section OnGraph.

Variable g : Graph.

Hypothesis Hg : graph_invariants g.

Lemma reachable_vertex (v : Op) : reachable g v -> vertex g v.
Proof.
  intros H. destruct H as [|u v Huv Hu].
  - apply (gi_start g Hg).
  - destruct Huv as (ss & Es & Hv). apply (gi_closed g Hg u ss Es v Hv).
Qed.

Lemma reachable_step (u v : Op) : reachable g u -> edge g u v -> reachable g v.
Proof.
  intros Hu Huv. unfold reachable.
  eapply Relation_Operators.rtn1_trans; eassumption.
Qed.

Lemma edge_has_preds (u v : Op) : edge g u v -> find_key (preds_ g) v <> None.
Proof.
  intros (ss & Es & Hv). apply (gi_closed g Hg u ss Es v Hv).
Qed.

Lemma ready_mono (path : list Op) (op x : Op) :
  ready g path x = true -> ready g (path ++ [op]) x = true.
Proof.
  rewrite !ready_spec. intros (ps & E & H). exists ps. split; [exact E|].
  intros p Hp. apply in_or_app. left. auto.
Qed.

(** *** The pushes *)

Lemma push_ready_spec (path fr : list Op) (child : Op) :
  find_key (preds_ g) child <> None ->
  push_ready g path fr child
  = Ok (if negb (found child fr) && negb (found child path) && ready g path child
        then fr ++ [child] else fr).
Proof.
  intros Hk. unfold push_ready, at_, ready.
  destruct (find_key (preds_ g) child) as [ps|]; [reflexivity|congruence].
Qed.

Lemma push_ready_all_spec (path ss fr : list Op) :
  (forall c, In c ss -> find_key (preds_ g) c <> None) ->
  exists news,
    push_ready_all g path fr ss = Ok (fr ++ news) /\
    (NoDup fr -> NoDup (fr ++ news)) /\
    forall x, In x news <->
      In x ss /\ ~ In x fr /\ ~ In x path /\ ready g path x = true.
Proof.
  revert fr. induction ss as [|c ss IH]; intros fr Hk.
  - exists []. simpl. rewrite app_nil_r. split; [reflexivity|].
    split; [auto|]. intros x. tauto.
  - simpl. rewrite push_ready_spec by (apply Hk; simpl; auto). simpl.
    destruct (found c fr) eqn:Ef; simpl.
    { destruct (IH fr) as (news & H1 & H2 & H3).
      { intros c' Hc'. apply Hk. simpl; auto. }
      exists news. split; [exact H1|]. split; [exact H2|].
      intros x. rewrite H3. apply found_In in Ef.
      split; [tauto|]. intros [[<-|H] H']; tauto. }
    destruct (found c path) eqn:Ep; simpl.
    { destruct (IH fr) as (news & H1 & H2 & H3).
      { intros c' Hc'. apply Hk. simpl; auto. }
      exists news. split; [exact H1|]. split; [exact H2|].
      intros x. rewrite H3. apply found_In in Ep.
      split; [tauto|]. intros [[<-|H] H']; tauto. }
    destruct (ready g path c) eqn:Er; simpl.
    2:{ destruct (IH fr) as (news & H1 & H2 & H3).
        { intros c' Hc'. apply Hk. simpl; auto. }
        exists news. split; [exact H1|]. split; [exact H2|].
        intros x. rewrite H3.
        split; [tauto|]. intros [[<-|H] H']; [|tauto].
        destruct H' as (_ & _ & H'). congruence. }
    apply found_false in Ef. apply found_false in Ep.
    destruct (IH (fr ++ [c])) as (news & H1 & H2 & H3).
    { intros c' Hc'. apply Hk. simpl; auto. }
    exists (c :: news). rewrite <- app_assoc in H1, H2. simpl in H1, H2.
    split; [exact H1|]. split.
    { intros Hnd. apply H2. apply NoDup_app; [exact Hnd| |].
      - constructor; [simpl; tauto|constructor].
      - intros a Ha [<-|[]]. contradiction. }
    intros x. simpl. rewrite H3, in_app_iff. simpl.
    destruct (Nat.eq_dec c x) as [<-|Hne].
    + split; [intros _|tauto]. tauto.
    + split.
      * intros [H|H]; [congruence|]. tauto.
      * intros (H & H'). destruct H as [H|H]; [congruence|].
        right. tauto.
Qed.

Lemma initial_frontier_spec (path todo fr : list Op) :
  (forall op, In op todo -> reachable g op) ->
  exists fr',
    initial_frontier g path todo fr = Ok fr' /\
    (NoDup fr -> NoDup fr') /\
    forall x, In x fr' <->
      In x fr \/
      ((exists op, In op todo /\ edge g op x) /\ ~ In x path /\ ready g path x = true).
Proof.
  revert fr. induction todo as [|op rest IH]; intros fr Hr; simpl.
  - exists fr. split; [reflexivity|]. split; [auto|].
    intros x. split; [tauto|]. intros [H|((op & [] & _) & _)]. exact H.
  - assert (Hv : vertex g op) by (apply reachable_vertex, Hr; simpl; auto).
    unfold vertex in Hv. unfold at_.
    destruct (find_key (succs_ g) op) as [ss|] eqn:Es; [|congruence].
    simpl.
    destruct (push_ready_all_spec path ss fr) as (news & H1 & H2 & H3).
    { intros c Hc. apply (edge_has_preds op). exists ss. auto. }
    rewrite H1. simpl.
    destruct (IH (fr ++ news)) as (fr' & H4 & H5 & H6).
    { intros o Ho. apply Hr. simpl; auto. }
    exists fr'. split; [exact H4|]. split; [auto|].
    intros x. rewrite H6, in_app_iff, H3. split.
    + intros [[H|H]|H].
      * left; exact H.
      * right. split; [|tauto]. exists op. split; [simpl; auto|].
        exists ss. tauto.
      * right. destruct H as ((o & Ho & He) & H). split; [|exact H].
        exists o. simpl; auto.
    + intros [H|((o & [<-|Ho] & He) & Hp & Hrd)].
      * left; left; exact H.
      * destruct He as (ss' & Es' & Hx). rewrite Es in Es'. injection Es' as <-.
        destruct (in_dec Nat.eq_dec x fr) as [Hi|Hi]; [left; left; exact Hi|].
        left; right. tauto.
      * right. split; [|tauto]. exists o. auto.
Qed.

(** *** The loop *)

Lemma preds_before_snoc (path : list Op) (op : Op) :
  preds_before g path ->
  (forall q, pred_of g q op -> In q path) ->
  preds_before g (path ++ [op]).
Proof.
  intros Hp Hop i x Hi q Hq.
  destruct (Nat.lt_ge_cases i (List.length path)) as [Hlt|Hge].
  - rewrite nth_error_app1 in Hi by assumption.
    destruct (Hp i x Hi q Hq) as (j & Hj & Ej).
    exists j. split; [exact Hj|]. rewrite nth_error_app1 by lia. exact Ej.
  - rewrite nth_error_app2 in Hi by assumption.
    destruct (i - List.length path) as [|k] eqn:Ek; simpl in Hi.
    2:{ destruct k; discriminate. }
    injection Hi as <-.
    destruct (In_nth_error path q (Hop q Hq)) as (j & Ej).
    assert (Hj : j < List.length path).
    { apply nth_error_Some. congruence. }
    exists j. split; [lia|]. rewrite nth_error_app1 by assumption. exact Ej.
Qed.

Lemma nth_app_l (fr news : list Op) (ii : nat) :
  ii < List.length fr -> nth ii (fr ++ news) 0 = nth ii fr 0.
Proof. intros H. apply app_nth1, H. Qed.

(** One round of the loop keeps the invariant. *)
Lemma playout_step (path fr news : list Op) (ii : nat) (ss : list Op) :
  playout_inv g path fr ->
  ii < List.length fr ->
  find_key (succs_ g) (nth ii fr 0) = Some ss ->
  NoDup (fr ++ news) ->
  (forall x, In x news <->
     In x ss /\ ~ In x fr /\ ~ In x (path ++ [nth ii fr 0]) /\
     ready g (path ++ [nth ii fr 0]) x = true) ->
  playout_inv g (path ++ [nth ii fr 0]) (erase_at ii (fr ++ news)).
Proof.
  intros [Hnd Hst Hre Hor Hrd Hco] Hii Es Hnd' Hnews.
  set (op := nth ii fr 0) in *.
  assert (Hop : In op fr) by (apply nth_In, Hii).
  assert (Hnth : nth ii (fr ++ news) 0 = op) by (apply nth_app_l, Hii).
  assert (Hlen : ii < List.length (fr ++ news)).
  { rewrite length_app. lia. }
  assert (Hdis : forall x, In x path -> ~ In x fr).
  { intros x Hx Hf. clear - Hnd Hx Hf.
    induction path as [|y t IH]; simpl in *; [tauto|].
    inversion Hnd as [|? ? Hy Ht]; subst. destruct Hx as [<-|Hx].
    - apply Hy, in_or_app. auto.
    - apply IH; assumption. }
  assert (Hopp : ~ In op path) by (intros H; apply (Hdis op H Hop)).
  assert (Hin : forall x, In x (erase_at ii (fr ++ news)) <->
                          (In x fr \/ In x news) /\ x <> op).
  { intros x. rewrite erase_at_NoDup_In by assumption.
    rewrite Hnth, in_app_iff. tauto. }
  constructor.
  - rewrite <- app_assoc. apply NoDup_app.
    + eapply NoDup_app_remove_r, Hnd.
    + apply NoDup_app.
      * constructor; [simpl; tauto|constructor].
      * apply erase_at_NoDup, Hnd'.
      * intros a [<-|[]] H. apply Hin in H. tauto.
    + intros a Ha H. simpl in H. destruct H as [<-|H]; [contradiction|].
      apply Hin in H. destruct H as [[H|H] _].
      * apply (Hdis a Ha H).
      * apply Hnews in H. destruct H as (_ & _ & H & _).
        apply H, in_or_app. auto.
  - apply in_or_app. auto.
  - intros x Hx. rewrite <- app_assoc in Hx. apply in_app_or in Hx.
    destruct Hx as [Hx|[<-|Hx]].
    + apply Hre, in_or_app. auto.
    + apply Hre, in_or_app. auto.
    + apply Hin in Hx. destruct Hx as [[Hx|Hx] _].
      * apply Hre, in_or_app. auto.
      * apply Hnews in Hx. destruct Hx as (Hx & _).
        apply (reachable_step op); [apply Hre, in_or_app; auto|].
        exists ss. auto.
  - apply preds_before_snoc; [exact Hor|].
    intros q (ps & E & Hq). specialize (Hrd op Hop).
    apply ready_spec in Hrd. destruct Hrd as (ps' & E' & H).
    rewrite E in E'. injection E' as <-. auto.
  - intros x Hx. apply Hin in Hx. destruct Hx as [[Hx|Hx] _].
    + apply ready_mono, Hrd, Hx.
    + apply Hnews in Hx. tauto.
  - intros v Hv Hvp Hvr.
    assert (Hvp' : ~ In v path) by (intros H; apply Hvp, in_or_app; auto).
    assert (Hvo : v <> op) by (intros ->; apply Hvp, in_or_app; simpl; auto).
    apply Hin. split; [|exact Hvo].
    destruct (ready g path v) eqn:Er.
    + left. apply Hco; assumption.
    + destruct (in_dec Nat.eq_dec v fr) as [Hf|Hf]; [left; exact Hf|].
      right. apply Hnews. split; [|tauto].
      (* some predecessor of v is op *)
      apply ready_spec in Hvr. destruct Hvr as (ps & E & Hps).
      assert (Hex : In op ps).
      { destruct (in_dec Nat.eq_dec op ps) as [H|H]; [exact H|].
        exfalso. assert (ready g path v = true); [|congruence].
        apply ready_spec. exists ps. split; [exact E|].
        intros p Hp. specialize (Hps p Hp). apply in_app_or in Hps.
        destruct Hps as [Hps|[<-|[]]]; [exact Hps|contradiction]. }
      assert (He : edge g op v).
      { apply (gi_consistent g Hg). exists ps. auto. }
      destruct He as (ss' & Es' & Hv'). congruence.
Qed.

Hypothesis Hrooted : rooted g.

(** With an empty frontier every op reached from [start_] is on the path. *)
Lemma playout_inv_final (path : list Op) :
  playout_inv g path [] -> forall v, reachable g v -> In v path.
Proof.
  intros [Hnd Hst Hre Hor Hrd Hco] v.
  induction (gi_acyclic g Hg v) as [v _ IH]. intros Hv.
  destruct (in_dec Nat.eq_dec v path) as [Hi|Hi]; [exact Hi|].
  exfalso. apply (Hco v Hv Hi). apply ready_spec.
  assert (Hk : find_key (preds_ g) v <> None).
  { destruct Hv as [|u v Huv Hu]; [contradiction|].
    apply (edge_has_preds u), Huv. }
  destruct (find_key (preds_ g) v) as [ps|] eqn:E; [|congruence].
  exists ps. split; [reflexivity|]. intros p Hp.
  assert (Hpv : pred_of g p v) by (exists ps; auto).
  apply IH.
  - apply (gi_consistent g Hg), Hpv.
  - apply (Hrooted p v Hv Hpv).
Qed.

Lemma playout_inv_sorted (path : list Op) :
  playout_inv g path [] -> topological_sort g path.
Proof.
  intros Hinv. pose proof (playout_inv_final path Hinv) as Hall.
  destruct Hinv as [Hnd Hst Hre Hor Hrd Hco]. rewrite app_nil_r in Hnd, Hre.
  split; [|split; assumption].
  intros v Hv. apply NoDup_count_occ'; auto.
Qed.

Lemma vertex_In (v : Op) : vertex g v -> In v (vertices g).
Proof.
  unfold vertex, vertices. intros H.
  destruct (find_key (succs_ g) v) as [ss|] eqn:E; [|congruence].
  apply find_key_In in E. apply (in_map fst) in E. exact E.
Qed.

Lemma playout_inv_length (path frontier : list Op) :
  playout_inv g path frontier ->
  List.length path + List.length frontier <= List.length (vertices g).
Proof.
  intros [Hnd Hst Hre Hor Hrd Hco]. rewrite <- length_app.
  apply NoDup_incl_length; [exact Hnd|].
  intros x Hx. apply vertex_In, reachable_vertex, Hre, Hx.
Qed.

Section WithRand.

Variable RandState : Type.
Variable rand : RandState -> nat * RandState.

Lemma playout_nil (fuel : nat) (rs : RandState) (path : list Op) :
  playout rand fuel g rs path [] = Ok (path, rs).
Proof. destruct fuel; reflexivity. Qed.

Lemma playout_round (fuel : nat) (rs : RandState) (path frontier : list Op) :
  frontier <> [] ->
  playout rand (S fuel) g rs path frontier
  = (let (r, rs') := rand rs in
     let ii := r mod List.length frontier in
     let op := nth ii frontier 0 in
     let path' := path ++ [op] in
     ss <- at_ (succs_ g) op ;;
     frontier' <- push_ready_all g path' frontier ss ;;
     playout rand fuel g rs' path' (erase_at ii frontier')).
Proof. destruct frontier; [intros H; exfalso; apply H; reflexivity|reflexivity]. Qed.

(** The loop ends within [fuel] rounds when [fuel] covers the vertices
    not yet on the path, and leaves a topological sort that extends the
    path. *)
Lemma playout_sorted (fuel : nat) (rs : RandState) (path frontier : list Op) :
  playout_inv g path frontier ->
  List.length (vertices g) <= fuel + List.length path ->
  exists order rs',
    playout rand fuel g rs path frontier = Ok (order, rs') /\
    topological_sort g order /\
    exists rest, order = path ++ rest.
Proof.
  revert rs path frontier.
  induction fuel as [|fuel IH]; intros rs path frontier Hinv Hf;
    (destruct (list_eq_dec Nat.eq_dec frontier []) as [->|Hne];
     [ rewrite playout_nil; exists path, rs; split; [reflexivity|];
       split; [apply playout_inv_sorted, Hinv|];
       exists []; rewrite app_nil_r; reflexivity | ]).
  - pose proof (playout_inv_length path frontier Hinv) as Hl.
    destruct frontier; [exfalso; apply Hne; reflexivity|simpl in *; lia].
  - rewrite playout_round by assumption.
    assert (Hlen : List.length frontier <> 0).
    { destruct frontier; [exfalso; apply Hne; reflexivity|discriminate]. }
    destruct (rand rs) as [r rs'].
    set (ii := r mod List.length frontier).
    assert (Hii : ii < List.length frontier) by (apply Nat.mod_upper_bound, Hlen).
    cbv zeta.
    set (op := nth ii frontier 0).
    assert (Hop : In op frontier) by (apply nth_In, Hii).
    assert (Hopr : reachable g op).
    { apply (inv_reach g _ _ Hinv), in_or_app. auto. }
    pose proof (reachable_vertex op Hopr) as Hv. unfold vertex in Hv.
    unfold at_. destruct (find_key (succs_ g) op) as [ss|] eqn:Es; [|congruence].
    cbn [bind].
    destruct (push_ready_all_spec (path ++ [op]) ss frontier) as (news & H1 & H2 & H3).
    { intros c Hc. apply (edge_has_preds op). exists ss. auto. }
    rewrite H1. cbn [bind].
    assert (Hnd : NoDup frontier).
    { eapply NoDup_app_remove_l, (inv_nodup g _ _ Hinv). }
    pose proof (playout_step path frontier news ii ss Hinv Hii Es (H2 Hnd) H3) as Hinv'.
    fold op in Hinv'.
    destruct (IH rs' (path ++ [op]) (erase_at ii (frontier ++ news)) Hinv')
      as (order & rs'' & Ho & Hs & rest & Hr).
    { rewrite length_app. simpl. lia. }
    exists order, rs''. split; [exact Ho|]. split; [exact Hs|].
    exists (op :: rest). rewrite Hr, <- app_assoc. reflexivity.
Qed.

(** The frontier the playout starts from. *)
Lemma initial_frontier_inv (path : list Op) :
  schedule_prefix g path ->
  exists frontier,
    initial_frontier g path path [] = Ok frontier /\ playout_inv g path frontier.
Proof.
  intros [Hst Hnd Hre Hor].
  destruct (initial_frontier_spec path path [] Hre) as (fr & H1 & H2 & H3).
  exists fr. split; [exact H1|].
  assert (Hs : In (start_ g) path).
  { destruct path as [|x t]; simpl in Hst; [discriminate|].
    injection Hst as ->. simpl; auto. }
  constructor.
  - apply NoDup_app; [exact Hnd|apply H2; constructor|].
    intros a Ha Hf. apply H3 in Hf. destruct Hf as [[]|(_ & Hf & _)]. contradiction.
  - exact Hs.
  - intros x Hx. apply in_app_or in Hx. destruct Hx as [Hx|Hx]; [auto|].
    apply H3 in Hx. destruct Hx as [[]|((op & Ho & He) & _)].
    apply (reachable_step op); auto.
  - exact Hor.
  - intros x Hx. apply H3 in Hx. destruct Hx as [[]|(_ & _ & Hx)]. exact Hx.
  - intros v Hv Hvp Hvr. apply H3. right. split; [|tauto].
    destruct Hv as [|u v Huv Hu]; [contradiction|].
    exists u. split; [|exact Huv].
    apply (gi_consistent g Hg) in Huv. destruct Huv as (ps & E & Hq).
    apply ready_spec in Hvr. destruct Hvr as (ps' & E' & Hps).
    rewrite E in E'. injection E' as <-. auto.
Qed.

End WithRand.

End OnGraph.

End SimulationFacts.

(** ** The two copies of [get_simulation_order] *)

Module PlayoutFacts.
Import Outcomes Graphs GraphFacts GraphSpec Samples ExpandFacts MctsNodeFacts SimulationFacts.

Lemma found_erase_at_other (x : Op) (ii : nat) (fr : list Op) :
  x <> nth ii fr 0 -> found x (erase_at ii fr) = found x fr.
Proof.
  revert ii. induction fr as [|y t IH]; intros ii Hx; destruct ii as [|j]; simpl in *;
    try reflexivity.
  - destruct (Nat.eqb y x) eqn:E; [|reflexivity].
    apply Nat.eqb_eq in E. congruence.
  - rewrite IH by assumption. reflexivity.
Qed.

Lemma erase_at_app (ii : nat) (fr l : list Op) :
  ii < List.length fr -> erase_at ii (fr ++ l) = erase_at ii fr ++ l.
Proof.
  revert ii. induction fr as [|y t IH]; intros ii Hi; simpl in *; [lia|].
  destruct ii as [|j]; [reflexivity|]. simpl. rewrite IH by lia. reflexivity.
Qed.

(** Pushing the successors after the erasure or before it gives the same
    frontier: the erased op is on the path by then, so it is pushed in
    neither case, and no other op is looked up differently. *)
Lemma push_ready_all_erase (g : Graph) (path : list Op) (ii : nat)
  (ss fr : list Op) :
  ii < List.length fr -> In (nth ii fr 0) path ->
  MctsNode.push_ready_all g path (erase_at ii fr) ss
  = (fr' <- MctsNode.push_ready_all g path fr ss ;; Ok (erase_at ii fr')).
Proof.
  revert fr. induction ss as [|c ss IH]; intros fr Hi Hop; simpl; [reflexivity|].
  unfold MctsNode.push_ready, at_.
  destruct (find_key (preds_ g) c) as [ps|]; simpl; [|reflexivity].
  destruct (found c path) eqn:Ep; simpl.
  - rewrite !andb_false_r. simpl. apply IH; assumption.
  - assert (Hne : c <> nth ii fr 0).
    { intros ->. apply found_In in Hop. congruence. }
    rewrite (found_erase_at_other c ii fr Hne), !andb_true_r.
    destruct (negb (found c fr) && negb (MctsNode.some_pred_missing path ps)).
    + rewrite <- erase_at_app by assumption. apply IH.
      * rewrite length_app. lia.
      * rewrite app_nth1 by assumption. exact Hop.
    + apply IH; assumption.
Qed.

(** The loop of [mcts.cpp] and the loop of [mcts_node.hpp] compute the
    same order. *)
Lemma playout_same (RandState : Type) (rand : RandState -> nat * RandState)
  (g : Graph) (fuel : nat) (rs : RandState) (path frontier : list Op) :
  Mcts.playout rand fuel g rs path frontier
  = MctsNode.playout rand fuel g rs path frontier.
Proof.
  revert rs path frontier. induction fuel as [|fuel IH]; intros rs path frontier.
  - destruct frontier; reflexivity.
  - destruct frontier as [|x t] eqn:Efr; [reflexivity|].
    rewrite <- Efr.
    assert (Hlen : List.length frontier <> 0) by (rewrite Efr; discriminate).
    rewrite Efr. cbn [Mcts.playout MctsNode.playout]. rewrite <- Efr.
    destruct (rand rs) as [r rs'].
    set (ii := r mod List.length frontier).
    assert (Hii : ii < List.length frontier) by (apply Nat.mod_upper_bound, Hlen).
    destruct (at_ (succs_ g) (nth ii frontier 0)) as [ss| | |]; simpl; try reflexivity.
    rewrite push_ready_all_erase.
    + destruct (MctsNode.push_ready_all g (path ++ [nth ii frontier 0]) frontier ss);
        simpl; try reflexivity. apply IH.
    + exact Hii.
    + apply in_or_app. simpl. auto.
Qed.

Lemma graph_ops_all (g : Graph) (order : list Op) :
  (forall v, In v order -> vertex g v) -> graph_ops g order = order.
Proof.
  intros H. unfold graph_ops. induction order as [|x t IH]; simpl; [reflexivity|].
  assert (Hx : vertex g x) by (apply H; simpl; auto). unfold vertex in Hx.
  destruct (find_key (succs_ g) x); [|congruence]. simpl.
  rewrite IH; [reflexivity|]. intros v Hv. apply H. simpl; auto.
Qed.

(** *** Paths of the search tree *)

Lemma tree_path_schedule_prefix (g : Graph) (path : list Op) :
  graph_invariants g -> tree_path g path -> schedule_prefix g path.
Proof.
  intros Hg H. induction H as [|path frontier child Hp IH Hf Hc].
  - constructor.
    + reflexivity.
    + constructor; [simpl; tauto|constructor].
    + intros x [<-|[]]. constructor.
    + intros i x Hi q (ps & E & Hq).
      destruct i as [|i]; simpl in Hi; [|destruct i; discriminate].
      injection Hi as <-.
      exfalso. apply (gi_source g Hg q). exists ps. auto.
  - destruct IH as [Hst Hnd Hre Hor].
    assert (Hk : forall op, In op (rev path) -> find_key (succs_ g) op <> None).
    { intros op Ho. apply in_rev in Ho. apply (reachable_vertex g Hg), Hre, Ho. }
    destruct (expand_frontier_ok g (rev path) (gi_closed g Hg) Hk)
      as (fr & Hfr & _ & Hin).
    rewrite Hf in Hfr. injection Hfr as <-.
    apply Hin in Hc. destruct Hc as ((op & ss & Ho & Es & Hx) & Hn & Hr).
    apply in_rev in Ho.
    assert (Hn' : ~ In child path) by (rewrite in_rev; exact Hn).
    constructor.
    + destruct path; simpl in *; [discriminate|exact Hst].
    + apply NoDup_app; [exact Hnd|constructor; [simpl; tauto|constructor]|].
      intros a Ha [<-|[]]. contradiction.
    + intros x Hx'. apply in_app_or in Hx'. destruct Hx' as [Hx'|[<-|[]]]; [auto|].
      apply (reachable_step g op); [auto|]. exists ss. auto.
    + apply preds_before_snoc; [exact Hor|].
      intros q (ps & E & Hq). apply ready_spec in Hr.
      destruct Hr as (ps' & E' & Hps). rewrite E in E'. injection E' as <-.
      apply in_rev, Hps, Hq.
Qed.

(** *** The playout is a topological sort *)

(** From a path that is a [schedule_prefix], and with a budget of one
    round per vertex, both copies of [get_simulation_order] return the
    same order, a topological sort that extends the path. *)
Lemma get_simulation_order_sorted
  (State double RandState : Type) (rand : RandState -> nat * RandState)
  (g : Graph) (this : MctsNode.Node State) (up : list (MctsNode.Frame State))
  (this0 : Mcts.Node double) (up0 : list (Mcts.Frame double))
  (fuel : nat) (rs : RandState) :
  graph_invariants g ->
  rooted g ->
  schedule_prefix g (rev (MctsNode.path_to_root this up)) ->
  Mcts.path_to_root this0 up0 = MctsNode.path_to_root this up ->
  List.length (vertices g) <= fuel ->
  exists order rs',
    MctsNode.get_simulation_order rand fuel g (this, up) rs = Ok (order, rs') /\
    Mcts.get_simulation_order rand fuel g (this0, up0) rs = Ok (order, rs') /\
    topological_sort g (graph_ops g order) /\
    exists rest, order = rev (MctsNode.path_to_root this up) ++ rest.
Proof.
  intros Hg Hrooted Hpre Hsame Hfuel.
  destruct (initial_frontier_inv g Hg _ Hpre) as (frontier & Hfr & Hinv).
  destruct (playout_sorted g Hg Hrooted RandState rand fuel rs _ _ Hinv)
    as (order & rs' & Hplay & Hsort & Hrest); [lia|].
  exists order, rs'.
  unfold MctsNode.get_simulation_order, Mcts.get_simulation_order.
  rewrite Hsame, Hfr. cbn [bind]. rewrite playout_same, Hplay.
  split; [reflexivity|]. split; [reflexivity|]. split; [|exact Hrest].
  rewrite graph_ops_all; [exact Hsort|].
  intros v Hv. apply (reachable_vertex g Hg). apply Hsort, Hv.
Qed.

(** C2 (amended): let the graph satisfy its invariants (closed and
    consistent maps, no predecessor of [start_], no cycle), let every
    predecessor of an op reached from [start_] be reached from [start_],
    and let the node lie in a search tree grown by [expand] from a root
    for [start_].  Then, given a budget of one round per vertex, both
    copies of [get_simulation_order] return the same order, and that
    order, restricted to the vertices of the graph, is a topological sort:
    every op reached from [start_] occurs exactly once, after all its
    predecessors. *)
Theorem get_simulation_order_topological
  (State double RandState : Type) (rand : RandState -> nat * RandState)
  (g : Graph) (this : MctsNode.Node State) (up : list (MctsNode.Frame State))
  (this0 : Mcts.Node double) (up0 : list (Mcts.Frame double))
  (fuel : nat) (rs : RandState) :
  graph_invariants g ->
  rooted g ->
  tree_path g (rev (MctsNode.path_to_root this up)) ->
  Mcts.path_to_root this0 up0 = MctsNode.path_to_root this up ->
  List.length (vertices g) <= fuel ->
  exists order rs',
    MctsNode.get_simulation_order rand fuel g (this, up) rs = Ok (order, rs') /\
    Mcts.get_simulation_order rand fuel g (this0, up0) rs = Ok (order, rs') /\
    topological_sort g (graph_ops g order).
Proof.
  intros Hg Hrooted Hpath Hsame Hfuel.
  destruct (get_simulation_order_sorted State double RandState rand g this up
              this0 up0 fuel rs Hg Hrooted
              (tree_path_schedule_prefix g _ Hg Hpath) Hsame Hfuel)
    as (order & rs' & H1 & H2 & H3 & _).
  exists order, rs'. auto.
Qed.

(** *** Deciding the invariants of a given graph *)

Lemma listed_true (m : OpMap) (k x : Op) :
  listed m k x = true <-> exists l, find_key m k = Some l /\ In x l.
Proof.
  unfold listed. destruct (find_key m k) as [l|].
  - rewrite found_In. split.
    + intros H. exists l. auto.
    + intros (l' & E & H). injection E as <-. exact H.
  - split; [discriminate|]. intros (l & E & _). discriminate.
Qed.

Lemma graph_invariantsb_sound (g : Graph) (rank : Op -> nat) :
  graph_invariantsb g rank = true -> graph_invariants g.
Proof.
  unfold graph_invariantsb. rewrite !andb_true_iff.
  intros ((((Hc & Hs) & Hk) & Hsrc) & Hr).
  unfold consistentb in Hk. rewrite andb_true_iff, !forallb_forall in Hk.
  destruct Hk as [Hk1 Hk2].
  constructor.
  - apply graph_closedb_sound, Hc.
  - unfold vertex. destruct (find_key (succs_ g) (start_ g)); [discriminate|].
    discriminate.
  - intros u v. split.
    + intros (ss & E & Hv). apply find_key_In in E.
      specialize (Hk1 _ E). simpl in Hk1. rewrite forallb_forall in Hk1.
      apply listed_true, Hk1, Hv.
    + intros (ps & E & Hu). apply find_key_In in E.
      specialize (Hk2 _ E). simpl in Hk2. rewrite forallb_forall in Hk2.
      apply listed_true, Hk2, Hu.
  - intros q (ps & E & Hq). unfold sourceb in Hsrc. rewrite E in Hsrc.
    destruct ps; [destruct Hq|discriminate].
  - apply (well_founded_lt_compat Op rank).
    intros u v (ss & E & Hv). apply find_key_In in E.
    unfold rankedb in Hr. rewrite forallb_forall in Hr.
    specialize (Hr _ E). simpl in Hr. rewrite forallb_forall in Hr.
    apply Nat.ltb_lt, Hr, Hv.
Qed.

Lemma rootedb_sound (g : Graph) :
  graph_invariants g -> rootedb g = true -> rooted g.
Proof.
  intros Hg Hr.
  assert (H : forall q, (exists v, pred_of g q v) -> reachable g q).
  { intros q. induction (gi_acyclic g Hg q) as [q _ IH].
    intros (v & ps & E & Hq). apply find_key_In in E.
    unfold rootedb in Hr. rewrite forallb_forall in Hr.
    specialize (Hr _ E). simpl in Hr. rewrite forallb_forall in Hr.
    specialize (Hr _ Hq). apply orb_true_iff in Hr. destruct Hr as [Hr|Hr].
    - apply Nat.eqb_eq in Hr. subst q. constructor.
    - destruct (find_key (preds_ g) q) as [[|p ps']|] eqn:Ep; try discriminate.
      assert (Hp : pred_of g p q) by (exists (p :: ps'); simpl; auto).
      apply (reachable_step g p).
      + apply IH; [apply (gi_consistent g Hg), Hp|]. exists q. exact Hp.
      + apply (gi_consistent g Hg), Hp. }
  intros q v _ Hq. apply H. exists v. exact Hq.
Qed.

(** *** Runs *)

Lemma get_simulation_order_topological_witness :
  exists order rs',
    MctsNode.get_simulation_order lcg 4 diamond
      (MctsNode.new_Node (@nil nat) 0, []) 7 = Ok (order, rs') /\
    Mcts.get_simulation_order lcg 4 diamond (Mcts.new_Node nat 0, []) 7
    = Ok (order, rs') /\
    topological_sort diamond (graph_ops diamond order).
Proof.
  assert (Hg : graph_invariants diamond).
  { apply (graph_invariantsb_sound diamond (fun v => v)). reflexivity. }
  apply (get_simulation_order_topological (list nat) nat nat lcg diamond
           (MctsNode.new_Node (@nil nat) 0) [] (Mcts.new_Node nat 0) [] 4 7).
  - exact Hg.
  - apply rootedb_sound; [exact Hg|reflexivity].
  - apply tree_path_root.
  - reflexivity.
  - simpl. lia.
Defined.

(** The order the run above returns. *)
Example diamond_order :
  MctsNode.get_simulation_order lcg 4 diamond
    (MctsNode.new_Node (@nil nat) 0, []) 7 = Ok ([0; 2; 1; 3], 8).
Proof. vm_compute. reflexivity. Qed.

(** C2, as stated, fails on [two_sources], a graph that satisfies the
    invariants: from the root the playout returns [[start]], although [b]
    is reached from [start]: its other predecessor [a] is never scheduled,
    so [b] never becomes ready. *)
Lemma playout_misses_reachable_op :
  graph_invariantsb two_sources (fun v => v) = true /\
  reachable two_sources 2 /\
  MctsNode.get_simulation_order lcg 3 two_sources
    (MctsNode.new_Node (@nil nat) 0, []) 7 = Ok ([0], 7) /\
  Mcts.get_simulation_order lcg 3 two_sources (Mcts.new_Node nat 0, []) 7
  = Ok ([0], 7) /\
  graph_ops two_sources [0] = [0] /\
  count_occ Nat.eq_dec (graph_ops two_sources [0]) 2 = 0.
Proof.
  split; [reflexivity|]. split.
  - apply (Relation_Operators.rtn1_trans _ _ _ 0 2); [|constructor].
    exists [2]. split; [reflexivity|simpl; auto].
  - repeat split; vm_compute; reflexivity.
Qed.

End PlayoutFacts.

(** ** The name broadcast *)

Module BcastFacts.
Import Outcomes Mcts BcastSpec Samples.

Lemma int_of_size_small (n : nat) :
  (Z.of_nat n < 2 ^ 31)%Z -> int_of_size n = Z.of_nat n.
Proof.
  intros H. unfold int_of_size.
  rewrite Z.mod_small by lia.
  destruct (Z.ltb_spec (Z.of_nat n) (2 ^ 31)); [reflexivity|lia].
Qed.

Lemma size_of_int_of_size (n : nat) :
  (Z.of_nat n < 2 ^ 31)%Z -> size_of_int (int_of_size n) = n.
Proof.
  intros H. rewrite int_of_size_small by assumption.
  unfold size_of_int. rewrite Z.mod_small by lia. apply Nat2Z.id.
Qed.

Lemma size_add_small (a b : nat) :
  (Z.of_nat (a + b) < 2 ^ 64)%Z -> size_add a b = a + b.
Proof.
  intros H. unfold size_add. rewrite Z.mod_small by lia. lia.
Qed.

Lemma length_list_ascii_of_string (s : string) :
  List.length (list_ascii_of_string s) = String.length s.
Proof. induction s as [|c s IH]; simpl; congruence. Qed.

Section WithOps.

Variable BOp : Type.
Variable name : BOp -> string.

Local Abbreviation mpi_bcast := (mpi_bcast name).
Local Abbreviation names_fit := (names_fit BOp name).
Local Abbreviation first_named := (first_named BOp name).

Lemma total_length_fit (order : list BOp) (acc : nat) :
  Forall (fun op => (Z.of_nat (String.length (name op)) < 2 ^ 31)%Z) order ->
  (Z.of_nat (acc + list_sum (map (fun op => String.length (name op)) order))
   < 2 ^ 64)%Z ->
  fold_left (fun total l => size_add total (size_of_int l)) (name_lengths name order) acc
  = acc + list_sum (map (fun op => String.length (name op)) order).
Proof.
  revert acc. induction order as [|op rest IH]; intros acc Hf Hs; simpl.
  - lia.
  - inversion Hf as [|? ? Hop Hrest]; subst. simpl in Hs.
    rewrite size_of_int_of_size by assumption.
    rewrite size_add_small by lia.
    rewrite IH; [lia|assumption|].
    replace (acc + String.length (name op)
             + list_sum (map (fun op0 => String.length (name op0)) rest))
      with (acc + (String.length (name op)
                   + list_sum (map (fun op0 => String.length (name op0)) rest)))
      by lia.
    exact Hs.
Qed.

Lemma all_names_length (order : list BOp) :
  List.length (all_names name order)
  = list_sum (map (fun op => String.length (name op)) order).
Proof.
  induction order as [|op rest IH]; simpl; [reflexivity|].
  rewrite length_app, length_list_ascii_of_string, IH. reflexivity.
Qed.

(** Breaking the characters rank 0 sent at the lengths rank 0 sent gives
    back the names. *)
Lemma break_names_all_names (order : list BOp) :
  Forall (fun op => (Z.of_nat (String.length (name op)) < 2 ^ 31)%Z) order ->
  break_names (all_names name order) (name_lengths name order) = map name order.
Proof.
  induction order as [|op rest IH]; intros Hf; simpl; [reflexivity|].
  inversion Hf as [|? ? Hop Hrest]; subst.
  rewrite size_of_int_of_size by assumption.
  rewrite <- length_list_ascii_of_string.
  rewrite firstn_app, Nat.sub_diag, firstn_all. simpl. rewrite app_nil_r.
  rewrite skipn_app, Nat.sub_diag, skipn_all. simpl.
  rewrite string_of_list_ascii_of_string, IH by assumption. reflexivity.
Qed.

(** What a rank other than 0 is left with. *)
Lemma mpi_bcast_receiver (rank : nat) (root_order order : list BOp) :
  rank <> 0 -> names_fit root_order ->
  mpi_bcast rank root_order order
  = if Nat.eqb (List.length root_order) (List.length order)
    then (pos <- find_positions name (map name root_order) order ;;
          Ok (permute pos order))
    else Throw "MPI_Bcast: count mismatch".
Proof.
  intros Hr [Hf Hs]. unfold mpi_bcast, Mcts.mpi_bcast.
  destruct (Nat.eqb_spec rank 0); [contradiction|].
  unfold MPI_Bcast at 1. unfold name_lengths at 1 2. rewrite !length_map.
  destruct (Nat.eqb (List.length root_order) (List.length order)); [|reflexivity].
  cbn [bind]. unfold total_length. fold (name_lengths name root_order).
  rewrite (total_length_fit root_order 0 Hf Hs). simpl.
  unfold MPI_Bcast. rewrite repeat_length, all_names_length, Nat.eqb_refl.
  cbn [bind]. rewrite break_names_all_names by assumption. reflexivity.
Qed.

Lemma find_name_first (n : string) (order : list BOp) :
  match find_name name n order with
  | Some oi => nth_error order oi = first_named n order /\
               first_named n order <> None
  | None => first_named n order = None
  end.
Proof.
  unfold first_named. induction order as [|op rest IH]; simpl; [reflexivity|].
  destruct (String.eqb (name op) n); simpl.
  - split; [reflexivity|discriminate].
  - destruct (find_name name n rest); simpl; exact IH.
Qed.

Lemma first_named_some (n : string) (order : list BOp) (op : BOp) :
  first_named n order = Some op -> In op order /\ name op = n.
Proof.
  intros H. apply find_some in H. rewrite String.eqb_eq in H. exact H.
Qed.

Lemma first_named_none (n : string) (order : list BOp) :
  first_named n order = None <-> forall op, In op order -> name op <> n.
Proof.
  split.
  - intros H op Hop E. pose proof (find_none _ _ H op Hop) as F. simpl in F.
    rewrite <- String.eqb_eq in E. congruence.
  - intros H. unfold first_named. destruct (find _ order) as [op|] eqn:E; [|reflexivity].
    apply find_some in E. rewrite String.eqb_eq in E.
    exfalso. apply (H op); tauto.
Qed.

(** The positions found select, name by name, the first op so named. *)
Lemma find_positions_first (names : list string) (order : list BOp) (pos : list nat) :
  find_positions name names order = Ok pos ->
  map (@Some BOp) (permute pos order) = map (fun n => first_named n order) names.
Proof.
  revert pos. induction names as [|n rest IH]; intros pos H; simpl in H.
  - injection H as <-. reflexivity.
  - pose proof (find_name_first n order) as Hn.
    destruct (find_name name n order) as [oi|]; [|discriminate].
    destruct (find_positions name rest order) as [pos'| | |]; try discriminate.
    simpl in H. injection H as <-. destruct Hn as [Hn Hne].
    simpl. rewrite Hn. destruct (first_named n order) as [op|]; [|congruence].
    simpl. f_equal. apply IH. reflexivity.
Qed.

Lemma find_positions_ok (names : list string) (order : list BOp) :
  (forall n, In n names -> first_named n order <> None) ->
  exists pos, find_positions name names order = Ok pos.
Proof.
  induction names as [|n rest IH]; intros H; simpl.
  - eexists; reflexivity.
  - pose proof (find_name_first n order) as Hn.
    destruct (find_name name n order) as [oi|].
    + destruct IH as (pos & E); [intros m Hm; apply H; simpl; auto|].
      rewrite E. simpl. eexists; reflexivity.
    + exfalso. apply (H n); simpl; auto.
Qed.

Lemma find_positions_throw (names : list string) (order : list BOp) :
  (exists n, In n names /\ first_named n order = None) ->
  exists n, In n names /\ first_named n order = None /\
            find_positions name names order
            = Throw ("couldn't find op for name " ++ n).
Proof.
  induction names as [|n rest IH]; intros (m & Hm & Em); simpl in *; [contradiction|].
  pose proof (find_name_first n order) as Hn.
  destruct (find_name name n order) as [oi|].
  - destruct Hm as [->|Hm]; [destruct Hn; congruence|].
    destruct IH as (k & Hk & Ek & E); [exists m; auto|].
    exists k. rewrite E. simpl. auto.
  - exists n. auto.
Qed.

Lemma map_Some_Forall2 {A B : Type} (f : A -> option B) (l : list A) (m : list B) :
  map (@Some B) m = map f l -> Forall2 (fun a b => f a = Some b) l m.
Proof.
  revert m. induction l as [|a l IH]; intros m H; destruct m as [|b m];
    simpl in H; try discriminate; constructor.
  - injection H as H _. congruence.
  - apply IH. injection H as _ H. exact H.
Qed.

Lemma incl_or_missing (eq_dec : forall x y : BOp, {x = y} + {x <> y})
  (l l' : list BOp) :
  (forall x, In x l -> In x l') \/ (exists x, In x l /\ ~ In x l').
Proof.
  induction l as [|a l IH].
  - left. intros x [].
  - destruct (in_dec eq_dec a l') as [Ha|Ha].
    + destruct IH as [IH|(x & Hx & Hn)].
      * left. intros x [<-|Hx]; auto.
      * right. exists x. simpl; auto.
    + right. exists a. simpl; auto.
Qed.

(** C7 (amended): on a rank other than 0 that passes as many operations
    as rank 0, when every name rank 0 sends is the name of a local
    operation, [mpi_bcast] leaves a list of local operations that agrees
    with rank 0's list name by name.  It agrees on another attribute,
    such as the stream, exactly when, for every operation of rank 0's
    list, the first local operation of that name carries the attribute
    of rank 0's operation; so it does when all local operations carry
    the attribute of rank 0's operations of the same name.  When some
    name has no local operation, the call throws. *)
Theorem mpi_bcast_by_name (rank : nat) (root_order order : list BOp) :
  rank <> 0 -> names_fit root_order ->
  List.length order = List.length root_order ->
  ((forall op, In op root_order -> exists op', In op' order /\ name op' = name op) ->
   exists perm,
     mpi_bcast rank root_order order = Ok perm /\
     map name perm = map name root_order /\
     (forall op, In op perm -> In op order) /\
     forall (Stream : Type) (stream : BOp -> Stream),
       (map stream perm = map stream root_order <->
        forall op, In op root_order ->
          exists op', first_named (name op) order = Some op' /\
                      stream op' = stream op) /\
       ((forall op op', In op root_order -> In op' order ->
                        name op' = name op -> stream op' = stream op) ->
        map stream perm = map stream root_order)) /\
  ((exists op, In op root_order /\ forall op', In op' order -> name op' <> name op) ->
   exists n, mpi_bcast rank root_order order
             = Throw ("couldn't find op for name " ++ n)).
Proof.
  intros Hr Hfit Hlen. rewrite (mpi_bcast_receiver rank root_order order Hr Hfit).
  rewrite Hlen, Nat.eqb_refl. split.
  - intros Hall.
    destruct (find_positions_ok (map name root_order) order) as (pos & Hpos).
    { intros n Hn. apply in_map_iff in Hn. destruct Hn as (op & <- & Hop).
      destruct (Hall op Hop) as (op' & Hop' & E).
      intros F. apply (proj1 (first_named_none _ _) F op' Hop' E). }
    rewrite Hpos. cbn [bind]. exists (permute pos order). split; [reflexivity|].
    pose proof (find_positions_first _ _ _ Hpos) as Hf.
    apply map_Some_Forall2 in Hf.
    assert (HF : Forall2 (fun op p => first_named (name op) order = Some p)
                         root_order (permute pos order)).
    { clear - Hf. remember (permute pos order) as perm eqn:E. clear E.
      revert perm Hf. induction root_order as [|op rest IH]; intros perm Hf;
        inversion Hf; subst; constructor; auto. }
    clear Hf. remember (permute pos order) as perm eqn:E. clear E Hpos.
    split; [|split].
    + clear - HF. induction HF as [|op p l m H HF' IH]; simpl; [reflexivity|].
      apply first_named_some in H. rewrite (proj2 H), IH. reflexivity.
    + intros p Hp. clear - HF Hp.
      induction HF as [|op q l m H HF' IH]; simpl in Hp; [contradiction|].
      destruct Hp as [<-|Hp]; [apply first_named_some in H; tauto|auto].
    + intros Stream stream.
      assert (Hiff : map stream perm = map stream root_order <->
                     forall op, In op root_order ->
                       exists op', first_named (name op) order = Some op' /\
                                   stream op' = stream op).
      { clear - HF. induction HF as [|op p l m H HF' IH]; simpl.
        - split; [intros _ op []|reflexivity].
        - split.
          + intros E. injection E as E1 E2. intros o [<-|Ho].
            * exists p. auto.
            * apply IH; assumption.
          + intros Hs. f_equal.
            * destruct (Hs op (or_introl eq_refl)) as (p' & E & Es). congruence.
            * apply IH. intros o Ho. apply Hs. auto. }
      split; [exact Hiff|].
      intros Hs. apply Hiff. intros op Hop.
      assert (Hp : exists p, first_named (name op) order = Some p).
      { clear - HF Hop. induction HF as [|o p l m H HF' IH]; [destruct Hop|].
        destruct Hop as [<-|Hop]; [exists p; exact H|auto]. }
      destruct Hp as (p & Ep). exists p. split; [exact Ep|].
      apply first_named_some in Ep. destruct Ep as [Hin Hn].
      apply Hs; assumption.
  - intros (op & Hop & Hno).
    destruct (find_positions_throw (map name root_order) order) as (n & _ & _ & E).
    { exists (name op). split; [apply in_map, Hop|].
      apply first_named_none. exact Hno. }
    rewrite E. exists n. reflexivity.
Qed.

(** C10: a rank other than 0 resolves every name to the first local
    operation of that name, so a local operation that comes after another
    of the same name is never part of the result.  When rank 0's order
    holds the same name at two positions, the list the receiver is left
    with holds one local operation at both; when the local operations are
    pairwise distinct the result is then not a permutation of them, and
    one of them is missing. *)
Theorem mpi_bcast_first_match (eq_dec : forall x y : BOp, {x = y} + {x <> y})
  (rank : nat) (root_order order perm : list BOp) :
  rank <> 0 -> names_fit root_order ->
  mpi_bcast rank root_order order = Ok perm ->
  (forall i op, nth_error root_order i = Some op ->
     nth_error perm i = first_named (name op) order) /\
  (forall op, In op perm -> first_named (name op) order = Some op) /\
  (forall i j opi opj,
     i <> j -> nth_error root_order i = Some opi ->
     nth_error root_order j = Some opj -> name opi = name opj ->
     (exists op, nth_error perm i = Some op /\ nth_error perm j = Some op) /\
     (NoDup order ->
      ~ Permutation perm order /\
      exists missing, In missing order /\ ~ In missing perm)).
Proof.
  intros Hr Hfit H. rewrite (mpi_bcast_receiver rank root_order order Hr Hfit) in H.
  destruct (Nat.eqb_spec (List.length root_order) (List.length order)) as [Hlen|];
    [|discriminate].
  destruct (find_positions name (map name root_order) order) as [pos| | |] eqn:Hpos;
    try discriminate.
  cbn [bind] in H. injection H as <-.
  pose proof (find_positions_first _ _ _ Hpos) as Hf.
  assert (Hnth : forall i op, nth_error root_order i = Some op ->
            nth_error (permute pos order) i = first_named (name op) order /\
            nth_error (permute pos order) i <> None).
  { intros i op Hi.
    assert (E : nth_error (map (@Some BOp) (permute pos order)) i
                = nth_error (map (fun n => first_named n order)
                                 (map name root_order)) i) by (rewrite Hf; reflexivity).
    rewrite !nth_error_map, Hi in E. simpl in E.
    destruct (nth_error (permute pos order) i) as [p|]; simpl in E; [|discriminate].
    injection E as <-. split; [reflexivity|discriminate]. }
  split; [intros i op Hi; apply Hnth, Hi|].
  split.
  { intros op Hop. apply map_Some_Forall2 in Hf.
    clear - Hf Hop. remember (map name root_order) as names eqn:E. clear E.
    induction Hf as [|n p l m H Hf' IH]; simpl in Hop; [contradiction|].
    destruct Hop as [<-|Hop]; [|auto].
    rewrite (proj2 (first_named_some _ _ _ H)). exact H. }
  intros i j opi opj Hij Hi Hj Hn.
  destruct (Hnth i opi Hi) as [Ei Ni]. destruct (Hnth j opj Hj) as [Ej Nj].
  rewrite Hn in Ei.
  destruct (nth_error (permute pos order) i) as [p|] eqn:Epi; [|congruence].
  split; [exists p; split; [reflexivity|congruence]|].
  intros Hnd.
  assert (Hdup : ~ NoDup (permute pos order)).
  { intros Hp. apply Hij. rewrite NoDup_nth_error in Hp. apply Hp.
    - apply nth_error_Some. congruence.
    - congruence. }
  split.
  - intros HP. apply Hdup. apply (Permutation_NoDup (Permutation_sym HP) Hnd).
  - destruct (incl_or_missing eq_dec order (permute pos order)) as [Hincl|Hmiss];
      [|exact Hmiss].
    exfalso. apply Hdup. apply (NoDup_incl_NoDup Hnd); [|exact Hincl].
    assert (El : List.length (map (@Some BOp) (permute pos order))
                 = List.length (map (fun n => first_named n order)
                                    (map name root_order))) by (rewrite Hf; reflexivity).
    rewrite !length_map in El. lia.
Qed.

End WithOps.

(** *** Two operations of one name *)

Lemma names_fit_two (a b : string * nat) :
  (Z.of_nat (String.length (fst a)) < 2 ^ 31)%Z ->
  (Z.of_nat (String.length (fst b)) < 2 ^ 31)%Z ->
  names_fit (string * nat) (@fst string nat) [a; b].
Proof.
  intros Ha Hb. split.
  - constructor; [exact Ha|]. constructor; [exact Hb|constructor].
  - simpl. lia.
Qed.

(** C7, as stated, fails: both ranks hold the kernel [k] bound to stream
    1 and to stream 2; rank 0 broadcasts the order (stream 2, stream 1);
    rank 1 is left with the operation on stream 1 twice, a list that
    agrees with rank 0's by name and differs from it by stream. *)
Lemma mpi_bcast_loses_stream :
  let root_order := [op_on "k" 2; op_on "k" 1] in
  let order := [op_on "k" 1; op_on "k" 2] in
  mpi_bcast (@fst string nat) 1 root_order order
  = Ok [op_on "k" 1; op_on "k" 1] /\
  map (@fst string nat) [op_on "k" 1; op_on "k" 1] = map (@fst string nat) root_order /\
  map (@snd string nat) [op_on "k" 1; op_on "k" 1] <> map (@snd string nat) root_order.
Proof.
  cbv zeta. split; [vm_compute; reflexivity|]. split; [reflexivity|discriminate].
Qed.

(** Rank 0 sends the kernel [k] on stream 1 twice; rank 1 holds [k] on
    stream 1 and on stream 2.  The first local [k] is on stream 1, so the
    lists agree by stream, although a local operation of that name is on
    another stream. *)
Lemma mpi_bcast_by_name_witness :
  exists perm,
    mpi_bcast (@fst string nat) 1 [op_on "k" 1; op_on "k" 1] [op_on "k" 1; op_on "k" 2]
    = Ok perm /\
    map (@fst string nat) perm = ["k"; "k"] /\
    map (@snd string nat) perm = [1; 1].
Proof.
  destruct (mpi_bcast_by_name (string * nat) (@fst string nat) 1
              [op_on "k" 1; op_on "k" 1] [op_on "k" 1; op_on "k" 2])
    as [H _].
  - discriminate.
  - apply names_fit_two; simpl; lia.
  - reflexivity.
  - destruct H as (perm & H1 & H2 & _ & H4).
    + intros op [<-|[<-|[]]]; exists (op_on "k" 1); simpl; auto.
    + exists perm. split; [exact H1|]. split; [exact H2|].
      destruct (H4 nat (@snd string nat)) as [Hiff _]. apply Hiff.
      intros op [<-|[<-|[]]]; exists (op_on "k" 1); split; reflexivity.
Defined.

Lemma op_on_eq_dec (x y : string * nat) : {x = y} + {x <> y}.
Proof. decide equality; [apply Nat.eq_dec|apply string_dec]. Defined.

Lemma mpi_bcast_first_match_witness :
  (exists op, nth_error [op_on "k" 1; op_on "k" 1] 0 = Some op /\
              nth_error [op_on "k" 1; op_on "k" 1] 1 = Some op) /\
  ~ Permutation [op_on "k" 1; op_on "k" 1] [op_on "k" 1; op_on "k" 2] /\
  exists missing, In missing [op_on "k" 1; op_on "k" 2] /\
                  ~ In missing [op_on "k" 1; op_on "k" 1].
Proof.
  destruct (mpi_bcast_first_match (string * nat) (@fst string nat) op_on_eq_dec 1
              [op_on "k" 2; op_on "k" 1] [op_on "k" 1; op_on "k" 2]
              [op_on "k" 1; op_on "k" 1]) as (_ & _ & H).
  - discriminate.
  - apply names_fit_two; simpl; lia.
  - vm_compute. reflexivity.
  - destruct (H 0 1 (op_on "k" 2) (op_on "k" 1)) as [H1 H2];
      try reflexivity; try discriminate.
    split; [exact H1|]. apply H2.
    constructor; [simpl; intros [E|[]]; discriminate|].
    constructor; [simpl; tauto|constructor].
Defined.

End BcastFacts.

(** ** The driver loop of [mcts.cpp] *)

Module DriverFacts.
Import Outcomes Graphs Mcts DriverSpec.

Section WithDouble.

Variable double : Type.
Variable infinity : double.
Variable neg_infinity : double.
Variable uct_argmax : Context double -> Node double -> nat.
Variable RandState : Type.
Variable rand : RandState -> nat * RandState.
Variable op_name : Op -> string.

Local Abbreviation Node := (Node double).
Local Abbreviation Frame := (Frame double).
Local Abbreviation never_played := (never_played double).
Local Abbreviation nothing_learnt :=
  (nothing_learnt double infinity neg_infinity RandState).

Lemma never_played_fields (nd : Node) :
  never_played nd = true <->
  times_ nd = [] /\ forallb never_played (children_ nd) = true.
Proof.
  destruct nd as [op cs ts ex]. simpl. destruct ts; split; intros H.
  - auto.
  - tauto.
  - discriminate.
  - destruct H; discriminate.
Qed.

Lemma never_played_is_leaf (nd : Node) :
  never_played nd = true -> is_leaf nd = true.
Proof.
  intros H. apply never_played_fields in H. destruct H as [_ H].
  unfold is_leaf. destruct (children_ nd) as [|c cs]; [reflexivity|].
  simpl in H. apply andb_true_iff in H. destruct H as [Hc _].
  apply never_played_fields in Hc. simpl. unfold unplayed at 1.
  rewrite (proj1 Hc). reflexivity.
Qed.

(** On a tree without playouts [select] stops at the root. *)
Lemma select_never_played (ctx : Context double) (g : Graph) (root : Node) :
  never_played root = true ->
  select uct_argmax ctx g root [] = Ok (root, []).
Proof.
  intros H. apply never_played_is_leaf in H.
  destruct root as [op cs ts ex]. simpl. rewrite H. reflexivity.
Qed.

Lemma first_unplayed_split (before cs : list Node) :
  match first_unplayed before cs with
  | Some (b, c, a) => b ++ c :: a = before ++ cs
  | None => True
  end.
Proof.
  revert before. induction cs as [|c cs IH]; intros before; simpl; [exact I|].
  destruct (unplayed c); [reflexivity|].
  specialize (IH (before ++ [c])).
  destruct (first_unplayed (before ++ [c]) cs) as [[[b c'] a]|]; [|exact I].
  rewrite IH, <- app_assoc. reflexivity.
Qed.

Lemma generate_children_never_played (g : Graph) (this this' : Node) :
  never_played this = true ->
  generate_children g this [] = Ok this' ->
  never_played this' = true.
Proof.
  intros H. unfold generate_children.
  destruct (expanded_ this); [intros E; injection E as <-; exact H|].
  destruct (gather_succs g (path_to_root this []) []) as [fr| | |];
    cbv beta iota zeta delta [bind]; try discriminate.
  destruct (MctsNode.prune_unready _ g _ _) as [fr'| | |]; try discriminate.
  intros E. injection E as <-. apply never_played_fields in H.
  destruct H as [Ht Hc]. apply never_played_fields. simpl. split; [exact Ht|].
  rewrite forallb_app, Hc. simpl.
  apply forallb_forall. intros x Hx. apply in_map_iff in Hx.
  destruct Hx as (op & <- & _). reflexivity.
Qed.

(** Expanding the root of a tree without playouts leaves a tree without
    playouts. *)
Lemma expand_never_played (g : Graph) (root : Node) (loc : Location double) :
  never_played root = true ->
  expand g (root, []) = Ok loc ->
  never_played (root_of (fst loc) (snd loc)) = true.
Proof.
  intros H. unfold expand.
  destruct (is_terminal g root) as [t| | |]; simpl; try discriminate.
  destruct t; [intros E; injection E as <-; exact H|].
  destruct (generate_children g root []) as [this'| | |] eqn:Eg; simpl;
    try discriminate.
  pose proof (generate_children_never_played g root this' H Eg) as H'.
  pose proof (first_unplayed_split [] (children_ this')) as Hs.
  destruct (children_ this') as [|c cs] eqn:Ec.
  - intros E. injection E as <-. exact H'.
  - destruct (first_unplayed [] (c :: cs)) as [[[b c'] a]|]; [|discriminate].
    intros E. injection E as <-. simpl. simpl in Hs.
    unfold plug, frame_around. simpl. rewrite Hs, <- Ec.
    destruct this'; exact H'.
Qed.

(** A round of the loop backpropagates nothing. *)
Lemma mcts_round_nothing_learnt (fuel : nat) (g : Graph)
  (st st' : DriverState double RandState) :
  nothing_learnt st ->
  mcts_round uct_argmax rand op_name fuel g st = Ok st' ->
  nothing_learnt st'.
Proof.
  intros (Hn & Hc & Hr). unfold mcts_round.
  rewrite (select_never_played (ds_ctx st) g (ds_root st) Hn). cbn [bind].
  destruct (expand g (ds_root st, [])) as [child| | |] eqn:Ee; simpl; try discriminate.
  destruct (get_simulation_order rand fuel g child (ds_rand st)) as [[order rs']| | |];
    simpl; try discriminate.
  intros E. injection E as <-. unfold nothing_learnt. simpl.
  split; [|split; assumption].
  apply (expand_never_played g (ds_root st) child Hn Ee).
Qed.

Lemma mcts_rounds_nothing_learnt (rounds fuel : nat) (g : Graph)
  (st : DriverState double RandState) :
  nothing_learnt st ->
  match mcts_rounds uct_argmax rand op_name rounds fuel g st with
  | Ok st' => nothing_learnt st'
  | _ => True
  end.
Proof.
  revert st. induction rounds as [|rounds IH]; intros st H; simpl; [exact H|].
  destruct (mcts_round uct_argmax rand op_name fuel g st) as [st'| | |] eqn:E;
    simpl; try exact I.
  apply IH. apply (mcts_round_nothing_learnt fuel g st st' H E).
Qed.

(** C8 fails on the code: whatever the graph, when the loop of [mcts] is
    left no node of the tree has a playout recorded, the context has its
    initial bounds and no result is stored; [child.backprop] is never
    called. *)
Theorem mcts_never_backpropagates (fuel : nat) (g : Graph) (rs : RandState) :
  match mcts infinity neg_infinity uct_argmax rand op_name fuel g rs with
  | Ok st => nothing_learnt st
  | _ => True
  end.
Proof.
  unfold mcts. apply mcts_rounds_nothing_learnt.
  unfold nothing_learnt. simpl. auto.
Qed.

End WithDouble.

(** The driver on [start -> a], [start -> b]: ten rounds, and the tree is
    the root with its two children, none of them played. *)
Example mcts_on_fork :
  match mcts 0 0 (fun _ _ => 0) Samples.lcg (fun _ => "op") 3
             Samples.fork 7 with
  | Ok st =>
      times_ (ds_root st) = [] /\
      map (@op_ nat) (children_ (ds_root st)) = [1; 2] /\
      map (@times_ nat) (children_ (ds_root st)) = [[]; []] /\
      simResults (ds_result st) = []
  | _ => False
  end.
Proof. vm_compute. repeat split; reflexivity. Qed.

End DriverFacts.

(** ** The frontier of [mcts_node.cpp] *)

Module FrontierFacts.
Import Outcomes Platform OpsCuda Frontier FrontierSpec Samples.

Section WithHelpers.

Variable CpuOp : Type.
Variable GpuOp : Type.
Variable cpu_eq : CpuOp -> CpuOp -> bool.
Variable gpu_eq : GpuOp -> GpuOp -> bool.
Variable GraphT : Type.
Variable PlatformT : Type.

Local Abbreviation BoundOp := (BoundOp CpuOp GpuOp).
Local Abbreviation OpBase := (OpBase CpuOp GpuOp).
Local Abbreviation BoundOp_eq := (BoundOp_eq cpu_eq gpu_eq).
Local Abbreviation keep_uniques := (keep_uniques cpu_eq gpu_eq).

Variable same_ptr : OpBase -> OpBase -> bool.
Variable succs_find_or_find_unbound : GraphT -> BoundOp -> option (list OpBase).
Variable preds_at : GraphT -> OpBase -> Outcome (list OpBase).
Variable contains_unbound : list BoundOp -> OpBase -> bool.
Variable make_platform_variations :
  PlatformT -> OpBase -> list BoundOp * PlatformT.
Variable is_synced : BoundOp -> GraphT -> list BoundOp -> bool.
Variable make_syncs : BoundOp -> GraphT -> list BoundOp -> list BoundOp.

Local Abbreviation unique_by := (unique_by CpuOp GpuOp).
Local Abbreviation ready_variation :=
  (ready_variation CpuOp GpuOp GraphT PlatformT preds_at contains_unbound
                   make_platform_variations is_synced).
Local Abbreviation get_frontier :=
  (get_frontier cpu_eq gpu_eq same_ptr succs_find_or_find_unbound preds_at
                contains_unbound make_platform_variations is_synced make_syncs).

Lemma keep_uniques_In (l : list BoundOp) (v : BoundOp) :
  In v (keep_uniques l) -> In v l.
Proof.
  revert v. induction l as [|x t IH]; intros v; simpl; [tauto|].
  intros [<-|H]; [auto|]. apply filter_In in H. right. apply IH, H.
Qed.

Lemma unique_by_filter (f : BoundOp -> bool) (l : list BoundOp) :
  unique_by BoundOp_eq l -> unique_by BoundOp_eq (filter f l).
Proof.
  induction 1 as [|x l Hx Hl IH]; simpl; [constructor|].
  destruct (f x); [|exact IH].
  constructor; [|exact IH]. intros y Hy. apply filter_In in Hy. apply Hx, Hy.
Qed.

Lemma keep_uniques_unique (l : list BoundOp) : unique_by BoundOp_eq (keep_uniques l).
Proof.
  induction l as [|x t IH]; simpl; constructor.
  - intros y Hy. apply filter_In in Hy. destruct Hy as [_ Hy].
    apply negb_true_iff in Hy. exact Hy.
  - apply unique_by_filter, IH.
Qed.

Lemma select_candidates_spec (g : GraphT) (completed : list BoundOp)
  (l candidates : list OpBase) :
  select_candidates preds_at contains_unbound g completed l = Ok candidates ->
  forall x, In x candidates ->
    In x l /\ contains_unbound completed x = false /\
    exists preds, preds_at g x = Ok preds /\
                  forall p, In p preds -> contains_unbound completed p = true.
Proof.
  revert candidates. induction l as [|c rest IH]; intros candidates H x Hx; simpl in H.
  - injection H as <-. destruct Hx.
  - destruct (contains_unbound completed c) eqn:Ec.
    + destruct (IH _ H x Hx) as (H1 & H2). split; [simpl; auto|exact H2].
    + destruct (preds_at g c) as [preds| | |] eqn:Ep; simpl in H; try discriminate.
      destruct (select_candidates preds_at contains_unbound g completed rest)
        as [cs| | |]; simpl in H; try discriminate.
      injection H as <-.
      destruct (forallb (contains_unbound completed) preds) eqn:Ef.
      * destruct Hx as [<-|Hx].
        -- split; [simpl; auto|]. split; [exact Ec|].
           exists preds. split; [exact Ep|]. rewrite forallb_forall in Ef. exact Ef.
        -- destruct (IH _ eq_refl x Hx) as (H1 & H2). split; [simpl; auto|exact H2].
      * destruct (IH _ eq_refl x Hx) as (H1 & H2). split; [simpl; auto|exact H2].
Qed.

Lemma push_bounds_spec (g : GraphT) (completed bounds frontier : list BoundOp)
  (v : BoundOp) :
  In v (push_bounds is_synced make_syncs g completed frontier bounds) ->
  In v frontier \/
  (In v bounds /\ is_synced v g completed = true) \/
  (exists b, In b bounds /\ In v (make_syncs b g completed)).
Proof.
  unfold push_bounds. revert frontier.
  induction bounds as [|b rest IH]; intros frontier H; simpl in H; [auto|].
  apply IH in H. destruct H as [H|[[H1 H2]|(b' & H1 & H2)]].
  - destruct (is_synced b g completed) eqn:Es; apply in_app_or in H.
    + destruct H as [H|[<-|[]]]; [auto|]. right; left. simpl; auto.
    + destruct H as [H|H]; [auto|]. right; right. exists b. simpl; auto.
  - right; left. simpl; auto.
  - right; right. exists b'. simpl; auto.
Qed.

Lemma generate_frontier_spec (g : GraphT) (completed : list BoundOp)
  (candidates : list OpBase) (plat : PlatformT) (frontier : list BoundOp)
  (v : BoundOp) :
  In v (fst (generate_frontier make_platform_variations is_synced make_syncs
                               plat g completed candidates frontier)) ->
  In v frontier \/
  (exists plat0 x, In x candidates /\
                   In v (fst (make_platform_variations plat0 x)) /\
                   is_synced v g completed = true) \/
  (exists b, In v (make_syncs b g completed)).
Proof.
  revert plat frontier. induction candidates as [|c rest IH]; intros plat frontier H;
    simpl in H; [auto|].
  destruct (make_platform_variations plat c) as [bounds plat'] eqn:Em.
  apply IH in H. destruct H as [H|[(p0 & x & H1 & H2)|H]].
  - apply push_bounds_spec in H. destruct H as [H|[[H1 H2]|(b & _ & H)]].
    + auto.
    + right; left. exists plat, c. rewrite Em. simpl; auto.
    + right; right. exists b. exact H.
  - right; left. exists p0, x. simpl; tauto.
  - auto.
Qed.

(** C1: provided [make_syncs] returns synchronization operations only,
    every operation of the list [get_frontier] returns is a
    synchronization operation or a platform variation of a vertex whose
    predecessors are all contained in [completed] under
    [contains_unbound], and that is synchronized; and no two operations
    of the list compare equal. *)
Theorem get_frontier_legal (plat plat' : PlatformT) (g : GraphT)
  (completed frontier : list BoundOp) :
  (forall b g0 c s, In s (make_syncs b g0 c) -> is_sync s = true) ->
  get_frontier plat g completed = Ok (frontier, plat') ->
  (forall v, In v frontier ->
     is_sync v = true \/ ready_variation g completed v) /\
  unique_by BoundOp_eq frontier.
Proof.
  intros Hsync H. unfold get_frontier, Frontier.get_frontier in H.
  destruct (select_candidates preds_at contains_unbound g completed _)
    as [candidates| | |] eqn:Ec; simpl in H; try discriminate.
  pose proof (generate_frontier_spec g completed candidates plat []) as Hg.
  destruct (generate_frontier _ _ _ plat g completed candidates [])
    as [fr plat''] eqn:Eg.
  injection H as <- <-. split; [|apply keep_uniques_unique].
  intros v Hv. apply keep_uniques_In in Hv.
  destruct (Hg v Hv) as [[]|[(p0 & x & H1 & H2 & H3)|(b & Hb)]].
  - right. destruct (select_candidates_spec g completed _ _ Ec x H1)
      as (_ & Hn & preds & Hp & Hall).
    exists p0, x, preds. auto.
  - left. eapply Hsync, Hb.
Qed.

End WithHelpers.

Example demo_frontier_value :
  demo_frontier
  = Ok ([BGpu (mkBoundGpuOp "k" (mkStream 0));
         BEventRecord (new_CudaEventRecord (mkEvent 0) (mkStream 0));
         BStreamWaitEvent
           (new_CudaStreamWaitEvent (mkStream 1) (mkEvent 0))], tt).
Proof. vm_compute. reflexivity. Qed.

Lemma get_frontier_legal_witness :
  exists frontier,
    demo_frontier = Ok (frontier, tt) /\
    (forall v, In v frontier ->
       is_sync v = true \/
       ready_variation string string unit unit demo_preds demo_contains_unbound
                       demo_variations demo_is_synced tt [BCpu "start"] v) /\
    unique_by string string (BoundOp_eq String.eqb String.eqb) frontier.
Proof.
  eexists. split; [apply demo_frontier_value|].
  apply (get_frontier_legal string string String.eqb String.eqb unit unit
           demo_same_ptr demo_succs demo_preds demo_contains_unbound
           demo_variations demo_is_synced demo_make_syncs tt tt tt).
  - intros b g0 c s. destruct b; simpl; try tauto.
    intros [<-|[<-|[]]]; reflexivity.
  - apply demo_frontier_value.
Defined.

End FrontierFacts.

(** ** Facts about [struct Platform] *)

Module PlatformFacts.
Import Outcomes Platform PlatformRes PlatformSpec.

Lemma size_app {A : Type} (u v : list A) : size (u ++ v) = (size u + size v)%N.
Proof. unfold size. rewrite length_app. lia. Qed.

Lemma unsigned_of_size_small (n : N) : (n < 2 ^ 32)%N -> unsigned_of_size n = n.
Proof. intros H. unfold unsigned_of_size. apply N.mod_small, H. Qed.

Lemma size_add_fits (a b : N) : (a + b < 2 ^ 64)%N -> size_add a b = (a + b)%N.
Proof. intros H. unfold size_add. apply N.mod_small, H. Qed.

Lemma int_of_size_fits (n : N) : (n < 2 ^ 31)%N -> int_of_size n = Z.of_N n.
Proof.
  intros H. unfold int_of_size. cbv zeta.
  rewrite Z.mod_small by lia.
  destruct (Z.ltb_spec (Z.of_N n) (2 ^ 31)); [reflexivity|lia].
Qed.

Lemma int_of_size_range (n : N) : (- 2 ^ 31 <= int_of_size n < 2 ^ 31)%Z.
Proof.
  unfold int_of_size. cbv zeta.
  pose proof (Z.mod_pos_bound (Z.of_N n) (2 ^ 32) ltac:(lia)) as H.
  destruct (Z.ltb_spec (Z.of_N n mod 2 ^ 32) (2 ^ 31)); lia.
Qed.

(** While the count stays below the largest [int], one more element
    counts one more. *)
Lemma int_of_size_succ (n : N) :
  (int_of_size n < 2 ^ 31 - 1)%Z -> int_of_size (n + 1) = (int_of_size n + 1)%Z.
Proof.
  unfold int_of_size. cbv zeta. intros H.
  pose proof (Z.mod_pos_bound (Z.of_N n) (2 ^ 32) ltac:(lia)) as Hb.
  assert (E : (Z.of_N (n + 1) mod 2 ^ 32 =
               if (Z.of_N n mod 2 ^ 32 =? 2 ^ 32 - 1) then 0
               else Z.of_N n mod 2 ^ 32 + 1)%Z).
  { rewrite N2Z.inj_add. change (Z.of_N 1) with 1%Z.
    rewrite Z.add_mod by lia.
    destruct (Z.eqb_spec (Z.of_N n mod 2 ^ 32) (2 ^ 32 - 1)) as [E|E].
    - rewrite E. reflexivity.
    - rewrite (Z.mod_small 1) by lia. apply Z.mod_small. lia. }
  rewrite E.
  destruct (Z.eqb_spec (Z.of_N n mod 2 ^ 32) (2 ^ 32 - 1)) as [E1|E1];
    destruct (Z.ltb_spec (Z.of_N n mod 2 ^ 32) (2 ^ 31));
    try destruct (Z.ltb_spec (Z.of_N n mod 2 ^ 32 + 1) (2 ^ 31));
    try destruct (Z.ltb_spec 0 (2 ^ 31)); lia.
Qed.

Section WithCuda.

Variable cudaStream_t : Type.
Variable cudaEvent_t : Type.
Variable MPI_Comm : Type.
Variable Cuda : Type.
Variable cudaStreamCreate : Cuda -> cudaStream_t * Cuda.
Variable cudaEventCreateWithFlags : Cuda -> cudaEvent_t * Cuda.
Variable stream0 : cudaStream_t.

Local Abbreviation Platform := (PlatformRes.Platform cudaStream_t cudaEvent_t MPI_Comm).
Local Abbreviation consistent := (@consistent cudaStream_t cudaEvent_t MPI_Comm).
Local Abbreviation new_Platform := (@new_Platform cudaStream_t cudaEvent_t MPI_Comm stream0).
Local Abbreviation reserve_loop := (@reserve_loop cudaStream_t cudaEvent_t MPI_Comm Cuda cudaEventCreateWithFlags).
Local Abbreviation reserve_events := (@reserve_events cudaStream_t cudaEvent_t MPI_Comm Cuda cudaEventCreateWithFlags).
Local Abbreviation new_event := (@new_event cudaStream_t cudaEvent_t MPI_Comm Cuda cudaEventCreateWithFlags).
Local Abbreviation ensure_events := (@ensure_events cudaStream_t cudaEvent_t MPI_Comm Cuda cudaEventCreateWithFlags).
Local Abbreviation new_stream := (@new_stream cudaStream_t cudaEvent_t MPI_Comm Cuda cudaStreamCreate).
Local Abbreviation ensure_loop := (@ensure_loop cudaStream_t cudaEvent_t MPI_Comm Cuda cudaStreamCreate).
Local Abbreviation ensure_streams := (@ensure_streams cudaStream_t cudaEvent_t MPI_Comm Cuda cudaStreamCreate).
Local Abbreviation make_n_streams := (@make_n_streams cudaStream_t cudaEvent_t MPI_Comm Cuda cudaStreamCreate stream0).
Local Abbreviation create_events := (create_events cudaEvent_t Cuda cudaEventCreateWithFlags).
Local Abbreviation create_streams := (create_streams cudaStream_t Cuda cudaStreamCreate).
Local Abbreviation add_events := (add_events cudaStream_t cudaEvent_t MPI_Comm).
Local Abbreviation add_streams := (add_streams cudaStream_t cudaEvent_t MPI_Comm).
Local Abbreviation set_iEvent := (set_iEvent cudaStream_t cudaEvent_t MPI_Comm).
Local Abbreviation run_call := (run_call cudaStream_t cudaEvent_t MPI_Comm Cuda cudaStreamCreate cudaEventCreateWithFlags).
Local Abbreviation run_calls := (run_calls cudaStream_t cudaEvent_t MPI_Comm Cuda cudaStreamCreate cudaEventCreateWithFlags).
Local Abbreviation new_events := (new_events cudaStream_t cudaEvent_t MPI_Comm Cuda cudaEventCreateWithFlags).

(** *** Events *)

Lemma create_events_length (k : nat) (cu : Cuda) :
  List.length (fst (create_events k cu)) = k.
Proof.
  revert cu. induction k as [|k IH]; intros cu; simpl; [reflexivity|].
  destruct (cudaEventCreateWithFlags cu) as [e cu'].
  specialize (IH cu'). destruct (create_events k cu'). simpl in *. lia.
Qed.

Lemma add_events_nil (p : Platform) : add_events p [] = p.
Proof. destruct p. unfold PlatformSpec.add_events. simpl. rewrite app_nil_r. reflexivity. Qed.

(** The loop of [reserve_events] creates the events that are missing,
    and no more. *)
Lemma reserve_loop_spec (rounds : nat) (n : N) (cu : Cuda) (p : Platform) :
  N.to_nat (n - size (events_ p)) <= rounds ->
  reserve_loop rounds n cu p
  = Ok (snd (create_events (N.to_nat (n - size (events_ p))) cu),
        add_events p (fst (create_events (N.to_nat (n - size (events_ p))) cu))).
Proof.
  revert cu p. induction rounds as [|rounds IH]; intros cu p Hr.
  - simpl. destruct (N.ltb_spec (size (events_ p)) n) as [Hlt|Hge]; [lia|].
    replace (N.to_nat (n - size (events_ p))) with 0 by lia.
    simpl. rewrite add_events_nil. reflexivity.
  - simpl. destruct (N.ltb_spec (size (events_ p)) n) as [Hlt|Hge].
    + destruct (N.to_nat (n - size (events_ p))) as [|k] eqn:Ek; [lia|].
      simpl. destruct (cudaEventCreateWithFlags cu) as [e cu'].
      rewrite IH.
      * simpl. rewrite size_app. change (size [e]) with 1%N.
        replace (N.to_nat (n - (size (events_ p) + 1))) with k by lia.
        destruct (create_events k cu') as [es cu'']. simpl.
        unfold PlatformSpec.add_events. simpl. rewrite <- app_assoc. reflexivity.
      * simpl. rewrite size_app. change (size [e]) with 1%N. lia.
    + replace (N.to_nat (n - size (events_ p))) with 0 by lia.
      simpl. rewrite add_events_nil. reflexivity.
Qed.

Lemma reserve_events_spec (n : N) (cu : Cuda) (p : Platform) :
  reserve_events n cu p
  = Ok (snd (create_events (N.to_nat (n - size (events_ p))) cu),
        add_events p (fst (create_events (N.to_nat (n - size (events_ p))) cu))).
Proof. unfold PlatformRes.reserve_events. apply reserve_loop_spec. lia. Qed.

Lemma is_ok_Ok {A : Type} (m : Outcome A) : is_ok m = true <-> exists a, m = Ok a.
Proof.
  destruct m; simpl; split; intros H; try discriminate; try reflexivity;
    try (destruct H; discriminate).
  exists a. reflexivity.
Qed.

(** [cuda_event] hands out the [cudaEvent_t] of the handles given out so
    far. *)
Lemma cuda_event_Ok (p : Platform) (e : Event) (h : cudaEvent_t) :
  cuda_event p e = Ok h <->
  (event_id e < iEvent_ p)%N /\
  nth_error (events_ p) (N.to_nat (event_id e)) = Some h.
Proof.
  unfold cuda_event.
  destruct (N.leb_spec (size (events_ p)) (event_id e)) as [H1|H1].
  - split; [discriminate|]. intros [_ H].
    assert (N.to_nat (event_id e) < List.length (events_ p))
      by (apply nth_error_Some; rewrite H; discriminate).
    unfold size in H1. lia.
  - destruct (N.leb_spec (iEvent_ p) (event_id e)) as [H2|H2].
    + split; [discriminate|]. intros [H _]. lia.
    + destruct (nth_error (events_ p) (N.to_nat (event_id e))) as [h'|] eqn:E.
      * split; [intros [= <-]; auto|intros [_ [= <-]]; reflexivity].
      * apply nth_error_None in E. unfold size in H1. lia.
Qed.

Lemma cuda_event_is_ok (p : Platform) (e : Event) :
  consistent p ->
  (is_ok (cuda_event p e) = true <-> (event_id e < iEvent_ p)%N).
Proof.
  intros Hc. rewrite is_ok_Ok. split.
  - intros [h H]. apply cuda_event_Ok in H. tauto.
  - intros H. pose proof (c_events _ _ _ p Hc) as Hev. unfold size in Hev.
    destruct (nth_error (events_ p) (N.to_nat (event_id e))) as [h|] eqn:E.
    + exists h. apply cuda_event_Ok. auto.
    + apply nth_error_None in E. lia.
Qed.

Lemma consistent_add_events (p : Platform) (es : list cudaEvent_t) :
  consistent p -> consistent (add_events p es).
Proof.
  intros [H1 H2 H3 H4]. constructor; simpl; auto.
  rewrite size_app. lia.
Qed.

Lemma consistent_set_iEvent (p : Platform) (n : N) :
  consistent p -> (n <= size (events_ p))%N -> consistent (set_iEvent p n).
Proof. intros [H1 H2 H3 H4] Hn. constructor; simpl; auto. Qed.

(** The events missing for [n] handles: none when enough are reserved. *)
Lemma create_events_none (n : N) (cu : Cuda) (p : Platform) :
  (n <= size (events_ p))%N ->
  create_events (N.to_nat (n - size (events_ p))) cu = ([], cu).
Proof. intros H. replace (N.to_nat (n - size (events_ p))) with 0 by lia. reflexivity. Qed.

(** X5: [new_event] on a platform whose bookkeeping is in order, with fewer
    than 2^32 handles given out: the handle returned is the next id; it
    was refused by [cuda_event] before and is accepted now; every handle
    accepted before keeps its [cudaEvent_t]; a CUDA event is created only
    when none is left in reserve. *)
Theorem new_event_next_handle (cu : Cuda) (p : Platform) :
  consistent p -> (iEvent_ p < 2 ^ 32)%N ->
  exists cu' p',
    new_event cu p = Ok (mkEvent (iEvent_ p), cu', p') /\
    consistent p' /\
    iEvent_ p' = (iEvent_ p + 1)%N /\
    is_ok (cuda_event p (mkEvent (iEvent_ p))) = false /\
    is_ok (cuda_event p' (mkEvent (iEvent_ p))) = true /\
    (forall e h, cuda_event p e = Ok h -> cuda_event p' e = Ok h) /\
    ((iEvent_ p < size (events_ p))%N -> cu' = cu /\ events_ p' = events_ p) /\
    ((iEvent_ p = size (events_ p))%N ->
       cu' = snd (cudaEventCreateWithFlags cu) /\
       events_ p' = events_ p ++ [fst (cudaEventCreateWithFlags cu)]) /\
    streams_ p' = streams_ p /\ cStreams_ p' = cStreams_ p.
Proof.
  intros Hc Hi.
  pose proof (c_events _ _ _ p Hc) as Hev.
  unfold PlatformRes.new_event. rewrite reserve_events_spec. cbn [bind].
  rewrite !size_add_fits by (simpl; lia).
  set (k := N.to_nat (iEvent_ p + 1 - size (events_ p))).
  destruct (create_events k cu) as [es cu'] eqn:Ecreate. cbn [fst snd].
  cbn [iEvent_ PlatformSpec.add_events cStreams_ events_ comm_ streams_].
  rewrite unsigned_of_size_small by exact Hi.
  eexists. eexists. split; [reflexivity|].
  assert (Hes : (iEvent_ p + 1 <= size (events_ p ++ es))%N).
  { rewrite size_app. pose proof (create_events_length k cu) as Hl.
    rewrite Ecreate in Hl. simpl in Hl. unfold size in *. subst k. lia. }
  assert (Hc' : consistent
                  (mkPlatform (iEvent_ p + 1) (cStreams_ p) (events_ p ++ es)
                              (comm_ p) (streams_ p))).
  { destruct Hc as [H1 H2 H3 H4]. constructor; simpl; auto. }
  split; [exact Hc'|]. split; [reflexivity|].
  split.
  { destruct (is_ok (cuda_event p (mkEvent (iEvent_ p)))) eqn:E; [|reflexivity].
    apply (cuda_event_is_ok p _ Hc) in E. simpl in E. lia. }
  split.
  { apply (cuda_event_is_ok _ _ Hc'). simpl. lia. }
  split.
  { intros e h H. apply cuda_event_Ok in H. destruct H as [H1 H2].
    apply cuda_event_Ok. simpl. split; [lia|].
    rewrite nth_error_app1; [exact H2|].
    apply nth_error_Some. rewrite H2. discriminate. }
  split.
  { intros Hlt. subst k.
    replace (N.to_nat (iEvent_ p + 1 - size (events_ p))) with 0 in Ecreate by lia.
    simpl in Ecreate. injection Ecreate as <- <-. simpl.
    rewrite app_nil_r. auto. }
  split.
  { intros Heq. subst k.
    replace (N.to_nat (iEvent_ p + 1 - size (events_ p))) with 1 in Ecreate by lia.
    simpl in Ecreate. destruct (cudaEventCreateWithFlags cu) as [e0 cu0].
    injection Ecreate as <- <-. simpl. auto. }
  simpl. auto.
Qed.

Lemma set_iEvent_same (p : Platform) : set_iEvent p (iEvent_ p) = p.
Proof. destruct p. reflexivity. Qed.

(** Handles given out while events are left in reserve: no CUDA call. *)
Lemma new_events_reserved (p : Platform) (cu : Cuda) (m j : nat) :
  (N.of_nat (j + m) <= size (events_ p))%N ->
  (N.of_nat (j + m) <= 2 ^ 32)%N ->
  new_events m cu (set_iEvent p (N.of_nat j))
  = Ok (map (fun i => mkEvent (N.of_nat i)) (seq j m), cu,
        set_iEvent p (N.of_nat (j + m))).
Proof.
  revert j. induction m as [|m IH]; intros j Hs Hb.
  - simpl. rewrite Nat.add_0_r. reflexivity.
  - cbn [PlatformSpec.new_events]. unfold PlatformRes.new_event.
    rewrite reserve_events_spec.
    cbn [iEvent_ events_ PlatformSpec.set_iEvent].
    rewrite size_add_fits by lia.
    rewrite create_events_none by (simpl; lia).
    cbn [fst snd bind]. rewrite add_events_nil.
    cbn [iEvent_ events_ cStreams_ comm_ streams_ PlatformSpec.set_iEvent bind].
    rewrite unsigned_of_size_small by lia.
    rewrite size_add_fits by lia.
    replace (N.of_nat j + 1)%N with (N.of_nat (S j)) by lia.
    change (mkPlatform (N.of_nat (S j)) (cStreams_ p) (events_ p) (comm_ p) (streams_ p))
      with (set_iEvent p (N.of_nat (S j))).
    rewrite IH by lia.
    cbn [bind]. rewrite Nat.add_succ_comm. reflexivity.
Qed.

(** X6: [reset_dynamic_resources] takes every handle back and keeps the
    events: afterwards [cuda_event] refuses every handle, a handle whose
    event is reserved with "requested invalid event handle"; asking anew
    for as many handles as were out gives the same handles on the same
    events without a CUDA call, and the platform is as before the reset. *)
Theorem reset_reuses_events (cu : Cuda) (p : Platform) :
  consistent p -> (iEvent_ p <= 2 ^ 32)%N ->
  (forall e, is_ok (cuda_event (reset_dynamic_resources p) e) = false) /\
  (forall e, (event_id e < size (events_ p))%N ->
     cuda_event (reset_dynamic_resources p) e
     = Throw ("requested invalid event handle " ++ show_unsigned (event_id e))) /\
  new_events (N.to_nat (iEvent_ p)) cu (reset_dynamic_resources p)
  = Ok (events_upto (N.to_nat (iEvent_ p)), cu, p).
Proof.
  intros Hc Hb. pose proof (c_events _ _ _ p Hc) as Hev.
  split; [|split].
  - intros e. unfold cuda_event. simpl.
    destruct (N.leb_spec (size (events_ p)) (event_id e)); [reflexivity|].
    destruct (N.leb_spec 0 (event_id e)); [reflexivity|lia].
  - intros e He. unfold cuda_event. simpl.
    destruct (N.leb_spec (size (events_ p)) (event_id e)); [lia|].
    destruct (N.leb_spec 0 (event_id e)); [reflexivity|lia].
  - change (reset_dynamic_resources p) with (set_iEvent p (N.of_nat 0)).
    rewrite new_events_reserved by (simpl; lia).
    simpl. rewrite N2Nat.id, set_iEvent_same. reflexivity.
Qed.

(** X7: [ensure_events(n)] makes the handles [0 .. n-1] valid and takes
    none back: afterwards [cuda_event] accepts exactly the handles below
    the larger of [n] and the number given out before, every handle
    accepted before keeps its [cudaEvent_t], no CUDA event is created when
    [n] are reserved, and a second call changes nothing. *)
Theorem ensure_events_valid_handles (n : N) (cu : Cuda) (p : Platform) :
  consistent p ->
  exists cu' p',
    ensure_events n cu p = Ok (cu', p') /\
    consistent p' /\
    iEvent_ p' = N.max (iEvent_ p) n /\
    (forall e, is_ok (cuda_event p' e) = true <->
               (event_id e < N.max (iEvent_ p) n)%N) /\
    (forall e h, cuda_event p e = Ok h -> cuda_event p' e = Ok h) /\
    ((n <= size (events_ p))%N -> cu' = cu /\ events_ p' = events_ p) /\
    ensure_events n cu' p' = Ok (cu', p').
Proof.
  intros Hc. pose proof (c_events _ _ _ p Hc) as Hev.
  unfold PlatformRes.ensure_events at 1. rewrite reserve_events_spec. cbn [bind].
  set (k := N.to_nat (n - size (events_ p))).
  pose proof (create_events_length k cu) as Hl.
  destruct (create_events k cu) as [es cu'] eqn:Ecreate. cbn [fst snd] in *.
  set (p1 := add_events p es).
  set (p' := if (iEvent_ p1 <? n)%N
             then mkPlatform n (cStreams_ p1) (events_ p1) (comm_ p1) (streams_ p1)
             else p1).
  assert (Hsz : (n <= size (events_ p ++ es))%N).
  { rewrite size_app. unfold size in *. subst k. lia. }
  assert (Hp' : p' = set_iEvent p1 (N.max (iEvent_ p) n)).
  { subst p'. simpl. destruct (N.ltb_spec (iEvent_ p) n).
    - rewrite N.max_r by lia. reflexivity.
    - rewrite N.max_l by lia. subst p1. destruct p. reflexivity. }
  assert (Hc' : consistent p').
  { rewrite Hp'. apply consistent_set_iEvent.
    - apply consistent_add_events, Hc.
    - simpl. rewrite size_app in *. lia. }
  exists cu', p'. split; [reflexivity|]. split; [exact Hc'|].
  split; [rewrite Hp'; reflexivity|].
  split.
  { intros e. rewrite (cuda_event_is_ok p' e Hc'). rewrite Hp'. simpl.
    split; intros H; exact H. }
  split.
  { intros e h H. apply cuda_event_Ok in H. destruct H as [H1 H2].
    apply cuda_event_Ok. rewrite Hp'. simpl. split; [lia|].
    rewrite nth_error_app1; [exact H2|].
    apply nth_error_Some. rewrite H2. discriminate. }
  split.
  { intros Hle. subst k. rewrite create_events_none in Ecreate by exact Hle.
    injection Ecreate as <- <-. rewrite Hp'. simpl. rewrite app_nil_r. auto. }
  unfold PlatformRes.ensure_events. rewrite reserve_events_spec.
  rewrite create_events_none by (rewrite Hp'; simpl; exact Hsz).
  cbn [fst snd bind]. rewrite add_events_nil.
  replace (iEvent_ p' <? n)%N with false; [reflexivity|].
  symmetry. apply N.ltb_ge. rewrite Hp'. simpl. lia.
Qed.

(** *** Streams *)

Lemma cuda_stream_Ok (p : Platform) (s : Stream) (h : cudaStream_t) :
  cuda_stream p s = Ok h <->
  (stream_id s < size (streams_ p))%N /\
  nth_error (cStreams_ p) (N.to_nat (stream_id s)) = Some h.
Proof.
  unfold cuda_stream.
  destruct (N.leb_spec (size (streams_ p)) (stream_id s)) as [H1|H1].
  - split; [discriminate|]. intros [H _]. lia.
  - destruct (nth_error (cStreams_ p) (N.to_nat (stream_id s))) as [h'|] eqn:E.
    + split; [intros [= <-]; auto|intros [_ [= <-]]; reflexivity].
    + split; [discriminate|]. intros [_ H]. discriminate.
Qed.

Lemma cuda_stream_is_ok (p : Platform) (s : Stream) :
  consistent p ->
  (is_ok (cuda_stream p s) = true <-> (stream_id s < size (streams_ p))%N).
Proof.
  intros Hc. rewrite is_ok_Ok. split.
  - intros [h H]. apply cuda_stream_Ok in H. tauto.
  - intros H. pose proof (c_sizes _ _ _ p Hc) as Hs. unfold size in H.
    destruct (nth_error (cStreams_ p) (N.to_nat (stream_id s))) as [h|] eqn:E.
    + exists h. apply cuda_stream_Ok. auto.
    + apply nth_error_None in E. lia.
Qed.

Lemma num_streams_consistent (p : Platform) :
  consistent p -> num_streams p = Ok (int_of_size (size (streams_ p) - 1)).
Proof.
  intros [H1 H2 _ _]. unfold num_streams, size. rewrite H1, N.eqb_refl. simpl.
  destruct (streams_ p); [contradiction|reflexivity].
Qed.

Lemma create_streams_length (k : nat) (cu : Cuda) :
  List.length (fst (create_streams k cu)) = k.
Proof.
  revert cu. induction k as [|k IH]; intros cu; simpl; [reflexivity|].
  destruct (cudaStreamCreate cu) as [e cu'].
  specialize (IH cu'). destruct (create_streams k cu'). simpl in *. lia.
Qed.

Lemma next_streams_length (first k : nat) : List.length (next_streams first k) = k.
Proof. unfold next_streams. rewrite length_map, length_seq. reflexivity. Qed.

Lemma add_streams_nil (p : Platform) : add_streams p [] = p.
Proof.
  destruct p. unfold PlatformSpec.add_streams, next_streams. simpl.
  rewrite !app_nil_r. reflexivity.
Qed.

Lemma add_streams_cons (p : Platform) (c : cudaStream_t) (cs : list cudaStream_t) :
  add_streams (add_streams p [c]) cs = add_streams p (c :: cs).
Proof.
  unfold PlatformSpec.add_streams, next_streams. simpl.
  rewrite <- !app_assoc. simpl. rewrite length_app. simpl.
  rewrite Nat.add_1_r. reflexivity.
Qed.

Lemma consistent_add_streams (p : Platform) (cs : list cudaStream_t) :
  consistent p -> consistent (add_streams p cs).
Proof.
  intros [H1 H2 H3 H4]. constructor; simpl; auto.
  - rewrite !length_app, next_streams_length. lia.
  - intros E. apply app_eq_nil in E. destruct E as [E _]. contradiction.
  - intros i s Hi.
    destruct (Nat.lt_ge_cases i (List.length (streams_ p))) as [Hlt|Hge].
    + rewrite nth_error_app1 in Hi by exact Hlt. apply H3, Hi.
    + rewrite nth_error_app2 in Hi by exact Hge.
      unfold next_streams in Hi. rewrite nth_error_map in Hi.
      destruct (nth_error (seq (List.length (streams_ p)) (List.length cs))
                          (i - List.length (streams_ p))) as [j|] eqn:Ej;
        [|discriminate].
      simpl in Hi. injection Hi as <-. simpl.
      assert (Hlt : i - List.length (streams_ p) < List.length cs).
      { assert (H : nth_error (seq (List.length (streams_ p)) (List.length cs))
                              (i - List.length (streams_ p)) <> None)
          by (rewrite Ej; discriminate).
        apply nth_error_Some in H. rewrite length_seq in H. exact H. }
      apply nth_error_nth with (d := 0) in Ej. rewrite seq_nth in Ej by exact Hlt.
      f_equal. f_equal. lia.
Qed.

Lemma new_stream_add (cu : Cuda) (p : Platform) :
  new_stream cu p
  = (mkStream (unsigned_of_size (size (streams_ p))),
     snd (cudaStreamCreate cu),
     add_streams p [fst (cudaStreamCreate cu)]).
Proof.
  unfold PlatformRes.new_stream. destruct (cudaStreamCreate cu) as [s cu'].
  reflexivity.
Qed.

(** The loop of [ensure_streams] creates the streams that are missing,
    and no more. *)
Lemma ensure_loop_spec (rounds : nat) (n : Z) (cu : Cuda) (p : Platform) :
  consistent p -> (n < 2 ^ 31)%Z ->
  Z.to_nat (n - int_of_size (size (streams_ p) - 1)) <= rounds ->
  ensure_loop rounds n cu p
  = Ok (snd (create_streams (Z.to_nat (n - int_of_size (size (streams_ p) - 1))) cu),
        add_streams p
          (fst (create_streams (Z.to_nat (n - int_of_size (size (streams_ p) - 1))) cu))).
Proof.
  intros Hc Hn. revert cu p Hc.
  induction rounds as [|rounds IH]; intros cu p Hc Hr.
  - cbn [PlatformRes.ensure_loop]. rewrite (num_streams_consistent p Hc). cbn [bind].
    destruct (Z.ltb_spec (int_of_size (size (streams_ p) - 1)) n); [lia|].
    replace (Z.to_nat (n - int_of_size (size (streams_ p) - 1))) with 0 by lia.
    simpl. rewrite add_streams_nil. reflexivity.
  - cbn [PlatformRes.ensure_loop]. rewrite (num_streams_consistent p Hc). cbn [bind].
    destruct (Z.ltb_spec (int_of_size (size (streams_ p) - 1)) n) as [Hlt|Hge].
    + rewrite new_stream_add.
      assert (Hne : (1 <= size (streams_ p))%N).
      { pose proof (c_default _ _ _ p Hc). unfold size.
        destruct (streams_ p); [contradiction|simpl; lia]. }
      assert (Hsucc : int_of_size (size (streams_ (add_streams p [fst (cudaStreamCreate cu)])) - 1)
                      = (int_of_size (size (streams_ p) - 1) + 1)%Z).
      { simpl. rewrite size_app. change (size _) with 1%N at 2.
        replace (size (streams_ p) + 1 - 1)%N with (size (streams_ p) - 1 + 1)%N by lia.
        apply int_of_size_succ. lia. }
      rewrite IH.
      * rewrite Hsucc.
        destruct (Z.to_nat (n - int_of_size (size (streams_ p) - 1))) as [|k] eqn:Ek;
          [lia|].
        replace (Z.to_nat (n - (int_of_size (size (streams_ p) - 1) + 1))) with k by lia.
        simpl. destruct (cudaStreamCreate cu) as [s cu']. simpl.
        destruct (create_streams k cu') as [ss cu'']. simpl.
        rewrite add_streams_cons. reflexivity.
      * apply consistent_add_streams, Hc.
      * rewrite Hsucc. lia.
    + replace (Z.to_nat (n - int_of_size (size (streams_ p) - 1))) with 0 by lia.
      simpl. rewrite add_streams_nil. reflexivity.
Qed.

Lemma ensure_streams_spec (n : Z) (cu : Cuda) (p : Platform) :
  consistent p -> (n < 2 ^ 31)%Z ->
  ensure_streams n cu p
  = Ok (snd (create_streams (Z.to_nat (n - int_of_size (size (streams_ p) - 1))) cu),
        add_streams p
          (fst (create_streams (Z.to_nat (n - int_of_size (size (streams_ p) - 1))) cu))).
Proof.
  intros Hc Hn. unfold PlatformRes.ensure_streams.
  rewrite (num_streams_consistent p Hc). cbn [bind].
  apply ensure_loop_spec; auto.
Qed.

Lemma consistent_new_Platform (comm : MPI_Comm) : consistent (new_Platform comm).
Proof.
  constructor; simpl; auto.
  - discriminate.
  - intros [|[|i]] s H; simpl in H; try discriminate.
    injection H as <-. reflexivity.
  - unfold size. simpl. lia.
Qed.

Lemma next_streams_small (first k : nat) :
  (N.of_nat (first + k) <= 2 ^ 32)%N ->
  next_streams first k = map (fun i => mkStream (N.of_nat i)) (seq first k).
Proof.
  intros H. unfold next_streams. apply map_ext_in. intros i Hi.
  apply in_seq in Hi. rewrite unsigned_of_size_small by lia. reflexivity.
Qed.

(** X2: [make_n_streams(n, comm)] for an [int] [n]: the platform holds the
    default stream and [n] streams more, with the ids [0 .. n] in order
    and one [cudaStreamCreate] for each of the [n]; no event is reserved.
    [num_streams] is [n], and [cuda_stream] accepts exactly the ids up to
    [n].  For [n <= 0] the platform is the one the constructor makes. *)
Theorem make_n_streams_streams (n : Z) (comm : MPI_Comm) (cu : Cuda) :
  (n < 2 ^ 31)%Z ->
  exists p,
    make_n_streams n comm cu = Ok (snd (create_streams (Z.to_nat n) cu), p) /\
    p = mkPlatform 0 (stream0 :: fst (create_streams (Z.to_nat n) cu)) [] comm
                   (streams_upto (S (Z.to_nat n))) /\
    num_streams p = Ok (Z.max 0 n) /\
    (forall s, is_ok (cuda_stream p s) = true <-> (Z.of_N (stream_id s) <= Z.max 0 n)%Z) /\
    ((n <= 0)%Z -> p = new_Platform comm).
Proof.
  intros Hn. unfold PlatformRes.make_n_streams.
  rewrite (ensure_streams_spec n cu _ (consistent_new_Platform comm) Hn).
  change (int_of_size (size (streams_ (new_Platform comm)) - 1)) with 0%Z.
  rewrite Z.sub_0_r.
  pose proof (create_streams_length (Z.to_nat n) cu) as Hl.
  pose proof (consistent_add_streams (new_Platform comm)
                (fst (create_streams (Z.to_nat n) cu))
                (consistent_new_Platform comm)) as Hc.
  destruct (create_streams (Z.to_nat n) cu) as [cs cu'] eqn:Ecreate.
  cbn [fst snd] in *.
  assert (Hp : add_streams (new_Platform comm) cs
               = mkPlatform 0 (stream0 :: cs) [] comm (streams_upto (S (Z.to_nat n)))).
  { unfold PlatformSpec.add_streams. simpl. rewrite Hl.
    rewrite next_streams_small by lia. reflexivity. }
  eexists. split; [reflexivity|]. split; [exact Hp|].
  assert (Hsize : size (streams_ (add_streams (new_Platform comm) cs))
                  = (1 + N.of_nat (Z.to_nat n))%N).
  { rewrite Hp. unfold size, streams_upto. cbn [streams_].
    rewrite length_map, length_seq. lia. }
  split; [|split].
  - rewrite (num_streams_consistent _ Hc), Hsize.
    rewrite int_of_size_fits by lia. f_equal. lia.
  - intros s. rewrite (cuda_stream_is_ok _ s Hc), Hsize. lia.
  - intros H0. rewrite Hp. replace (Z.to_nat n) with 0 in * by lia.
    destruct cs; [reflexivity|discriminate].
Qed.

(** X3: [ensure_streams(n)] on a platform whose bookkeeping is in order,
    with at most 2^31 streams and [n] an [int]: afterwards [num_streams]
    is the larger of [n] and what it was, every stream accepted before
    keeps its [cudaStream_t], the events are untouched, nothing happens
    when enough streams exist, and a second call changes nothing. *)
Theorem ensure_streams_enough (n : Z) (cu : Cuda) (p : Platform) :
  consistent p -> (n < 2 ^ 31)%Z -> (size (streams_ p) <= 2 ^ 31)%N ->
  exists cu' p',
    ensure_streams n cu p = Ok (cu', p') /\
    consistent p' /\
    num_streams p' = Ok (Z.max (Z.of_N (size (streams_ p)) - 1) n) /\
    (forall s h, cuda_stream p s = Ok h -> cuda_stream p' s = Ok h) /\
    (forall e, cuda_event p' e = cuda_event p e) /\
    ((n <= Z.of_N (size (streams_ p)) - 1)%Z -> cu' = cu /\ p' = p) /\
    ensure_streams n cu' p' = Ok (cu', p').
Proof.
  intros Hc Hn Hs.
  assert (Hne : (1 <= size (streams_ p))%N).
  { pose proof (c_default _ _ _ p Hc). unfold size.
    destruct (streams_ p); [contradiction|simpl; lia]. }
  assert (Hns : int_of_size (size (streams_ p) - 1) = (Z.of_N (size (streams_ p)) - 1)%Z).
  { rewrite int_of_size_fits by lia. lia. }
  rewrite (ensure_streams_spec n cu p Hc Hn). rewrite Hns.
  set (k := Z.to_nat (n - (Z.of_N (size (streams_ p)) - 1))).
  pose proof (create_streams_length k cu) as Hl.
  destruct (create_streams k cu) as [cs cu'] eqn:Ecreate. cbn [fst snd] in *.
  pose proof (consistent_add_streams p cs Hc) as Hc'.
  assert (Hsize : size (streams_ (add_streams p cs)) = (size (streams_ p) + N.of_nat k)%N).
  { simpl. rewrite size_app. unfold size at 2. rewrite next_streams_length, Hl.
    reflexivity. }
  assert (Hnum : int_of_size (size (streams_ (add_streams p cs)) - 1)
                 = Z.max (Z.of_N (size (streams_ p)) - 1) n).
  { rewrite Hsize. rewrite int_of_size_fits by lia. lia. }
  exists cu', (add_streams p cs).
  split; [reflexivity|]. split; [exact Hc'|].
  split; [rewrite (num_streams_consistent _ Hc'), Hnum; reflexivity|].
  split.
  { intros s h H. apply cuda_stream_Ok in H. destruct H as [H1 H2].
    apply cuda_stream_Ok. rewrite Hsize. split; [lia|]. simpl.
    rewrite nth_error_app1; [exact H2|].
    apply nth_error_Some. rewrite H2. discriminate. }
  split; [reflexivity|].
  split.
  { intros Hle. subst k.
    replace (Z.to_nat (n - (Z.of_N (size (streams_ p)) - 1))) with 0 in * by lia.
    simpl in Ecreate. injection Ecreate as <- <-.
    rewrite add_streams_nil. auto. }
  rewrite (ensure_streams_spec n cu' _ Hc' Hn), Hnum.
  replace (Z.to_nat (n - Z.max (Z.of_N (size (streams_ p)) - 1) n)) with 0 by lia.
  simpl. rewrite add_streams_nil. reflexivity.
Qed.

(** X4: [new_stream] on a platform whose bookkeeping is in order, with
    fewer than 2^32 streams: the stream returned has the next id and the
    [cudaStream_t] just created; [cuda_stream] refused it before and
    accepts it now; every stream accepted before keeps its
    [cudaStream_t], and the events are untouched. *)
Theorem new_stream_next_stream (cu : Cuda) (p : Platform) :
  consistent p -> (size (streams_ p) < 2 ^ 32)%N ->
  exists p',
    new_stream cu p = (mkStream (size (streams_ p)), snd (cudaStreamCreate cu), p') /\
    consistent p' /\
    is_ok (cuda_stream p (mkStream (size (streams_ p)))) = false /\
    cuda_stream p' (mkStream (size (streams_ p))) = Ok (fst (cudaStreamCreate cu)) /\
    (forall s h, cuda_stream p s = Ok h -> cuda_stream p' s = Ok h) /\
    (forall e, cuda_event p' e = cuda_event p e).
Proof.
  intros Hc Hs. rewrite new_stream_add.
  rewrite unsigned_of_size_small by exact Hs.
  set (h := fst (cudaStreamCreate cu)).
  pose proof (consistent_add_streams p [h] Hc) as Hc'.
  exists (add_streams p [h]).
  split; [reflexivity|]. split; [exact Hc'|].
  split.
  { destruct (is_ok (cuda_stream p (mkStream (size (streams_ p))))) eqn:E;
      [|reflexivity].
    apply (cuda_stream_is_ok p _ Hc) in E. simpl in E. lia. }
  split.
  { apply cuda_stream_Ok. simpl. rewrite size_app. split.
    - unfold next_streams. simpl. change (size [_]) with 1%N. lia.
    - pose proof (c_sizes _ _ _ p Hc) as Hsz.
      rewrite nth_error_app2 by (unfold size; lia).
      unfold size. rewrite Nat2N.id, Hsz, Nat.sub_diag. reflexivity. }
  split; [|reflexivity].
  intros s h0 H. apply cuda_stream_Ok in H. destruct H as [H1 H2].
  apply cuda_stream_Ok. simpl. rewrite size_app. split; [lia|].
  rewrite nth_error_app1; [exact H2|].
  apply nth_error_Some. rewrite H2. discriminate.
Qed.

(** *** The member functions together *)

Lemma reserved_enough (n : N) (cu : Cuda) (p : Platform) :
  (n <= size (events_ p ++ fst (create_events (N.to_nat (n - size (events_ p))) cu)))%N.
Proof.
  rewrite size_app. unfold size at 2. rewrite create_events_length. lia.
Qed.

Lemma run_call_consistent (c : Call) (cu : Cuda) (p : Platform) :
  consistent p -> int_args c ->
  exists cu' p',
    run_call c cu p = Ok (cu', p') /\ consistent p' /\ comm_ p' = comm_ p.
Proof.
  intros Hc Hi. destruct c as [| | |n|n|n]; cbn [PlatformSpec.run_call].
  - eexists. eexists. split; [reflexivity|]. split; [|reflexivity].
    destruct Hc as [H1 H2 H3 H4]. constructor; simpl; auto. lia.
  - unfold PlatformRes.new_event. rewrite reserve_events_spec. cbn [bind fst snd].
    eexists. eexists. split; [reflexivity|]. split; [|reflexivity].
    pose proof (reserved_enough (size_add (iEvent_ p) 1) cu p) as Hr.
    destruct Hc as [H1 H2 H3 H4]. constructor; simpl; auto.
  - rewrite new_stream_add. cbn [fst snd].
    eexists. eexists. split; [reflexivity|]. split; [|reflexivity].
    apply consistent_add_streams, Hc.
  - rewrite (ensure_streams_spec n cu p Hc Hi).
    eexists. eexists. split; [reflexivity|]. split; [|reflexivity].
    apply consistent_add_streams, Hc.
  - rewrite reserve_events_spec.
    eexists. eexists. split; [reflexivity|]. split; [|reflexivity].
    apply consistent_add_events, Hc.
  - unfold PlatformRes.ensure_events. rewrite reserve_events_spec. cbn [bind fst snd].
    eexists. eexists. split; [reflexivity|].
    pose proof (reserved_enough n cu p) as Hr.
    pose proof (consistent_add_events p
                  (fst (create_events (N.to_nat (n - size (events_ p))) cu)) Hc) as Hc'.
    destruct (iEvent_ (add_events p _) <? n)%N.
    + split; [|reflexivity].
      destruct Hc' as [H1 H2 H3 H4]. constructor; simpl; auto.
    + split; [exact Hc'|reflexivity].
Qed.

Lemma run_calls_consistent (calls : list Call) (cu : Cuda) (p : Platform) :
  consistent p -> Forall int_args calls ->
  exists cu' p',
    run_calls calls cu p = Ok (cu', p') /\ consistent p' /\ comm_ p' = comm_ p.
Proof.
  revert cu p. induction calls as [|c calls IH]; intros cu p Hc Hi.
  - exists cu, p. auto.
  - inversion Hi as [|c0 l0 Hi1 Hi2]; subst.
    destruct (run_call_consistent c cu p Hc Hi1) as (cu1 & p1 & E1 & Hc1 & Hm1).
    destruct (IH cu1 p1 Hc1 Hi2) as (cu2 & p2 & E2 & Hc2 & Hm2).
    exists cu2, p2. cbn [PlatformSpec.run_calls]. rewrite E1. cbn [bind fst snd].
    split; [exact E2|]. split; [exact Hc2|]. congruence.
Qed.

(** X1: whatever member functions are called on a platform after its
    constructor ([reset_dynamic_resources], [new_event], [new_stream],
    [ensure_streams] with an [int], [reserve_events], [ensure_events]),
    none of them throws, and the bookkeeping stays in order: [streams_]
    and [cStreams_] have one size, the default stream is there, every
    stream sits at the position its id names, and an event is reserved for
    every handle given out.  So [num_streams] does not throw, and
    [cuda_stream] and [cuda_event] accept exactly the streams in
    [streams_] and the handles below [iEvent_]. *)
Theorem platform_bookkeeping (comm : MPI_Comm) (cu : Cuda) (calls : list Call) :
  Forall int_args calls ->
  exists cu' p',
    run_calls calls cu (new_Platform comm) = Ok (cu', p') /\
    consistent p' /\
    comm_ p' = comm /\
    is_ok (num_streams p') = true /\
    (forall s, is_ok (cuda_stream p' s) = true <-> (stream_id s < size (streams_ p'))%N) /\
    (forall e, is_ok (cuda_event p' e) = true <-> (event_id e < iEvent_ p')%N).
Proof.
  intros Hi.
  destruct (run_calls_consistent calls cu _ (consistent_new_Platform comm) Hi)
    as (cu' & p' & E & Hc & Hm).
  exists cu', p'. split; [exact E|]. split; [exact Hc|]. split; [exact Hm|].
  split; [rewrite (num_streams_consistent p' Hc); reflexivity|].
  split; [intros s; apply cuda_stream_is_ok, Hc|intros e; apply cuda_event_is_ok, Hc].
Qed.

(** *** [ResourceMap] *)

Local Abbreviation EventMap := (PlatformRes.EventMap cudaEvent_t).
Local Abbreviation sorted_keys := (sorted_keys cudaEvent_t).
Local Abbreviation lookup := (lookup cudaEvent_t).

Lemma contains_cons (k : Event) (v : cudaEvent_t) (rest : EventMap) (event : Event) :
  contains ((k, v) :: rest) event
  = if event_lt event k then false
    else if event_lt k event then contains rest event else true.
Proof.
  unfold contains. simpl.
  destruct (event_lt event k); [reflexivity|].
  destruct (event_lt k event); reflexivity.
Qed.

(** The first key of a map is above [b]. *)
Lemma map_insert_head (b : N) (events : EventMap) (event : Event) (cevent : cudaEvent_t) :
  (b < event_id event)%N ->
  match events with [] => True | (k, _) :: _ => (b < event_id k)%N end ->
  match fst (map_insert events event cevent) with
  | [] => True
  | (k, _) :: _ => (b < event_id k)%N
  end.
Proof.
  intros Hb Hh. destruct events as [|[k v] rest]; simpl; [exact Hb|].
  destruct (event_lt event k); [exact Hb|].
  destruct (event_lt k event); [|exact Hh].
  destruct (map_insert rest event cevent). exact Hh.
Qed.

Lemma insert_spec (events : EventMap) (event : Event) (cevent : cudaEvent_t) :
  sorted_keys events ->
  sorted_keys (fst (map_insert events event cevent)) /\
  snd (map_insert events event cevent) = negb (contains events event) /\
  contains (fst (map_insert events event cevent)) event = true /\
  lookup (fst (map_insert events event cevent)) event
  = (if snd (map_insert events event cevent) then Some cevent else lookup events event) /\
  (forall other, event_eq other event = false ->
     contains (fst (map_insert events event cevent)) other = contains events other /\
     lookup (fst (map_insert events event cevent)) other = lookup events other).
Proof.
  assert (Hirr : event_lt event event = false)
    by (unfold event_lt; apply N.ltb_irrefl).
  assert (Hrefl : event_eq event event = true)
    by (unfold event_eq; apply N.eqb_refl).
  induction events as [|[k v] rest IH]; intros Hs.
  - cbn [map_insert fst snd]. rewrite contains_cons.
    cbn [PlatformSpec.lookup]. rewrite Hirr, Hrefl.
    split; [simpl; auto|]. split; [reflexivity|]. split; [reflexivity|].
    split; [reflexivity|]. intros other H. rewrite contains_cons.
    unfold event_lt, event_eq in *. apply N.eqb_neq in H. split.
    + destruct (N.ltb_spec (event_id other) (event_id event)); [reflexivity|].
      destruct (N.ltb_spec (event_id event) (event_id other)); [reflexivity|lia].
    + destruct (N.eqb_spec (event_id event) (event_id other)); [lia|reflexivity].
  - destruct Hs as [Hhead Hrest]. specialize (IH Hrest).
    destruct IH as (IH1 & IH2 & IH3 & IH4 & IH5).
    pose proof (map_insert_head (event_id k) rest event cevent) as Hins.
    cbn [map_insert]. rewrite !(contains_cons k v rest).
    destruct (event_lt event k) eqn:E1.
    + cbn [fst snd]. rewrite !contains_cons. cbn [PlatformSpec.lookup].
      rewrite Hirr, Hrefl.
      split; [simpl; unfold event_lt in E1; apply N.ltb_lt in E1; auto|].
      split; [reflexivity|]. split; [reflexivity|]. split; [reflexivity|].
      intros other Ho. rewrite !contains_cons.
      unfold event_lt, event_eq in *. apply N.eqb_neq in Ho. apply N.ltb_lt in E1.
      split.
      * destruct (N.ltb_spec (event_id other) (event_id event)).
        -- destruct (N.ltb_spec (event_id other) (event_id k)); [reflexivity|lia].
        -- destruct (N.ltb_spec (event_id event) (event_id other)); [reflexivity|lia].
      * destruct (N.eqb_spec (event_id event) (event_id other)); [lia|reflexivity].
    + destruct (event_lt k event) eqn:E2.
      * destruct (map_insert rest event cevent) as [rest' second] eqn:Eins.
        cbn [fst snd] in *. rewrite !contains_cons, E1, E2.
        cbn [PlatformSpec.lookup].
        assert (E3 : event_eq k event = false).
        { unfold event_lt, event_eq in *. apply N.ltb_lt in E2.
          apply N.eqb_neq. lia. }
        rewrite E3.
        split.
        { split; [|exact IH1]. apply Hins.
          - unfold event_lt in E2. apply N.ltb_lt in E2. exact E2.
          - exact Hhead. }
        split; [exact IH2|]. split; [exact IH3|]. split; [exact IH4|].
        intros other Ho. destruct (IH5 other Ho) as [IH5a IH5b].
        rewrite !contains_cons, IH5a. split; [reflexivity|].
        rewrite IH5b. reflexivity.
      * cbn [fst snd]. rewrite !contains_cons, E1, E2.
        split; [split; assumption|]. repeat split; reflexivity.
Qed.

(** X8: [ResourceMap::insert] answers whether the event was new:
    it returns [true] exactly when [contains] was [false]; afterwards
    [contains] is [true] for the event; an event that was there keeps the
    [cudaEvent_t] it had (the new one is dropped); and nothing changes for
    any other event. *)
Theorem resource_map_insert (events : EventMap) (event : Event) (cevent : cudaEvent_t) :
  sorted_keys events ->
  sorted_keys (fst (insert events event cevent)) /\
  snd (insert events event cevent) = negb (contains events event) /\
  contains (fst (insert events event cevent)) event = true /\
  lookup (fst (insert events event cevent)) event
  = (if contains events event then lookup events event else Some cevent) /\
  (forall other, event_eq other event = false ->
     contains (fst (insert events event cevent)) other = contains events other /\
     lookup (fst (insert events event cevent)) other = lookup events other).
Proof.
  intros Hs. unfold insert.
  destruct (insert_spec events event cevent Hs) as (H1 & H2 & H3 & H4 & H5).
  split; [exact H1|]. split; [exact H2|]. split; [exact H3|]. split; [|exact H5].
  rewrite H4, H2. destruct (contains events event); reflexivity.
Qed.

(** *** [CudaEventPool] *)

Lemma pool_loop_runs_on (rounds : nat) (cu : Cuda) (pool : CudaEventPool cudaEvent_t) :
  (i_ pool <= size (pool_events_ pool))%N ->
  pool_loop cudaEventCreateWithFlags rounds cu pool = OutOfFuel.
Proof.
  revert cu pool. induction rounds as [|rounds IH]; intros cu pool H; simpl.
  - destruct (N.leb_spec (i_ pool) (size (pool_events_ pool))); [reflexivity|lia].
  - destruct (N.leb_spec (i_ pool) (size (pool_events_ pool))); [|lia].
    destruct (cudaEventCreateWithFlags cu) as [e cu'].
    apply IH. simpl. rewrite size_app. lia.
Qed.

(** X9: [CudaEventPool::new_event] does not return on a pool with
    [i_ <= events_.size()], as a new pool and a pool after [reset] are:
    each round of its loop pushes an event and leaves [i_] alone, so the
    loop condition [i_ <= events_.size()] stays true, and whatever the
    number of rounds allowed, the loop is still running. *)
Theorem pool_new_event_never_returns (rounds : nat) (cu : Cuda)
  (pool : CudaEventPool cudaEvent_t) :
  (i_ pool <= size (pool_events_ pool))%N ->
  pool_new_event cudaEventCreateWithFlags rounds cu pool = OutOfFuel /\
  pool_new_event cudaEventCreateWithFlags rounds cu (pool_reset pool) = OutOfFuel.
Proof.
  intros H. unfold pool_new_event.
  rewrite !pool_loop_runs_on; [split; reflexivity| |exact H].
  simpl. lia.
Qed.

End WithCuda.

End PlatformFacts.

(** ** Runs on the sample platform *)


(** ** Runs on the sample platform *)

Module PlatformRuns.
Import Outcomes Platform PlatformRes PlatformSpec PlatformSamples PlatformFacts.

Lemma demo_platform_consistent : consistent nat nat unit demo_platform.
Proof.
  constructor; simpl.
  - reflexivity.
  - discriminate.
  - intros [|[|[|i]]] s H; simpl in H; try (destruct i; discriminate);
      injection H as <-; reflexivity.
  - unfold size. simpl. lia.
Qed.

Lemma new_event_next_handle_witness :
  exists cu' p',
    new_event demo_create 30 demo_platform = Ok (mkEvent 2, cu', p') /\
    cu' = 30 /\
    is_ok (cuda_event p' (mkEvent 2)) = true /\
    cuda_event p' (mkEvent 1) = Ok 21.
Proof.
  destruct (new_event_next_handle nat nat unit nat demo_create 30 demo_platform
              demo_platform_consistent ltac:(simpl; lia))
    as (cu' & p' & H1 & _ & _ & _ & H5 & H6 & H7 & _).
  exists cu', p'. split; [exact H1|]. split.
  - apply H7. unfold size. simpl. lia.
  - split; [exact H5|]. apply H6. reflexivity.
Defined.

Lemma reset_reuses_events_witness :
  new_events nat nat unit nat demo_create 2 30 (reset_dynamic_resources demo_platform)
  = Ok ([mkEvent 0; mkEvent 1], 30, demo_platform).
Proof.
  exact (proj2 (proj2 (reset_reuses_events nat nat unit nat demo_create 30
                         demo_platform demo_platform_consistent
                         ltac:(simpl; lia)))).
Defined.

Lemma ensure_events_valid_handles_witness :
  exists cu' p',
    ensure_events demo_create 5 30 demo_platform = Ok (cu', p') /\
    iEvent_ p' = 5%N /\
    is_ok (cuda_event p' (mkEvent 4)) = true /\
    is_ok (cuda_event p' (mkEvent 5)) = false /\
    cuda_event p' (mkEvent 1) = Ok 21.
Proof.
  destruct (ensure_events_valid_handles nat nat unit nat demo_create 5 30
              demo_platform demo_platform_consistent)
    as (cu' & p' & H1 & _ & H3 & H4 & H5 & _).
  exists cu', p'. split; [exact H1|]. split; [exact H3|].
  split; [apply H4; simpl; lia|]. split; [|apply H5; reflexivity].
  destruct (is_ok (cuda_event p' (mkEvent 5))) eqn:E; [|reflexivity].
  apply H4 in E. simpl in E. lia.
Defined.

Lemma make_n_streams_streams_witness :
  exists p,
    make_n_streams nat demo_create 0 2 tt 7 = Ok (9, p) /\
    p = mkPlatform 0 [0; 7; 8] [] tt [mkStream 0; mkStream 1; mkStream 2] /\
    num_streams p = Ok 2%Z.
Proof.
  destruct (make_n_streams_streams nat nat unit nat demo_create 0 2 tt 7
              ltac:(lia))
    as (p & H1 & H2 & H3 & _).
  exists p. split; [exact H1|]. split; [exact H2|exact H3].
Defined.

Lemma ensure_streams_enough_witness :
  exists cu' p',
    ensure_streams demo_create 4 9 demo_platform = Ok (cu', p') /\
    num_streams p' = Ok 4%Z /\
    cuda_stream p' (mkStream 2) = Ok 8 /\
    ensure_streams demo_create 4 cu' p' = Ok (cu', p').
Proof.
  destruct (ensure_streams_enough nat nat unit nat demo_create 4 9 demo_platform
              demo_platform_consistent ltac:(lia) ltac:(unfold size; simpl; lia))
    as (cu' & p' & H1 & _ & H3 & H4 & _ & _ & H7).
  exists cu', p'. split; [exact H1|]. split; [exact H3|].
  split; [apply H4; reflexivity|exact H7].
Defined.

Lemma new_stream_next_stream_witness :
  exists p',
    new_stream demo_create 9 demo_platform = (mkStream 3, 10, p') /\
    cuda_stream p' (mkStream 3) = Ok 9 /\
    cuda_stream p' (mkStream 1) = Ok 7.
Proof.
  destruct (new_stream_next_stream nat nat unit nat demo_create 9 demo_platform
              demo_platform_consistent ltac:(unfold size; simpl; lia))
    as (p' & H1 & _ & _ & H4 & H5 & _).
  exists p'. split; [exact H1|]. split; [exact H4|apply H5; reflexivity].
Defined.

Lemma platform_bookkeeping_witness :
  exists cu' p',
    run_calls nat nat unit nat demo_create demo_create
      [call_new_stream; call_new_event; call_ensure_streams 3;
       call_reset_dynamic_resources; call_ensure_events 2] 7
      (new_Platform nat 0 tt) = Ok (cu', p') /\
    consistent nat nat unit p' /\
    is_ok (num_streams p') = true.
Proof.
  destruct (platform_bookkeeping nat nat unit nat demo_create demo_create 0 tt 7
              [call_new_stream; call_new_event; call_ensure_streams 3;
               call_reset_dynamic_resources; call_ensure_events 2]
              ltac:(repeat constructor; simpl; lia))
    as (cu' & p' & H1 & H2 & _ & H4 & _).
  exists cu', p'. split; [exact H1|]. split; [exact H2|exact H4].
Defined.

Lemma resource_map_insert_witness :
  snd (insert demo_events (mkEvent 4) 99) = false /\
  lookup nat (fst (insert demo_events (mkEvent 4) 99)) (mkEvent 4) = Some 24 /\
  contains (fst (insert demo_events (mkEvent 4) 99)) (mkEvent 1) = true.
Proof.
  destruct (resource_map_insert nat demo_events (mkEvent 4) 99
              ltac:(simpl; repeat split; lia))
    as (_ & H2 & _ & H4 & H5).
  split; [exact H2|]. split; [exact H4|].
  apply (proj1 (H5 (mkEvent 1) eq_refl)).
Defined.

Lemma pool_new_event_never_returns_witness :
  pool_new_event demo_create 1000 0 (new_CudaEventPool nat) = OutOfFuel.
Proof.
  apply (pool_new_event_never_returns nat nat demo_create 1000 0
           (new_CudaEventPool nat) ltac:(unfold size; simpl; lia)).
Defined.

End PlatformRuns.

(** ** Facts about the comparison operators and [run] *)

Module OpsOrderFacts.
Import Outcomes Platform OpsCuda PlatformRes PlatformSpec OpsOrder OpsMpi OrderSpec.

Lemma string_compare_refl (s : string) : String.compare s s = Eq.
Proof.
  pose proof (String.compare_antisym s s) as H.
  destruct (String.compare s s); simpl in H; [reflexivity|discriminate|discriminate].
Qed.

(** [std::string]: [<] and [==] are a total order. *)
Lemma string_total_order (a b : string) :
  exactly_one (string_lt a b) (String.eqb a b) (string_lt b a).
Proof.
  unfold exactly_one, string_lt, String.ltb.
  rewrite (String.compare_antisym b a).
  destruct (String.compare a b) eqn:E; simpl.
  - apply String.compare_eq_iff in E. subst b. rewrite String.eqb_refl. auto.
  - left. repeat split; auto. apply String.eqb_neq. intros ->.
    rewrite string_compare_refl in E. discriminate.
  - right. right. repeat split; auto. apply String.eqb_neq. intros ->.
    rewrite string_compare_refl in E. discriminate.
Qed.

(** X10: [operator<] and [operator==] of [StreamWait], [CudaEventRecord],
    [CudaStreamWaitEvent] and [CudaEventSync] agree: of [a < b], [a == b]
    and [b < a] exactly one holds, decided by the names alone.  Those of
    [StreamSync] do not: [a == b] holds always, also when the names differ
    and [a < b] or [b < a] holds as well. *)
Theorem sync_ops_ordering :
  total_order StreamWait_lt StreamWait_eq /\
  total_order CudaEventRecord_lt CudaEventRecord_eq /\
  total_order CudaStreamWaitEvent_lt CudaStreamWaitEvent_eq /\
  total_order CudaEventSync_lt CudaEventSync_eq /\
  (forall a b : StreamSync,
     ss_name a <> ss_name b ->
     StreamSync_eq a b = true /\
     (StreamSync_lt a b = true \/ StreamSync_lt b a = true)).
Proof.
  split; [|split; [|split; [|split]]]; try (intros a b; apply string_total_order).
  intros a b Hn. split; [reflexivity|].
  unfold StreamSync_lt.
  destruct (string_total_order (ss_name a) (ss_name b))
    as [(H & _)|[(_ & H & _)|(_ & _ & H)]]; auto.
  apply String.eqb_eq in H. contradiction.
Qed.

Section WithGpuOp.

Variable GpuOp : Type.
Variable gpu_lt : GpuOp -> GpuOp -> bool.
Variable gpu_eq : GpuOp -> GpuOp -> bool.

(** X11: when the virtual [lt] and [eq] of the device operations are a
    total order, [operator<] and [operator==] of [BoundGpuOp] are one too:
    the order by stream first, then by operation. *)
Theorem BoundGpuOp_total_order :
  total_order gpu_lt gpu_eq ->
  total_order (BoundGpuOp_lt gpu_lt) (BoundGpuOp_eq gpu_eq) /\
  (forall a b,
     BoundGpuOp_lt gpu_lt a b = true <->
     (stream_id (bg_stream a) < stream_id (bg_stream b))%N \/
     (stream_id (bg_stream a) = stream_id (bg_stream b) /\
      gpu_lt (bg_op a) (bg_op b) = true)).
Proof.
  intros Hg. split.
  - intros a b. specialize (Hg (bg_op a) (bg_op b)).
    unfold exactly_one, BoundGpuOp_lt, BoundGpuOp_eq, stream_lt, stream_gt, stream_eq in *.
    destruct (N.ltb_spec (stream_id (bg_stream a)) (stream_id (bg_stream b)));
      destruct (N.ltb_spec (stream_id (bg_stream b)) (stream_id (bg_stream a)));
      destruct (N.eqb_spec (stream_id (bg_stream a)) (stream_id (bg_stream b)));
      try lia; simpl; auto.
  - intros a b. unfold BoundGpuOp_lt, stream_lt, stream_gt.
    destruct (N.ltb_spec (stream_id (bg_stream a)) (stream_id (bg_stream b))).
    + split; auto.
    + destruct (N.ltb_spec (stream_id (bg_stream b)) (stream_id (bg_stream a))).
      * split; [discriminate|]. intros [H1|[H1 _]]; lia.
      * split; [intros H1; right; split; [lia|exact H1]|].
        intros [H1|[_ H1]]; [lia|exact H1].
Qed.

End WithGpuOp.

Lemma BoundGpuOp_total_order_witness :
  exactly_one
    (BoundGpuOp_lt Nat.ltb (mkBoundGpuOp 5 (mkStream 1)) (mkBoundGpuOp 3 (mkStream 2)))
    (BoundGpuOp_eq Nat.eqb (mkBoundGpuOp 5 (mkStream 1)) (mkBoundGpuOp 3 (mkStream 2)))
    (BoundGpuOp_lt Nat.ltb (mkBoundGpuOp 3 (mkStream 2)) (mkBoundGpuOp 5 (mkStream 1))).
Proof.
  assert (Hnat : total_order Nat.ltb Nat.eqb).
  { intros a b. unfold exactly_one.
    destruct (Nat.ltb_spec a b); destruct (Nat.ltb_spec b a);
      destruct (Nat.eqb_spec a b); try lia; auto. }
  apply (proj1 (BoundGpuOp_total_order nat Nat.ltb Nat.eqb Hnat)).
Defined.

(** *** The operations of [ops_mpi.hpp] *)

Lemma IrecvArgs_eq_true (a b : IrecvArgs) : IrecvArgs_eq a b = true <-> a = b.
Proof.
  unfold IrecvArgs_eq. rewrite !andb_true_iff, !N.eqb_eq, !Z.eqb_eq.
  destruct a, b; simpl. split.
  - intros [[[[[[-> ->] ->] ->] ->] ->] ->]. reflexivity.
  - intros [= -> -> -> -> -> -> ->]. repeat split.
Qed.

Lemma IsendArgs_eq_true (a b : IsendArgs) : IsendArgs_eq a b = true <-> a = b.
Proof.
  unfold IsendArgs_eq. rewrite !andb_true_iff, !N.eqb_eq, !Z.eqb_eq.
  destruct a, b; simpl. split.
  - intros [[[[[[-> ->] ->] ->] ->] ->] ->]. reflexivity.
  - intros [= -> -> -> -> -> -> ->]. repeat split.
Qed.

Lemma WaitArgs_eq_true (a b : WaitArgs) : WaitArgs_eq a b = true <-> a = b.
Proof.
  unfold WaitArgs_eq. rewrite !andb_true_iff, !N.eqb_eq.
  destruct a, b; simpl. split.
  - intros [-> ->]. reflexivity.
  - intros [= -> ->]. repeat split.
Qed.

Lemma string_lt_or (a b : string) :
  a <> b -> string_lt a b = true \/ string_lt b a = true.
Proof.
  intros Hn. destruct (string_total_order a b) as [(H & _)|[(_ & H & _)|(_ & _ & H)]];
    auto.
  apply String.eqb_eq in H. contradiction.
Qed.

Lemma string_lt_irrefl (a : string) : string_lt a a = false.
Proof.
  destruct (string_total_order a a) as [(_ & H & _)|[(H & _)|(H & _)]]; auto.
  rewrite String.eqb_refl in H. discriminate.
Qed.

(** X12: [operator==] of [Irecv], [Isend] and [Wait] compares the
    arguments, all of them, and not the name; [operator<] compares the
    name and nothing else.  So two operations with one name and different
    arguments are unequal and neither is less than the other, and two
    operations with the same arguments and different names are equal
    although one is less than the other. *)
Theorem mpi_ops_equal_by_args :
  (forall a b : Irecv, Irecv_eq a b = true <-> irecv_args_ a = irecv_args_ b) /\
  (forall a b : Isend, Isend_eq a b = true <-> isend_args_ a = isend_args_ b) /\
  (forall a b : Wait, Wait_eq a b = true <-> wait_args_ a = wait_args_ b) /\
  (forall a b : Irecv,
     irecv_name_ a = irecv_name_ b ->
     Irecv_lt a b = false /\ Irecv_lt b a = false) /\
  (forall a b : Irecv,
     irecv_args_ a = irecv_args_ b -> irecv_name_ a <> irecv_name_ b ->
     Irecv_eq a b = true /\ (Irecv_lt a b = true \/ Irecv_lt b a = true)) /\
  (forall a b : Isend,
     isend_name_ a = isend_name_ b ->
     Isend_lt a b = false /\ Isend_lt b a = false) /\
  (forall a b : Isend,
     isend_args_ a = isend_args_ b -> isend_name_ a <> isend_name_ b ->
     Isend_eq a b = true /\ (Isend_lt a b = true \/ Isend_lt b a = true)) /\
  (forall a b : Wait,
     wait_name_ a = wait_name_ b ->
     Wait_lt a b = false /\ Wait_lt b a = false) /\
  (forall a b : Wait,
     wait_args_ a = wait_args_ b -> wait_name_ a <> wait_name_ b ->
     Wait_eq a b = true /\ (Wait_lt a b = true \/ Wait_lt b a = true)).
Proof.
  split; [intros a b; apply IrecvArgs_eq_true|].
  split; [intros a b; apply IsendArgs_eq_true|].
  split; [intros a b; apply WaitArgs_eq_true|].
  split; [intros a b E; unfold Irecv_lt; rewrite E, string_lt_irrefl; auto|].
  split.
  { intros a b Ha Hn. split; [apply IrecvArgs_eq_true, Ha|].
    apply string_lt_or, Hn. }
  split; [intros a b E; unfold Isend_lt; rewrite E, string_lt_irrefl; auto|].
  split.
  { intros a b Ha Hn. split; [apply IsendArgs_eq_true, Ha|].
    apply string_lt_or, Hn. }
  split; [intros a b E; unfold Wait_lt; rewrite E, string_lt_irrefl; auto|].
  intros a b Ha Hn. split; [apply WaitArgs_eq_true, Ha|].
  apply string_lt_or, Hn.
Qed.

Lemma vector_eq_true (a b : list N) : vector_eq a b = true <-> a = b.
Proof.
  revert b. induction a as [|x a IH]; intros [|y b]; simpl;
    try (split; [discriminate|discriminate]); try (split; reflexivity).
  rewrite andb_true_iff, N.eqb_eq, IH. split.
  - intros [-> ->]. reflexivity.
  - intros [= -> ->]. auto.
Qed.

Lemma vector_eq_refl (a : list N) : vector_eq a a = true.
Proof. apply vector_eq_true. reflexivity. Qed.

Lemma vector_eq_snoc (a : list N) (x : N) : vector_eq (a ++ [x]) a = false.
Proof.
  destruct (vector_eq (a ++ [x]) a) eqn:E; [|reflexivity].
  apply vector_eq_true in E. apply (f_equal (@List.length N)) in E.
  rewrite length_app in E. simpl in E. lia.
Qed.

(** X13: [operator==] of [OwningWaitall] and of [MultiWait] compares the
    requests and not the name: operations made from a name alone are all
    equal, [OwningWaitall(n, a)] and [OwningWaitall(m, b)] are equal
    exactly when [n = m], and [add_request] turns an operation into one
    that is unequal to what it was, while operations that were equal stay
    equal when the same request is added to both. *)
Theorem waitall_ops_equal_by_requests :
  (forall a b : OwningWaitall, OwningWaitall_eq a b = true <-> ow_reqs_ a = ow_reqs_ b) /\
  (forall a b : MultiWait, MultiWait_eq a b = true <-> mw_reqs_ a = mw_reqs_ b) /\
  (forall n m : string,
     OwningWaitall_eq (new_OwningWaitall n) (new_OwningWaitall m) = true /\
     MultiWait_eq (new_MultiWait n) (new_MultiWait m) = true) /\
  (forall (i j : nat) (n m : string),
     OwningWaitall_eq (new_OwningWaitall_n i n) (new_OwningWaitall_n j m)
     = Nat.eqb i j) /\
  (forall (a : OwningWaitall) (req : Handle),
     OwningWaitall_eq (OwningWaitall_add_request a req) a = false) /\
  (forall (a : MultiWait) (req : Addr),
     MultiWait_eq (MultiWait_add_request a req) a = false) /\
  (forall (a b : OwningWaitall) (req : Handle),
     OwningWaitall_eq (OwningWaitall_add_request a req)
                      (OwningWaitall_add_request b req)
     = OwningWaitall_eq a b) /\
  (forall (a b : MultiWait) (req : Addr),
     MultiWait_eq (MultiWait_add_request a req) (MultiWait_add_request b req)
     = MultiWait_eq a b).
Proof.
  assert (Hsnoc : forall (u v : list N) (x : N),
             vector_eq (u ++ [x]) (v ++ [x]) = vector_eq u v).
  { intros u v x. destruct (vector_eq u v) eqn:E.
    - apply vector_eq_true in E. subst v. apply vector_eq_refl.
    - destruct (vector_eq (u ++ [x]) (v ++ [x])) eqn:E'; [|reflexivity].
      apply vector_eq_true in E'. apply app_inj_tail in E'. destruct E' as [-> _].
      rewrite vector_eq_refl in E. discriminate. }
  split; [intros a b; apply vector_eq_true|].
  split; [intros a b; apply vector_eq_true|].
  split; [intros n m; split; reflexivity|].
  split.
  { intros i j n m. unfold OwningWaitall_eq. simpl.
    destruct (Nat.eqb_spec i j) as [->|Hn]; [apply vector_eq_refl|].
    destruct (vector_eq (repeat 0%N i) (repeat 0%N j)) eqn:E; [|reflexivity].
    apply vector_eq_true in E. apply (f_equal (@List.length N)) in E.
    rewrite !repeat_length in E. contradiction. }
  split; [intros a req; apply vector_eq_snoc|].
  split; [intros a req; apply vector_eq_snoc|].
  split; intros a b req; apply Hsnoc.
Qed.

(** *** [StreamWait::run] *)

Section WithCuda.

Variable cudaStream_t : Type.
Variable cudaEvent_t : Type.
Variable MPI_Comm : Type.
Variable Cuda : Type.
Variable cudaEventRecord : cudaEvent_t -> cudaStream_t -> Cuda -> Cuda.
Variable cudaStreamWaitEvent : cudaStream_t -> cudaEvent_t -> Cuda -> Cuda.

Local Abbreviation Platform := (PlatformRes.Platform cudaStream_t cudaEvent_t MPI_Comm).
Local Abbreviation run := (StreamWait_run cudaEventRecord cudaStreamWaitEvent).

(** X14: [StreamWait::run] on a platform whose bookkeeping is in order.
    With a valid event handle and two existing streams it records the
    event in the waitee's stream and makes the waiter's stream wait for
    it, and returns.  With an event handle that is not valid, or a waitee
    that does not exist, it throws before any CUDA call.  With a valid
    event, an existing waitee and a waiter that does not exist, it throws
    after the event has been recorded. *)
Theorem StreamWait_run_outcome (op : StreamWait) (plat : Platform) (cu : Cuda) :
  consistent cudaStream_t cudaEvent_t MPI_Comm plat ->
  (is_ok (snd (run op plat cu)) = true <->
   (event_id (sw_event op) < iEvent_ plat)%N /\
   (stream_id (sw_waitee op) < size (streams_ plat))%N /\
   (stream_id (sw_waiter op) < size (streams_ plat))%N) /\
  (forall event waitee waiter,
     cuda_event plat (sw_event op) = Ok event ->
     cuda_stream plat (sw_waitee op) = Ok waitee ->
     cuda_stream plat (sw_waiter op) = Ok waiter ->
     run op plat cu
     = (cudaStreamWaitEvent waiter event (cudaEventRecord event waitee cu), Ok tt)) /\
  ((iEvent_ plat <= event_id (sw_event op))%N \/
   (size (streams_ plat) <= stream_id (sw_waitee op))%N ->
   fst (run op plat cu) = cu) /\
  (forall event waitee,
     cuda_event plat (sw_event op) = Ok event ->
     cuda_stream plat (sw_waitee op) = Ok waitee ->
     (size (streams_ plat) <= stream_id (sw_waiter op))%N ->
     run op plat cu
     = (cudaEventRecord event waitee cu,
        Throw ("requested non-existent stream "
               ++ show_unsigned (stream_id (sw_waiter op))))).
Proof.
  intros Hc.
  pose proof (PlatformFacts.cuda_event_is_ok _ _ _ plat (sw_event op) Hc) as He.
  pose proof (PlatformFacts.cuda_stream_is_ok _ _ _ plat (sw_waitee op) Hc) as Hs.
  pose proof (PlatformFacts.cuda_stream_is_ok _ _ _ plat (sw_waiter op) Hc) as Hw.
  unfold StreamWait_run.
  split; [|split; [|split]].
  - destruct (cuda_event plat (sw_event op)) as [e| | |];
      destruct (cuda_stream plat (sw_waitee op)) as [s| | |];
      destruct (cuda_stream plat (sw_waiter op)) as [w| | |];
      simpl in *; split; intros H;
      try discriminate; try reflexivity;
      try (destruct H as (H1 & H2 & H3);
           apply He in H1; apply Hs in H2; apply Hw in H3; discriminate).
    split; [apply He|split; [apply Hs|apply Hw]]; reflexivity.
  - intros event waitee waiter -> -> ->. reflexivity.
  - intros [H|H].
    + destruct (cuda_event plat (sw_event op)) as [e| | |]; try reflexivity.
      assert (H' : (event_id (sw_event op) < iEvent_ plat)%N) by (apply He; reflexivity).
      lia.
    + destruct (cuda_event plat (sw_event op)) as [e| | |]; try reflexivity.
      destruct (cuda_stream plat (sw_waitee op)) as [s| | |]; try reflexivity.
      assert (H' : (stream_id (sw_waitee op) < size (streams_ plat))%N)
        by (apply Hs; reflexivity).
      lia.
  - intros event waitee -> -> H. unfold cuda_stream.
    destruct (N.leb_spec (size (streams_ plat)) (stream_id (sw_waiter op))); [|lia].
    reflexivity.
Qed.

End WithCuda.

Lemma StreamWait_run_outcome_witness :
  StreamWait_run demo_cudaEventRecord demo_cudaStreamWaitEvent
    (new_StreamWait (mkStream 1) (mkStream 2) (mkEvent 0))
    PlatformSamples.demo_platform []
  = ([EventRecord 20 7; StreamWaitEvent 8 20], Ok tt) /\
  StreamWait_run demo_cudaEventRecord demo_cudaStreamWaitEvent
    (new_StreamWait (mkStream 1) (mkStream 5) (mkEvent 0))
    PlatformSamples.demo_platform []
  = ([EventRecord 20 7], Throw "requested non-existent stream 5").
Proof.
  destruct (StreamWait_run_outcome nat nat unit (list CudaCall)
              demo_cudaEventRecord demo_cudaStreamWaitEvent
              (new_StreamWait (mkStream 1) (mkStream 2) (mkEvent 0))
              PlatformSamples.demo_platform []
              PlatformRuns.demo_platform_consistent)
    as (_ & H & _).
  split; [apply H; reflexivity|].
  destruct (StreamWait_run_outcome nat nat unit (list CudaCall)
              demo_cudaEventRecord demo_cudaStreamWaitEvent
              (new_StreamWait (mkStream 1) (mkStream 5) (mkEvent 0))
              PlatformSamples.demo_platform []
              PlatformRuns.demo_platform_consistent)
    as (_ & _ & _ & H').
  apply (H' 20 7); [reflexivity|reflexivity|].
  unfold size. simpl. lia.
Defined.

End OpsOrderFacts.

(** ** More facts about [expand] and the simulation order *)

Module ChildrenFacts.
Import Outcomes Graphs GraphFacts MctsNode GraphSpec ExpandFacts TreeSpec.

(** *** The two child generators *)

Lemma remove_done_filter (path fr : list Op) :
  remove_done path fr = filter (fun x => negb (found x path)) fr.
Proof.
  unfold remove_done. revert fr. induction path as [|op path IH]; intros fr; simpl.
  - induction fr as [|x fr IHfr]; simpl; [reflexivity|]. rewrite <- IHfr. reflexivity.
  - rewrite IH. clear IH. induction fr as [|x fr IHfr]; simpl; [reflexivity|].
    rewrite (Nat.eqb_sym op x).
    destruct (Nat.eqb x op); simpl; [exact IHfr|].
    destruct (found x path); simpl; [exact IHfr|]. rewrite IHfr. reflexivity.
Qed.

Lemma found_filter (f : Op -> bool) (x : Op) (l : list Op) :
  f x = true -> found x (filter f l) = found x l.
Proof.
  intros Hx. induction l as [|y l IH]; simpl; [reflexivity|].
  destruct (f y) eqn:Ey; simpl.
  - rewrite IH. reflexivity.
  - rewrite IH. destruct (Nat.eqb_spec y x) as [->|]; [congruence|reflexivity].
Qed.

(** Dropping repeated ops and filtering commute. *)
Lemma push_unique_filter (f : Op -> bool) (l acc : list Op) :
  fold_left push_unique (filter f l) (filter f acc)
  = filter f (fold_left push_unique l acc).
Proof.
  revert acc. induction l as [|x l IH]; intros acc; simpl; [reflexivity|].
  destruct (f x) eqn:Ex; simpl.
  - rewrite <- IH. f_equal. unfold push_unique.
    rewrite (found_filter f x acc Ex).
    destruct (found x acc); [reflexivity|].
    rewrite filter_app. simpl. rewrite Ex. reflexivity.
  - rewrite <- IH. f_equal. unfold push_unique.
    destruct (found x acc); [reflexivity|].
    rewrite filter_app. simpl. rewrite Ex, app_nil_r. reflexivity.
Qed.

(** The successors [mcts.cpp] gathers, and those [mcts_node.hpp]
    gathers: the same ops, without the repetitions. *)
Lemma gather_succs_both (g : Graph) (path acc : list Op) :
  (forall op, In op path -> find_key (succs_ g) op <> None) ->
  exists gathered,
    Mcts.gather_succs g path acc = Ok (acc ++ gathered) /\
    MctsNode.gather_succs g path (first_occurrences acc)
    = Ok (first_occurrences (acc ++ gathered)) /\
    forall x, In x gathered <-> succ_of_path g path x.
Proof.
  revert acc. induction path as [|op path IH]; intros acc Hk.
  - exists []. simpl. rewrite app_nil_r. split; [reflexivity|]. split; [reflexivity|].
    intros x. split; [intros []|intros (op & ss & [] & _)].
  - simpl. unfold at_. destruct (find_key (succs_ g) op) as [ss|] eqn:Es.
    2:{ exfalso. apply (Hk op); simpl; auto. }
    cbn [bind].
    destruct (IH (acc ++ ss)) as (gathered & H1 & H2 & H3).
    { intros o Ho. apply Hk. simpl. auto. }
    exists (ss ++ gathered). rewrite app_assoc. split; [exact H1|]. split.
    + unfold first_occurrences in *. rewrite fold_left_app in H2. exact H2.
    + intros x. rewrite in_app_iff, H3. unfold succ_of_path. split.
      * intros [Hx|(o & ss' & Ho & Es' & Hx)].
        -- exists op, ss. simpl. auto.
        -- exists o, ss'. simpl. auto.
      * intros (o & ss' & [<-|Ho] & Es' & Hx).
        -- left. congruence.
        -- right. exists o, ss'. auto.
Qed.

Lemma first_occurrences_In (l : list Op) (x : Op) :
  In x (first_occurrences l) <-> In x l.
Proof.
  unfold first_occurrences. rewrite fold_push_unique_In. simpl. tauto.
Qed.

Lemma first_occurrences_NoDup (l : list Op) : NoDup (first_occurrences l).
Proof. apply fold_push_unique_NoDup. constructor. Qed.

(** The frontiers the two copies of [expand] make children from. *)
Lemma expand_frontier_both (g : Graph) (path : list Op) :
  graph_closed g ->
  (forall op, In op path -> find_key (succs_ g) op <> None) ->
  exists gathered frontier,
    Mcts.gather_succs g path [] = Ok gathered /\
    MctsNode.prune_unready (S (List.length (remove_done path gathered))) g path
                           (remove_done path gathered) = Ok frontier /\
    MctsNode.expand_frontier g path = Ok (first_occurrences frontier) /\
    (forall x, In x frontier <-> next_op g path x).
Proof.
  intros Hc Hk.
  destruct (gather_succs_both g path [] Hk) as (gathered & H1 & H2 & H3).
  simpl in H1, H2.
  assert (Hp : forall l x, In x (remove_done path l) -> In x l).
  { intros l x Hx. apply remove_done_In in Hx. tauto. }
  assert (Hpreds : forall x, In x gathered -> find_key (preds_ g) x <> None).
  { intros x Hx. apply H3 in Hx. destruct Hx as (op & ss & Ho & Es & Hx).
    eapply Hc; eassumption. }
  exists gathered, (filter (ready g path) (remove_done path gathered)).
  split; [exact H1|]. split.
  { apply prune_unready_filter; [|lia].
    intros x Hx. apply Hpreds, (Hp _ _ Hx). }
  split.
  { unfold expand_frontier. change (first_occurrences []) with (@nil Op) in H2.
    rewrite H2. cbn [bind].
    rewrite prune_unready_filter.
    - f_equal. rewrite !remove_done_filter. unfold first_occurrences.
      rewrite <- !push_unique_filter. reflexivity.
    - intros x Hx. apply Hp in Hx. apply Hpreds, (proj1 (first_occurrences_In _ _) Hx).
    - lia. }
  intros x. rewrite filter_In, remove_done_In, H3. unfold next_op. tauto.
Qed.







Section WithStrategy.

Variable State : Type.
Variable init_state : State.
Variable double : Type.

Local Abbreviation Node := (MctsNode.Node State).
Local Abbreviation Frame := (MctsNode.Frame State).
Local Abbreviation generate_children := (MctsNode.generate_children init_state).
Local Abbreviation new_Node := (MctsNode.new_Node init_state).

(** X15: the children [expand] of [mcts_node.hpp] gives a node that is not
    expanded yet, on a graph whose maps know the ops involved: one new
    node for every op that may come next after the path to the node (a
    successor of an op of the path that is not on the path and has all
    its predecessors on it), and for no other op, each op once; the node
    is marked expanded, and expanding it again changes nothing. *)
Theorem expand_children_next_ops (g : Graph) (this : Node) (up : list Frame) :
  graph_closed g ->
  (forall op, In op (path_to_root this up) -> find_key (succs_ g) op <> None) ->
  expanded_ this = false ->
  exists frontier this',
    generate_children g this up = Ok this' /\
    this' = set_children this (children_ this ++ map new_Node frontier) /\
    NoDup frontier /\
    (forall x, In x frontier <-> next_op g (path_to_root this up) x) /\
    generate_children g this' up = Ok this'.
Proof.
  intros Hc Hk He.
  destruct (expand_frontier_both g (path_to_root this up) Hc Hk)
    as (gathered & frontier & _ & _ & H3 & H4).
  exists (first_occurrences frontier).
  eexists. unfold MctsNode.generate_children at 1. rewrite He, H3. cbn [bind].
  split; [reflexivity|]. split; [reflexivity|].
  split; [apply first_occurrences_NoDup|]. split.
  - intros x. rewrite first_occurrences_In. apply H4.
  - reflexivity.
Qed.


End WithStrategy.

Lemma diamond_closed : graph_closed Samples.diamond.
Proof. apply MctsNodeFacts.graph_closedb_sound. reflexivity. Qed.

Lemma diamond_keys (op : Op) : In op [2; 1; 0] -> find_key (succs_ Samples.diamond) op <> None.
Proof. intros [<-|[<-|[<-|[]]]]; discriminate. Qed.

Lemma expand_children_next_ops_witness :
  exists frontier this',
    MctsNode.generate_children (@nil nat) Samples.diamond
      (MctsNode.new_Node [] 2) TreeSamples.diamond_up = Ok this' /\
    this' = set_children (MctsNode.new_Node [] 2)
                         (map (MctsNode.new_Node []) frontier) /\
    NoDup frontier /\
    (forall x, In x frontier <-> next_op Samples.diamond [2; 1; 0] x).
Proof.
  destruct (expand_children_next_ops (list nat) [] Samples.diamond
              (MctsNode.new_Node [] 2) TreeSamples.diamond_up
              diamond_closed diamond_keys eq_refl)
    as (frontier & this' & H1 & H2 & H3 & H4 & _).
  exists frontier, this'. auto.
Defined.


(** On the diamond, below [start], [a], [b]: two nodes for [c] in
    [mcts.cpp], one in [mcts_node.hpp]. *)
Example diamond_children :
  Mcts.generate_children Samples.diamond (Mcts.new_Node nat 2)
                         TreeSamples.diamond_up0
  = Ok (Mcts.mkNode 2 [Mcts.new_Node nat 3; Mcts.new_Node nat 3] [] true) /\
  MctsNode.generate_children (@nil nat) Samples.diamond
    (MctsNode.new_Node [] 2) TreeSamples.diamond_up
  = Ok (set_children (MctsNode.new_Node [] 2) [MctsNode.new_Node [] 3]).
Proof. split; reflexivity. Qed.

End ChildrenFacts.

(** ** The simulation order on any graph *)

Module OrderFacts.
Import Outcomes Graphs GraphFacts MctsNode GraphSpec ExpandFacts TreeSpec.

(** What [push_ready] pushes: nothing, or an op that is new to the
    frontier and to the path and has its predecessors on the path. *)
Lemma push_ready_news (g : Graph) (path fr fr' : list Op) (child : Op) :
  push_ready g path fr child = Ok fr' ->
  exists news,
    fr' = fr ++ news /\ NoDup news /\
    forall x, In x news -> ~ In x fr /\ ~ In x path /\ ready g path x = true.
Proof.
  unfold push_ready, at_. intros H.
  destruct (find_key (preds_ g) child) as [ps|] eqn:Ep; [|discriminate].
  cbn [bind] in H. injection H as <-.
  assert (Hnil : exists news : list Op,
             fr = fr ++ news /\ NoDup news /\
             forall x, In x news -> ~ In x fr /\ ~ In x path /\ ready g path x = true).
  { exists []. rewrite app_nil_r. split; [reflexivity|].
    split; [constructor|intros x []]. }
  destruct (found child fr) eqn:Ef; simpl; [exact Hnil|].
  destruct (found child path) eqn:Eq; simpl; [exact Hnil|].
  destruct (some_pred_missing path ps) eqn:Em; simpl; [exact Hnil|].
  apply found_false in Ef, Eq.
  exists [child]. split; [reflexivity|]. split; [repeat constructor; intros []|].
  intros x [<-|[]]. split; [exact Ef|]. split; [exact Eq|].
  unfold ready. rewrite Ep, Em. reflexivity.
Qed.

Lemma push_ready_all_news (g : Graph) (path ss fr fr' : list Op) :
  push_ready_all g path fr ss = Ok fr' ->
  exists news,
    fr' = fr ++ news /\ NoDup news /\
    forall x, In x news -> ~ In x fr /\ ~ In x path /\ ready g path x = true.
Proof.
  revert fr. induction ss as [|c ss IH]; intros fr H; simpl in H.
  - injection H as <-. exists []. rewrite app_nil_r. split; [reflexivity|].
    split; [constructor|intros x []].
  - destruct (push_ready g path fr c) as [fr1| | |] eqn:E1; try discriminate.
    cbn [bind] in H.
    destruct (push_ready_news g path fr fr1 c E1) as (n1 & -> & Hnd1 & H1).
    destruct (IH _ H) as (n2 & -> & Hnd2 & H2).
    exists (n1 ++ n2). rewrite app_assoc. split; [reflexivity|]. split.
    + apply NoDup_app; [exact Hnd1|exact Hnd2|].
      intros x Hx1 Hx2. apply H2 in Hx2. destruct Hx2 as [Hx2 _].
      apply Hx2, in_or_app. auto.
    + intros x Hx. apply in_app_or in Hx. destruct Hx as [Hx|Hx].
      * apply H1, Hx.
      * destruct (H2 x Hx) as (Ha & Hb & Hc). split; [|auto].
        intros Hf. apply Ha, in_or_app. auto.
Qed.

Lemma frontier_safe_news (g : Graph) (path fr news : list Op) :
  frontier_safe g path fr ->
  NoDup news ->
  (forall x, In x news -> ~ In x fr /\ ~ In x path /\ ready g path x = true) ->
  frontier_safe g path (fr ++ news).
Proof.
  intros [Hnd Hfresh Hready] Hn H. constructor.
  - apply NoDup_app; [exact Hnd|exact Hn|]. intros x Hx Hx'.
    destruct (H x Hx') as [Hf _]. exact (Hf Hx).
  - intros x Hx. apply in_app_or in Hx. destruct Hx as [Hx|Hx]; [auto|apply H, Hx].
  - intros x Hx. apply in_app_or in Hx. destruct Hx as [Hx|Hx]; [auto|apply H, Hx].
Qed.

Lemma initial_frontier_safe (g : Graph) (path todo fr fr' : list Op) :
  initial_frontier g path todo fr = Ok fr' ->
  frontier_safe g path fr ->
  frontier_safe g path fr'.
Proof.
  revert fr. induction todo as [|op todo IH]; intros fr H Hs; simpl in H.
  - injection H as <-. exact Hs.
  - destruct (at_ (succs_ g) op) as [ss| | |]; try discriminate. cbn [bind] in H.
    destruct (push_ready_all g path fr ss) as [fr1| | |] eqn:E1; try discriminate.
    cbn [bind] in H. apply (IH fr1 H).
    destruct (push_ready_all_news g path ss fr fr1 E1) as (news & -> & Hn & Hx).
    apply frontier_safe_news; assumption.
Qed.

(** One round of the loop: the op taken leaves the frontier, and what is
    pushed is new and ready. *)
Lemma playout_round_safe (g : Graph) (path fr fr' ss : list Op) (ii : nat) :
  frontier_safe g path fr ->
  ii < List.length fr ->
  push_ready_all g (path ++ [nth ii fr 0]) fr ss = Ok fr' ->
  frontier_safe g (path ++ [nth ii fr 0]) (erase_at ii fr').
Proof.
  intros [Hnd Hfresh Hready] Hii H.
  destruct (push_ready_all_news g _ ss fr fr' H) as (news & -> & Hn & Hx).
  set (op := nth ii fr 0) in *.
  assert (Hnth : nth ii (fr ++ news) 0 = op) by (apply SimulationFacts.nth_app_l, Hii).
  assert (Hnd' : NoDup (fr ++ news)).
  { apply NoDup_app; [exact Hnd|exact Hn|]. intros x Hx1 Hx2.
    destruct (Hx x Hx2) as [Hf _]. exact (Hf Hx1). }
  assert (Hlen : ii < List.length (fr ++ news)) by (rewrite length_app; lia).
  assert (Hin : forall x, In x (erase_at ii (fr ++ news)) ->
                          (In x fr /\ x <> op) \/ In x news).
  { intros x Hi. apply erase_at_NoDup_In in Hi; [|exact Hnd'|exact Hlen].
    rewrite Hnth in Hi. destruct Hi as [Hi Hne].
    apply in_app_or in Hi. tauto. }
  constructor.
  - apply erase_at_NoDup, Hnd'.
  - intros x Hi. destruct (Hin x Hi) as [[Hf Hne]|Hf]; [|apply Hx, Hf].
    intros Hp. apply in_app_or in Hp. destruct Hp as [Hp|[Hp|[]]].
    + apply (Hfresh x Hf Hp).
    + apply Hne. symmetry. exact Hp.
  - intros x Hi. destruct (Hin x Hi) as [[Hf Hne]|Hf]; [|apply Hx, Hf].
    apply SimulationFacts.ready_mono, Hready, Hf.
Qed.

Section WithRand.

Variable RandState : Type.
Variable rand : RandState -> nat * RandState.

(** The loop appends ops that are new and come after their
    predecessors. *)
Lemma playout_safe (g : Graph) (fuel : nat) (rs rs' : RandState)
  (path frontier order : list Op) :
  frontier_safe g path frontier ->
  playout rand fuel g rs path frontier = Ok (order, rs') ->
  exists rest,
    order = path ++ rest /\ NoDup rest /\
    (forall x, In x rest -> ~ In x path) /\
    after_preds g path rest.
Proof.
  revert rs path frontier.
  induction fuel as [|fuel IH]; intros rs path frontier Hs H.
  - destruct frontier; simpl in H; [|discriminate]. injection H as <- <-.
    exists []. rewrite app_nil_r. split; [reflexivity|]. split; [constructor|].
    split; [intros x []|]. intros [|i] x Hx; discriminate.
  - destruct frontier as [|f0 t] eqn:Efr.
    { simpl in H. injection H as <- <-.
      exists []. rewrite app_nil_r. split; [reflexivity|]. split; [constructor|].
      split; [intros x []|]. intros [|i] x Hx; discriminate. }
    rewrite <- Efr in *.
    assert (Hne : List.length frontier <> 0) by (rewrite Efr; discriminate).
    assert (Hp : playout rand (S fuel) g rs path frontier
                 = let (r, rs1) := rand rs in
                   let ii := r mod List.length frontier in
                   let op := nth ii frontier 0 in
                   let path' := path ++ [op] in
                   ss <- at_ (succs_ g) op ;;
                   frontier' <- push_ready_all g path' frontier ss ;;
                   playout rand fuel g rs1 path' (erase_at ii frontier')).
    { rewrite Efr. reflexivity. }
    rewrite Hp in H. clear Hp.
    destruct (rand rs) as [r rs1]. cbv zeta in H.
    set (ii := r mod List.length frontier) in *.
    assert (Hii : ii < List.length frontier) by (apply Nat.mod_upper_bound, Hne).
    set (op := nth ii frontier 0) in *.
    destruct (at_ (succs_ g) op) as [ss| | |]; try discriminate. cbn [bind] in H.
    destruct (push_ready_all g (path ++ [op]) frontier ss) as [fr'| | |] eqn:E1;
      try discriminate.
    cbn [bind] in H.
    pose proof (playout_round_safe g path frontier fr' ss ii Hs Hii E1) as Hs'.
    fold op in Hs'.
    destruct (IH rs1 (path ++ [op]) (erase_at ii fr') Hs' H)
      as (rest & -> & Hnd & Hfresh & Hafter).
    assert (Hop : In op frontier) by (apply nth_In, Hii).
    exists (op :: rest). rewrite <- app_assoc. split; [reflexivity|]. split.
    { constructor; [|exact Hnd]. intros Hin. apply (Hfresh op Hin).
      apply in_or_app. simpl. auto. }
    split.
    { intros x [<-|Hx].
      - apply (fs_fresh g path frontier Hs), Hop.
      - intros Hin. apply (Hfresh x Hx). apply in_or_app. auto. }
    intros [|i] x Hx; simpl in Hx.
    + injection Hx as <-. simpl. rewrite app_nil_r.
      apply ready_spec. apply (fs_ready g path frontier Hs), Hop.
    + destruct (Hafter i x Hx) as (ps & Eps & Hps).
      exists ps. split; [exact Eps|]. intros p Hpin.
      specialize (Hps p Hpin). rewrite <- app_assoc in Hps. exact Hps.
Qed.

(** X20: whatever the graph, an order that either copy of
    [get_simulation_order] returns starts with the ops from the root down
    to the node, appends no op of that path and no op twice, and appends
    an op only after all the ops [preds_] lists as its predecessors; the
    two copies return the same order. *)
Theorem simulation_order_safe (State double : Type) (fuel : nat) (g : Graph)
  (this : Node State) (up : list (Frame State))
  (this0 : Mcts.Node double) (up0 : list (Mcts.Frame double))
  (rs rs' : RandState) (order : list Op) :
  Mcts.path_to_root this0 up0 = path_to_root this up ->
  get_simulation_order rand fuel g (this, up) rs = Ok (order, rs') ->
  Mcts.get_simulation_order rand fuel g (this0, up0) rs = Ok (order, rs') /\
  exists rest,
    order = rev (path_to_root this up) ++ rest /\
    NoDup rest /\
    (forall x, In x rest -> ~ In x (path_to_root this up)) /\
    after_preds g (rev (path_to_root this up)) rest.
Proof.
  intros Hp H. unfold get_simulation_order in H.
  unfold Mcts.get_simulation_order. rewrite Hp.
  destruct (initial_frontier g (rev (path_to_root this up))
              (rev (path_to_root this up)) []) as [fr| | |] eqn:E0;
    try discriminate.
  cbn [bind] in *. split.
  { rewrite PlayoutFacts.playout_same. exact H. }
  assert (Hs : frontier_safe g (rev (path_to_root this up)) fr).
  { apply (initial_frontier_safe g _ _ [] fr E0).
    constructor; [constructor|intros x []|intros x []]. }
  destruct (playout_safe g fuel rs rs' _ fr order Hs H)
    as (rest & -> & Hnd & Hfresh & Hafter).
  exists rest. split; [reflexivity|]. split; [exact Hnd|]. split; [|exact Hafter].
  intros x Hx Hin. apply (Hfresh x Hx). apply in_rev in Hin. exact Hin.
Qed.

(** *** The loop ends *)

Lemma listed_successors_In (g : Graph) (x : Op) :
  In x (listed_successors g) <->
  exists u ss, find_key (succs_ g) u = Some ss /\ In x ss.
Proof.
  unfold listed_successors. rewrite in_flat_map. split.
  - intros (k & _ & Hx). destruct (find_key (succs_ g) k) as [ss|] eqn:E;
      [|destruct Hx]. exists k, ss. auto.
  - intros (u & ss & E & Hx). exists u. rewrite E. split; [|exact Hx].
    apply MctsNodeFacts.find_key_In in E. apply in_map_iff. exists (u, ss). auto.
Qed.

Lemma push_ready_all_ok (g : Graph) (path ss fr : list Op) :
  (forall c, In c ss -> find_key (preds_ g) c <> None) ->
  exists news, push_ready_all g path fr ss = Ok (fr ++ news) /\ incl news ss.
Proof.
  intros Hk. destruct (SimulationFacts.push_ready_all_spec g path ss fr Hk)
    as (news & E & _ & Hin).
  exists news. split; [exact E|]. intros x Hx. apply Hin in Hx. tauto.
Qed.

Lemma initial_frontier_ok (g : Graph) (path todo fr : list Op) :
  graph_closed g ->
  (forall op, In op todo -> find_key (succs_ g) op <> None) ->
  incl fr (listed_successors g) ->
  exists fr', initial_frontier g path todo fr = Ok fr' /\
              incl fr' (listed_successors g).
Proof.
  intros Hc. revert fr. induction todo as [|op todo IH]; intros fr Hk Hf; simpl.
  - exists fr. auto.
  - unfold at_. destruct (find_key (succs_ g) op) as [ss|] eqn:Es.
    2:{ exfalso. apply (Hk op); simpl; auto. }
    cbn [bind].
    destruct (push_ready_all_ok g path ss fr) as (news & E & Hn).
    { intros c Hcin. eapply Hc; eassumption. }
    rewrite E. cbn [bind]. apply IH.
    + intros o Ho. apply Hk. simpl. auto.
    + intros x Hx. apply in_app_or in Hx. destruct Hx as [Hx|Hx]; [auto|].
      apply listed_successors_In. exists op, ss. auto.
Qed.

(** The loop runs once for every op it appends, and these are different
    ops among the listed successors. *)
Lemma playout_ends (g : Graph) (fuel : nat) (rs : RandState)
  (path frontier seen : list Op) :
  graph_closed g ->
  frontier_safe g path frontier ->
  incl frontier (listed_successors g) ->
  NoDup seen -> incl seen (listed_successors g) -> incl seen path ->
  List.length (listed_successors g) <= fuel + List.length seen ->
  exists r, playout rand fuel g rs path frontier = Ok r.
Proof.
  intros Hc. revert rs path frontier seen.
  induction fuel as [|fuel IH]; intros rs path frontier seen Hs Hf Hnd Hu Hp Hlen.
  - destruct frontier as [|x t]; [eexists; reflexivity|]. exfalso.
    assert (Hx : ~ In x seen).
    { intros Hin. apply (fs_fresh g path _ Hs x (or_introl eq_refl)), Hp, Hin. }
    assert (Hle : List.length (x :: seen) <= List.length (listed_successors g)).
    { apply NoDup_incl_length; [constructor; assumption|].
      intros y [<-|Hy]; [apply Hf; left; reflexivity|apply Hu, Hy]. }
    simpl in Hle. lia.
  - destruct frontier as [|f0 t] eqn:Efr; [eexists; reflexivity|].
    rewrite <- Efr in *.
    assert (Hne : List.length frontier <> 0) by (rewrite Efr; discriminate).
    assert (Hpl : playout rand (S fuel) g rs path frontier
                  = let (r, rs1) := rand rs in
                    let ii := r mod List.length frontier in
                    let op := nth ii frontier 0 in
                    let path' := path ++ [op] in
                    ss <- at_ (succs_ g) op ;;
                    frontier' <- push_ready_all g path' frontier ss ;;
                    playout rand fuel g rs1 path' (erase_at ii frontier')).
    { rewrite Efr. reflexivity. }
    rewrite Hpl. clear Hpl.
    destruct (rand rs) as [r rs1]. cbv zeta.
    set (ii := r mod List.length frontier).
    assert (Hii : ii < List.length frontier) by (apply Nat.mod_upper_bound, Hne).
    set (op := nth ii frontier 0).
    assert (Hop : In op frontier) by (apply nth_In, Hii).
    assert (Hlisted : In op (listed_successors g)) by (apply Hf, Hop).
    assert (Hkey : find_key (succs_ g) op <> None).
    { apply listed_successors_In in Hlisted.
      destruct Hlisted as (u & ss0 & E0 & Hin0). apply (Hc u ss0 E0 op Hin0). }
    unfold at_. destruct (find_key (succs_ g) op) as [ss|] eqn:Es; [|congruence].
    cbn [bind].
    destruct (push_ready_all_ok g (path ++ [op]) ss frontier) as (news & E & Hn).
    { intros c Hcin. eapply Hc; eassumption. }
    rewrite E. cbn [bind].
    assert (Hfresh : ~ In op path) by (apply (fs_fresh g path _ Hs), Hop).
    apply (IH rs1 (path ++ [op]) (erase_at ii (frontier ++ news)) (op :: seen)).
    + apply (playout_round_safe g path frontier (frontier ++ news) ss ii Hs Hii E).
    + intros x Hx. apply erase_at_In in Hx. apply in_app_or in Hx.
      destruct Hx as [Hx|Hx]; [auto|].
      apply listed_successors_In. exists op, ss. auto.
    + constructor; [|exact Hnd]. intros Hin. apply Hfresh, Hp, Hin.
    + intros y [<-|Hy]; [exact Hlisted|apply Hu, Hy].
    + intros y [<-|Hy]; apply in_or_app; [right; left; reflexivity|left; apply Hp, Hy].
    + simpl. lia.
Qed.

(** X25: on a graph whose maps have an entry for every successor listed
    and for the ops of the path, the [while] loop of
    [get_simulation_order] ends, cycles in the graph or not: it runs at
    most once for every op [succs_] lists as a successor, and with that
    many rounds allowed both copies return an order. *)
Theorem simulation_order_ends (State double : Type) (fuel : nat) (g : Graph)
  (this : Node State) (up : list (Frame State))
  (this0 : Mcts.Node double) (up0 : list (Mcts.Frame double))
  (rs : RandState) :
  graph_closed g ->
  (forall op, In op (path_to_root this up) -> find_key (succs_ g) op <> None) ->
  Mcts.path_to_root this0 up0 = path_to_root this up ->
  List.length (listed_successors g) <= fuel ->
  exists order rs',
    get_simulation_order rand fuel g (this, up) rs = Ok (order, rs') /\
    Mcts.get_simulation_order rand fuel g (this0, up0) rs = Ok (order, rs').
Proof.
  intros Hc Hk Hp Hfuel.
  unfold get_simulation_order, Mcts.get_simulation_order. rewrite Hp.
  destruct (initial_frontier_ok g (rev (path_to_root this up))
              (rev (path_to_root this up)) [] Hc) as (fr & E0 & Hfr).
  { intros op Hop. apply Hk, in_rev, Hop. }
  { intros x []. }
  rewrite E0. cbn [bind]. rewrite PlayoutFacts.playout_same.
  assert (Hs : frontier_safe g (rev (path_to_root this up)) fr).
  { apply (initial_frontier_safe g _ _ [] fr E0).
    constructor; [constructor|intros x []|intros x []]. }
  destruct (playout_ends g fuel rs (rev (path_to_root this up)) fr [] Hc Hs Hfr)
    as ([order rs'] & E); try (intros x []); [constructor|simpl; lia|].
  exists order, rs'. rewrite E. auto.
Qed.

(** *** Ops the graph does not know *)

Lemma push_ready_all_range (g : Graph) (path ss fr : list Op) :
  (exists fr', push_ready_all g path fr ss = Ok fr') \/
  push_ready_all g path fr ss = OutOfRange.
Proof.
  revert fr. induction ss as [|c ss IH]; intros fr; simpl.
  - left. exists fr. reflexivity.
  - unfold push_ready, at_. destruct (find_key (preds_ g) c); cbn [bind].
    + apply IH.
    + right. reflexivity.
Qed.

Lemma initial_frontier_missing (g : Graph) (path todo fr : list Op) (op : Op) :
  In op todo -> find_key (succs_ g) op = None ->
  initial_frontier g path todo fr = OutOfRange.
Proof.
  intros Hin Hn. revert fr. induction todo as [|o todo IH]; intros fr; [destruct Hin|].
  simpl. unfold at_ at 1. destruct (find_key (succs_ g) o) as [ss|] eqn:Es.
  - cbn [bind]. destruct (push_ready_all_range g path ss fr) as [[fr' E]|E];
      rewrite E; cbn [bind]; [|reflexivity].
    apply IH. destruct Hin as [<-|Hin]; [congruence|exact Hin].
  - reflexivity.
Qed.

Lemma gather_succs_missing (g : Graph) (path acc : list Op) (op : Op) :
  In op path -> find_key (succs_ g) op = None ->
  gather_succs g path acc = OutOfRange.
Proof.
  intros Hin Hn. revert acc. induction path as [|o path IH]; intros acc; [destruct Hin|].
  simpl. unfold at_. destruct (find_key (succs_ g) o) as [ss|] eqn:Es.
  - cbn [bind]. apply IH. destruct Hin as [<-|Hin]; [congruence|exact Hin].
  - reflexivity.
Qed.

(** X21: an op on the path from a node to the root that has no entry in
    [succs_] makes [get_simulation_order] (either copy) and, at a node
    that is not expanded yet, [expand] of [mcts_node.hpp] throw
    [std::out_of_range], the exception of [std::map::at]; no order and
    no child is produced. *)
Theorem missing_successors_out_of_range (State Time double : Type)
  (times : State -> list Time) (init_state : State)
  (fuel : nat) (g : Graph)
  (this : Node State) (up : list (Frame State))
  (this0 : Mcts.Node double) (up0 : list (Mcts.Frame double))
  (rs : RandState) (op : Op) :
  In op (path_to_root this up) ->
  find_key (succs_ g) op = None ->
  Mcts.path_to_root this0 up0 = path_to_root this up ->
  get_simulation_order rand fuel g (this, up) rs = OutOfRange /\
  Mcts.get_simulation_order rand fuel g (this0, up0) rs = OutOfRange /\
  (expanded_ this = false -> expand times init_state g (this, up) = OutOfRange).
Proof.
  intros Hin Hn Hp.
  assert (H0 : initial_frontier g (rev (path_to_root this up))
                 (rev (path_to_root this up)) [] = OutOfRange).
  { apply (initial_frontier_missing g _ _ [] op); [|exact Hn].
    apply in_rev in Hin. exact Hin. }
  split; [|split].
  - unfold get_simulation_order. rewrite H0. reflexivity.
  - unfold Mcts.get_simulation_order. rewrite Hp, H0. reflexivity.
  - intros He. unfold expand, generate_children, expand_frontier. rewrite He.
    rewrite (gather_succs_missing g _ [] op Hin Hn). reflexivity.
Qed.

End WithRand.

End OrderFacts.

(** ** Runs on the sample graphs *)

Module OrderRuns.
Import Outcomes Graphs MctsNode GraphSpec TreeSpec OrderFacts.

Lemma simulation_order_safe_witness :
  Mcts.get_simulation_order Samples.lcg 4 Samples.diamond (Mcts.new_Node nat 0, []) 7
  = Ok ([0; 2; 1; 3], 8) /\
  exists rest,
    [0; 2; 1; 3] = [0] ++ rest /\ NoDup rest /\
    (forall x, In x rest -> ~ In x [0]) /\
    after_preds Samples.diamond [0] rest.
Proof.
  apply (simulation_order_safe nat Samples.lcg (list nat) nat 4 Samples.diamond
           (new_Node [] 0) [] (Mcts.new_Node nat 0) [] 7 8 [0; 2; 1; 3]
           eq_refl eq_refl).
Defined.

(** On a graph with a cycle the loop stops before the cycle. *)
Lemma simulation_order_ends_witness :
  exists order rs',
    get_simulation_order Samples.lcg 4 TreeSamples.looped
      (new_Node (@nil nat) 0, []) 7 = Ok (order, rs') /\
    Mcts.get_simulation_order Samples.lcg 4 TreeSamples.looped
      (Mcts.new_Node nat 0, []) 7 = Ok (order, rs').
Proof.
  apply (simulation_order_ends nat Samples.lcg (list nat) nat 4 TreeSamples.looped
           (new_Node [] 0) [] (Mcts.new_Node nat 0) [] 7).
  - apply MctsNodeFacts.graph_closedb_sound. reflexivity.
  - intros op [<-|[]]. discriminate.
  - reflexivity.
  - simpl. lia.
Defined.

(** A graph whose [succs_] has no entry for the op [a] of the edge
    [start -> a]. *)
Lemma missing_successors_out_of_range_witness :
  get_simulation_order Samples.lcg 4
    (mkGraph 0 [(0, [1])] [(0, []); (1, [0])])
    (new_Node (@nil nat) 1, [mkFrame 0 [] [] true false 0%N []]) 7
  = OutOfRange /\
  expand Samples.recorded []
    (mkGraph 0 [(0, [1])] [(0, []); (1, [0])])
    (new_Node (@nil nat) 1, [mkFrame 0 [] [] true false 0%N []])
  = OutOfRange.
Proof.
  destruct (missing_successors_out_of_range nat Samples.lcg (list nat) nat nat
              Samples.recorded [] 4
              (mkGraph 0 [(0, [1])] [(0, []); (1, [0])])
              (new_Node [] 1) [mkFrame 0 [] [] true false 0%N []]
              (Mcts.new_Node nat 1) [Mcts.mkFrame 0 [] [] [] true]
              7 1 ltac:(simpl; auto) eq_refl eq_refl)
    as (H1 & _ & H3).
  split; [exact H1|apply H3; reflexivity].
Defined.

End OrderRuns.

(** ** The flags of the search tree *)

Module FlagsFacts.
Import Outcomes Graphs GraphFacts MctsNode GraphSpec ExpandFacts TreeSpec.

Section WithStrategy.

Variable Context : Type.
Variable State : Type.
Variable Time : Type.
Variable times : State -> list Time.
Variable init_state : State.
Variable BenchResult : Type.
Variable Strategy_backprop :
  Context -> Node State -> BenchResult -> Context * State.

Local Abbreviation Node := (Node State).
Local Abbreviation Frame := (Frame State).
Local Abbreviation backprop := (backprop Strategy_backprop).
Local Abbreviation expand := (expand times init_state).
Local Abbreviation generate_children := (generate_children init_state).
Local Abbreviation new_Node := (new_Node init_state).
Local Abbreviation flags_sound := (flags_sound State).

Lemma flags_sound_fields (nd : Node) :
  flags_sound nd = true <->
  (fullyVisited_ nd = true ->
   expanded_ nd = true /\ forallb (@fullyVisited_ State) (children_ nd) = true) /\
  (expanded_ nd = false -> children_ nd = []) /\
  forallb flags_sound (children_ nd) = true.
Proof.
  destruct nd as [op cs ex fv n st]. cbn [TreeSpec.flags_sound fullyVisited_ expanded_ children_].
  rewrite !andb_true_iff. split.
  - intros [[H1 H2] H3]. split; [|split; [|exact H3]].
    + intros ->. simpl in H1. apply andb_true_iff in H1. exact H1.
    + intros ->. simpl in H2. destruct cs; [reflexivity|discriminate].
  - intros (H1 & H2 & H3). split; [split|exact H3].
    + destruct fv; [|reflexivity]. simpl. apply andb_true_iff, H1. reflexivity.
    + destruct ex; [reflexivity|]. simpl. rewrite H2; reflexivity.
Qed.

Lemma flags_sound_new_Node (op : Op) : flags_sound (new_Node op) = true.
Proof. reflexivity. Qed.

(** A node in its parent: what the parent needs from it. *)
Lemma flags_sound_plug (f : Frame) (a b : Node) :
  (flags_sound a = true -> flags_sound b = true) ->
  (fullyVisited_ a = true -> fullyVisited_ b = true) ->
  flags_sound (plug f a) = true -> flags_sound (plug f b) = true.
Proof.
  intros Hs Hf H. apply flags_sound_fields in H. apply flags_sound_fields.
  unfold plug in *. simpl in *. destruct H as (H1 & H2 & H3).
  rewrite forallb_app in H3. simpl in H3.
  apply andb_true_iff in H3. destruct H3 as [H3l H3r].
  apply andb_true_iff in H3r. destruct H3r as [H3a H3r].
  split; [|split].
  - intros Hfv. destruct (H1 Hfv) as [He Hc]. split; [exact He|].
    rewrite forallb_app in *. simpl in *.
    apply andb_true_iff in Hc. destruct Hc as [Hcl Hcr].
    apply andb_true_iff in Hcr. destruct Hcr as [Hca Hcr].
    rewrite Hcl, (Hf Hca), Hcr. reflexivity.
  - intros He. specialize (H2 He). destruct (fr_left f); discriminate.
  - rewrite forallb_app. simpl. rewrite H3l, (Hs H3a), H3r. reflexivity.
Qed.

(** Replacing a node of a sound tree by a sound node that is fully
    visited if the old one was leaves the tree sound. *)
Lemma flags_sound_replace (up : list Frame) (a b : Node) :
  (flags_sound a = true -> flags_sound b = true) ->
  (fullyVisited_ a = true -> fullyVisited_ b = true) ->
  flags_sound (root_of a up) = true -> flags_sound (root_of b up) = true.
Proof.
  revert a b. induction up as [|f up IH]; intros a b Hs Hf; simpl; [exact Hs|].
  apply IH.
  - apply flags_sound_plug; assumption.
  - intros H. exact H.
Qed.

Lemma flags_sound_visit (this : Node) (st : State) :
  flags_sound this = true ->
  flags_sound (set_state (visit this) st) = true.
Proof.
  intros H. apply flags_sound_fields in H. apply flags_sound_fields.
  destruct H as (H1 & H2 & H3).
  unfold set_state, visit. simpl. split; [|split; assumption].
  destruct (children_ this) as [|c cs] eqn:Ec.
  - destruct (expanded_ this) eqn:Ee.
    + intros _. auto.
    + intros Hfv. destruct (H1 Hfv) as [He _]. discriminate.
  - rewrite MctsNodeFacts.allChildrenVisited_forallb.
    destruct (forallb (@fullyVisited_ State) (c :: cs)) eqn:Ef.
    + intros _. split; [|reflexivity].
      destruct (expanded_ this) eqn:Ee; [reflexivity|].
      specialize (H2 eq_refl). discriminate.
    + intros Hfv. destruct (H1 Hfv) as [He Hc]. congruence.
Qed.

Lemma fullyVisited_visit (this : Node) (st : State) :
  fullyVisited_ this = true -> fullyVisited_ (set_state (visit this) st) = true.
Proof.
  intros H. unfold set_state, visit. simpl. rewrite H.
  destruct (children_ this); [destruct (expanded_ this)|
                              destruct (allChildrenVisited _)]; reflexivity.
Qed.

(** The root after a [backprop] that started below it is the root after
    the [backprop] of the parent. *)
Lemma backprop_root (ctx : Context) (this : Node) (f : Frame) (up : list Frame)
  (br : BenchResult) :
  let this2 := set_state (visit this)
                         (snd (Strategy_backprop ctx (visit this) br)) in
  let ctx1 := fst (Strategy_backprop ctx (visit this) br) in
  root_of (fst (snd (fst (backprop ctx this (f :: up) br))))
          (snd (snd (fst (backprop ctx this (f :: up) br))))
  = root_of (fst (snd (fst (backprop ctx1 (plug f this2) up br))))
            (snd (snd (fst (backprop ctx1 (plug f this2) up br)))).
Proof.
  cbv zeta. cbn [MctsNode.backprop].
  destruct (Strategy_backprop ctx (visit this) br) as [c s]. cbn [fst snd].
  pose proof (MctsNodeFacts.backprop_this _ _ _ Strategy_backprop c
                (plug f (set_state (visit this) s)) up br) as Hthis.
  destruct (backprop c (plug f (set_state (visit this) s)) up br)
    as [[c2 [p' u'']] calls].
  cbn [fst snd] in *. cbn [root_of]. f_equal.
  apply MctsNodeFacts.plug_reframe. rewrite Hthis. reflexivity.
Qed.

Lemma backprop_sound (ctx : Context) (this : Node) (up : list Frame)
  (br : BenchResult) :
  flags_sound (root_of this up) = true ->
  flags_sound (root_of (fst (snd (fst (backprop ctx this up br))))
                       (snd (snd (fst (backprop ctx this up br))))) = true.
Proof.
  revert ctx this. induction up as [|f up IH]; intros ctx this H.
  - cbn [MctsNode.backprop].
    destruct (Strategy_backprop ctx (visit this) br) as [c s]. cbn [fst snd root_of].
    apply flags_sound_visit. exact H.
  - rewrite backprop_root. apply IH.
    change (flags_sound
              (root_of (set_state (visit this)
                          (snd (Strategy_backprop ctx (visit this) br)))
                       (f :: up)) = true).
    revert H. apply flags_sound_replace.
    + apply flags_sound_visit.
    + apply fullyVisited_visit.
Qed.

Lemma generate_children_sound (g : Graph) (this this' : Node) (up : list Frame) :
  generate_children g this up = Ok this' ->
  (flags_sound this = true -> flags_sound this' = true) /\
  (fullyVisited_ this = true -> fullyVisited_ this' = true).
Proof.
  unfold MctsNode.generate_children. destruct (expanded_ this) eqn:Ee.
  - intros [= <-]. auto.
  - destruct (expand_frontier g (path_to_root this up)) as [fr| | |];
      cbn [bind]; try discriminate.
    intros [= <-]. split; [|intros H; exact H].
    intros H. apply flags_sound_fields in H. destruct H as (H1 & H2 & H3).
    apply flags_sound_fields. simpl. rewrite (H2 Ee). simpl.
    split; [|split].
    + intros Hfv. destruct (H1 Hfv) as [He _]. congruence.
    + discriminate.
    + apply forallb_forall. intros c Hc. apply in_map_iff in Hc.
      destruct Hc as (op & <- & _). reflexivity.
Qed.

Lemma expand_root (g : Graph) (this : Node) (up : list Frame)
  (loc : Location State) :
  expand g (this, up) = Ok loc ->
  exists this', generate_children g this up = Ok this' /\
                root_of (fst loc) (snd loc) = root_of this' up.
Proof.
  unfold MctsNode.expand.
  destruct (generate_children g this up) as [this'| | |]; cbn [bind]; try discriminate.
  intros H. exists this'. split; [reflexivity|].
  pose proof (MctsNodeFacts.first_unplayed_spec State Time times [] (children_ this'))
    as Hf.
  destruct (children_ this') as [|c cs] eqn:Ec.
  - injection H as <-. reflexivity.
  - destruct (first_unplayed times [] (c :: cs)) as [[[b c'] a]|]; [|discriminate].
    injection H as <-. destruct Hf as (l & -> & Hl & _). simpl in *.
    f_equal. unfold plug, frame_around. simpl. rewrite <- Hl, <- Ec.
    destruct this'; reflexivity.
Qed.

(** X19: the flags of the search tree of [mcts_node.hpp] stay sound: in the
    tree a new root makes, and in every tree [expand] and [backprop] make
    from a sound one (whatever node they are called at), a node marked
    fully visited is expanded and all its children are marked fully
    visited, and a node that is not expanded has no children. *)
Theorem fully_visited_flags_sound :
  (forall op, flags_sound (new_Node op) = true) /\
  (forall g this up loc,
     flags_sound (root_of this up) = true ->
     expand g (this, up) = Ok loc ->
     flags_sound (root_of (fst loc) (snd loc)) = true) /\
  (forall ctx this up br,
     flags_sound (root_of this up) = true ->
     flags_sound (root_of (fst (snd (fst (backprop ctx this up br))))
                          (snd (snd (fst (backprop ctx this up br))))) = true) /\
  (forall nd,
     flags_sound nd = true ->
     (fullyVisited_ nd = true ->
      expanded_ nd = true /\
      forall c, In c (children_ nd) -> fullyVisited_ c = true) /\
     (expanded_ nd = false -> children_ nd = []) /\
     (forall c, In c (children_ nd) -> flags_sound c = true)).
Proof.
  split; [exact flags_sound_new_Node|]. split; [|split].
  - intros g this up loc H E.
    destruct (expand_root g this up loc E) as (this' & Eg & ->).
    destruct (generate_children_sound g this this' up Eg) as [Hs Hf].
    revert H. apply flags_sound_replace; assumption.
  - intros ctx this up br. apply backprop_sound.
  - intros nd H. apply flags_sound_fields in H. destruct H as (H1 & H2 & H3).
    split; [|split; [exact H2|]].
    + intros Hfv. destruct (H1 Hfv) as [He Hc]. split; [exact He|].
      apply forallb_forall. exact Hc.
    + apply forallb_forall. exact H3.
Qed.

End WithStrategy.

End FlagsFacts.

(** ** The visit counts of the search tree *)

Module CountsFacts.
Import Outcomes Graphs GraphFacts MctsNode GraphSpec ExpandFacts TreeSpec FlagsFacts.

Section WithStrategy.

Variable Context : Type.
Variable State : Type.
Variable Time : Type.
Variable times : State -> list Time.
Variable init_state : State.
Variable BenchResult : Type.
Variable Strategy_backprop :
  Context -> Node State -> BenchResult -> Context * State.

Local Abbreviation Node := (Node State).
Local Abbreviation Frame := (Frame State).
Local Abbreviation backprop := (backprop Strategy_backprop).
Local Abbreviation expand := (expand times init_state).
Local Abbreviation generate_children := (generate_children init_state).
Local Abbreviation new_Node := (new_Node init_state).
Local Abbreviation counts_ok := (counts_ok State).
Local Abbreviation counts_above := (counts_above State).
Local Abbreviation visits := (visits State).

Lemma visits_app (a b : list Node) : visits (a ++ b) = (visits a + visits b)%N.
Proof.
  induction a as [|c a IH]; simpl; [reflexivity|]. rewrite IH. lia.
Qed.

Lemma counts_ok_fields (nd : Node) :
  counts_ok nd = true <->
  (visits (children_ nd) <= n_ nd)%N /\ forallb counts_ok (children_ nd) = true.
Proof.
  destruct nd as [op cs ex fv n st]. cbn [TreeSpec.counts_ok n_ children_].
  rewrite andb_true_iff, N.leb_le. reflexivity.
Qed.

Lemma size_incr_fits (n : N) : (n + 1 < size_max)%N -> size_incr n = (n + 1)%N.
Proof. intros H. unfold size_incr. apply N.mod_small, H. Qed.

(** A subtree whose counts add up, in a tree whose counts add up. *)
Lemma counts_ok_above (up : list Frame) (this : Node) :
  counts_ok (root_of this up) = true ->
  (n_ (root_of this up) + 1 < size_max)%N ->
  counts_ok this = true /\ (n_ this + 1 < size_max)%N /\
  counts_above (n_ this + 1) up.
Proof.
  revert this. induction up as [|f up IH]; intros this H Hn; simpl in *.
  - auto.
  - destruct (IH _ H Hn) as (Hp & Hpn & Hup).
    apply counts_ok_fields in Hp. unfold plug in Hp, Hpn, Hup.
    cbn [n_ children_] in Hp, Hpn, Hup. destruct Hp as [Hs Hc].
    rewrite visits_app in Hs. simpl in Hs.
    rewrite forallb_app in Hc. simpl in Hc.
    apply andb_true_iff in Hc. destruct Hc as [Hl Hc].
    apply andb_true_iff in Hc. destruct Hc as [Ht Hr].
    split; [exact Ht|]. split; [lia|]. split; [|split; [lia|split; [exact Hpn|exact Hup]]].
    rewrite forallb_app, Hl, Hr. reflexivity.
Qed.

(** [backprop] from a node whose children were visited at most once more
    than the node. *)
Lemma backprop_counts (up : list Frame) (ctx : Context) (this : Node)
  (br : BenchResult) :
  (visits (children_ this) <= n_ this + 1)%N ->
  forallb counts_ok (children_ this) = true ->
  (n_ this + 1 < size_max)%N ->
  counts_above (n_ this + 1) up ->
  counts_ok (root_of (fst (snd (fst (backprop ctx this up br))))
                     (snd (snd (fst (backprop ctx this up br))))) = true.
Proof.
  revert ctx this. induction up as [|f up IH]; intros ctx this Hs Hc Hn Hup.
  - cbn [MctsNode.backprop].
    destruct (Strategy_backprop ctx (visit this) br) as [c s]. cbn [fst snd root_of].
    apply counts_ok_fields. unfold set_state, visit. cbn [n_ children_].
    rewrite size_incr_fits by exact Hn. auto.
  - rewrite backprop_root. destruct Hup as (Hsib & Hsum & Hfn & Hup).
    rewrite forallb_app in Hsib. apply andb_true_iff in Hsib.
    destruct Hsib as [Hl Hr].
    apply IH; unfold plug, set_state, visit; cbn [n_ children_].
    + rewrite visits_app. simpl. rewrite size_incr_fits by exact Hn. lia.
    + rewrite forallb_app. simpl. rewrite Hl, Hr, andb_true_r. simpl.
      apply andb_true_iff. split; [|exact Hc].
      apply N.leb_le. rewrite size_incr_fits by exact Hn. exact Hs.
    + exact Hfn.
    + exact Hup.
Qed.

(** Replacing a node by one with the same count leaves the counts above
    it as they are. *)
Lemma counts_ok_replace (up : list Frame) (a b : Node) :
  n_ b = n_ a ->
  (counts_ok a = true -> counts_ok b = true) ->
  counts_ok (root_of a up) = true -> counts_ok (root_of b up) = true.
Proof.
  revert a b. induction up as [|f up IH]; intros a b Hn Hs; simpl; [exact Hs|].
  apply IH; [reflexivity|].
  intros H. apply counts_ok_fields in H. apply counts_ok_fields.
  unfold plug in *. cbn [n_ children_] in *. destruct H as [H1 H2].
  rewrite visits_app in *. simpl in *. rewrite forallb_app in *. simpl in *.
  apply andb_true_iff in H2. destruct H2 as [Hl H2].
  apply andb_true_iff in H2. destruct H2 as [Ha Hr].
  rewrite Hn, Hl, (Hs Ha), Hr. auto.
Qed.

Lemma generate_children_counts (g : Graph) (this this' : Node) (up : list Frame) :
  generate_children g this up = Ok this' ->
  n_ this' = n_ this /\ (counts_ok this = true -> counts_ok this' = true).
Proof.
  unfold MctsNode.generate_children. destruct (expanded_ this) eqn:Ee.
  - intros [= <-]. auto.
  - destruct (expand_frontier g (path_to_root this up)) as [fr| | |];
      cbn [bind]; try discriminate.
    intros [= <-]. split; [reflexivity|]. intros H.
    apply counts_ok_fields in H. destruct H as [Hs Hc].
    apply counts_ok_fields. unfold set_children. cbn [n_ children_].
    assert (Hv : forall l, visits (map new_Node l) = 0%N).
    { induction l as [|x l IHl]; simpl; [reflexivity|]. rewrite IHl. reflexivity. }
    rewrite visits_app, Hv, forallb_app, Hc. split; [lia|].
    apply forallb_forall. intros c Hin. apply in_map_iff in Hin.
    destruct Hin as (op & <- & _). reflexivity.
Qed.

(** X26: the visit counts of the search tree of [mcts_node.hpp] add up: in
    the tree a new root makes, and in every tree [expand] and [backprop]
    make from one whose counts add up (whatever node they are called at,
    as long as the root's [n_] does not wrap around), the children of a
    node were visited no more often than the node. *)
Theorem visit_counts_add_up :
  (forall op, counts_ok (new_Node op) = true) /\
  (forall g this up loc,
     counts_ok (root_of this up) = true ->
     expand g (this, up) = Ok loc ->
     counts_ok (root_of (fst loc) (snd loc)) = true) /\
  (forall ctx this up br,
     counts_ok (root_of this up) = true ->
     (n_ (root_of this up) + 1 < size_max)%N ->
     counts_ok (root_of (fst (snd (fst (backprop ctx this up br))))
                        (snd (snd (fst (backprop ctx this up br))))) = true) /\
  (forall nd,
     counts_ok nd = true ->
     (visits (children_ nd) <= n_ nd)%N /\
     (forall c, In c (children_ nd) -> (n_ c <= n_ nd)%N /\ counts_ok c = true)).
Proof.
  split; [reflexivity|]. split; [|split].
  - intros g this up loc H E.
    destruct (expand_root State Time times init_state g this up loc E) as (this' & Eg & ->).
    destruct (generate_children_counts g this this' up Eg) as [Hn Hs].
    revert H. apply counts_ok_replace; assumption.
  - intros ctx this up br H Hn.
    destruct (counts_ok_above up this H Hn) as (Ht & Htn & Hup).
    apply counts_ok_fields in Ht. destruct Ht as [Hs Hc].
    apply backprop_counts; [lia|assumption..].
  - intros nd H. apply counts_ok_fields in H. destruct H as [Hs Hc].
    split; [exact Hs|]. intros c Hin. split.
    + revert Hs. clear Hc. induction (children_ nd) as [|x l IHl]; [destruct Hin|].
      simpl. destruct Hin as [->|Hin]; [lia|]. intros Hs. apply IHl; [exact Hin|lia].
    + revert c Hin. apply forallb_forall. exact Hc.
Qed.

End WithStrategy.

End CountsFacts.

(** ** More facts about the search node of [mcts.cpp] *)

Module LegacyFacts.
Import Outcomes Graphs GraphFacts GraphSpec ExpandFacts TreeSpec Mcts.

Section WithDouble.

Variable double : Type.
Variable uct_argmax : Context double -> Node double -> nat.

Local Abbreviation Node := (Node double).
Local Abbreviation Frame := (Frame double).
Local Abbreviation select := (select uct_argmax).
Local Abbreviation path_nodes := (TreeSpec.path_nodes double).

(** Induction on a node with the property at hand for its children. *)
Lemma Node_forall_ind (P : Node -> Prop) :
  (forall op cs ts ex, Forall P cs -> P (mkNode op cs ts ex)) -> forall n, P n.
Proof.
  intros H. fix IH 1. intros [op cs ts ex]. apply H.
  induction cs as [|c cs IHcs]; constructor; [apply IH|exact IHcs].
Qed.

(** *** [select], then [expand] *)

(** [select] changes nothing and stops at a leaf or at a terminal node. *)
Lemma select_stops (ctx : Context double) (g : Graph) (this : Node) :
  forall (up : list Frame) (loc : Location double),
  select ctx g this up = Ok loc ->
  (is_leaf (fst loc) = true \/ is_terminal g (fst loc) = Ok true) /\
  root_of (fst loc) (snd loc) = root_of this up.
Proof.
  induction this as [op cs ts ex HF] using Node_forall_ind.
  intros up loc H. cbn [Mcts.select] in H.
  set (this := mkNode op cs ts ex) in *.
  destruct (is_leaf this) eqn:El.
  { injection H as <-. simpl. auto. }
  destruct (is_terminal g this) as [t| | |] eqn:Et; cbn [bind] in H; try discriminate.
  destruct t.
  { injection H as <-. simpl. auto. }
  revert H. generalize (uct_argmax ctx this). intros im H.
  match type of H with
  | ?d [] cs im = Ok loc =>
      assert (Hd : forall after before i,
                 before ++ after = cs -> d before after i = Ok loc ->
                 (is_leaf (fst loc) = true \/ is_terminal g (fst loc) = Ok true) /\
                 root_of (fst loc) (snd loc) = root_of this up)
  end.
  { clear H im. induction after as [|child rest IHa]; intros before i Hcs Hd.
    - discriminate.
    - destruct i as [|i].
      + rewrite Forall_forall in HF.
        assert (Hin : In child cs).
        { rewrite <- Hcs. apply in_or_app. simpl. auto. }
        destruct (HF child Hin _ _ Hd) as [H1 H2]. split; [exact H1|].
        rewrite H2. simpl. f_equal. unfold plug, frame_around. simpl.
        rewrite Hcs. reflexivity.
      + apply (IHa (before ++ [child]) i); [|exact Hd].
        rewrite <- app_assoc. exact Hcs. }
  apply (Hd cs [] im eq_refl H).
Qed.

Lemma first_unplayed_none (before cs : list Node) :
  first_unplayed before cs = None -> existsb (@unplayed double) cs = false.
Proof.
  revert before. induction cs as [|c cs IH]; intros before; simpl; [reflexivity|].
  destruct (unplayed c); [discriminate|]. apply IH.
Qed.

Lemma gather_succs_range (g : Graph) (path acc : list Op) :
  (exists fr, gather_succs g path acc = Ok fr) \/
  gather_succs g path acc = OutOfRange.
Proof.
  revert acc. induction path as [|op path IH]; intros acc; simpl.
  - left. exists acc. reflexivity.
  - unfold at_. destruct (find_key (succs_ g) op); cbn [bind]; [apply IH|].
    right. reflexivity.
Qed.

Lemma first_unready_range (g : Graph) (path fr : list Op) :
  (exists r, MctsNode.first_unready g path fr = Ok r) \/
  MctsNode.first_unready g path fr = OutOfRange.
Proof.
  induction fr as [|x fr IH]; simpl.
  - left. exists None. reflexivity.
  - unfold at_. destruct (find_key (preds_ g) x) as [ps|]; cbn [bind].
    + destruct (MctsNode.some_pred_missing path ps).
      * left. exists (Some 0). reflexivity.
      * destruct IH as [[r E]|E]; rewrite E; cbn [bind].
        -- left. eexists. reflexivity.
        -- right. reflexivity.
    + right. reflexivity.
Qed.

Lemma prune_unready_no_throw (g : Graph) (path : list Op) (rounds : nat)
  (fr : list Op) (msg : string) :
  MctsNode.prune_unready rounds g path fr <> Throw msg.
Proof.
  revert fr. induction rounds as [|rounds IH]; intros fr; simpl; [discriminate|].
  destruct (first_unready_range g path fr) as [[r E]|E]; rewrite E; cbn [bind].
  - destruct r; [apply IH|discriminate].
  - discriminate.
Qed.

Lemma generate_children_leaf (g : Graph) (this this' : Node) (up : list Frame) :
  is_leaf this = true ->
  generate_children g this up = Ok this' ->
  is_leaf this' = true.
Proof.
  intros Hl. unfold generate_children. destruct (expanded_ this).
  { intros [= <-]. exact Hl. }
  destruct (gather_succs g (path_to_root this up) []) as [fr| | |];
    cbn [bind]; try discriminate.
  destruct (MctsNode.prune_unready _ g _ _) as [fr'| | |]; cbn [bind];
    try discriminate.
  intros [= <-]. unfold is_leaf in *. simpl.
  destruct (children_ this) as [|c cs] eqn:Ec; simpl.
  - destruct fr' as [|x fr']; reflexivity.
  - simpl in Hl. rewrite existsb_app, orb_assoc, Hl. reflexivity.
Qed.

Lemma generate_children_no_throw (g : Graph) (this : Node) (up : list Frame)
  (msg : string) :
  generate_children g this up <> Throw msg.
Proof.
  unfold generate_children. destruct (expanded_ this); [discriminate|].
  destruct (gather_succs_range g (path_to_root this up) []) as [[fr E]|E];
    rewrite E; cbn [bind]; [|discriminate].
  pose proof (prune_unready_no_throw g (path_to_root this up)
                (S (List.length (MctsNode.remove_done (path_to_root this up) fr)))
                (MctsNode.remove_done (path_to_root this up) fr) msg) as Hp.
  destruct (MctsNode.prune_unready _ g _ _) as [fr'| | |]; cbn [bind];
    try discriminate.
  congruence.
Qed.

(** [expand] at a leaf or at a terminal node does not reach its
    [THROW_RUNTIME]. *)
Lemma expand_no_throw (g : Graph) (this : Node) (up : list Frame) (msg : string) :
  is_leaf this = true \/ is_terminal g this = Ok true ->
  expand g (this, up) <> Throw msg.
Proof.
  intros Hstop. unfold expand.
  destruct (is_terminal g this) as [t| | |] eqn:Et; cbn [bind]; try discriminate.
  { destruct t; [discriminate|].
    destruct Hstop as [Hl|Ht]; [|discriminate].
    pose proof (generate_children_no_throw g this up msg) as Hg.
    destruct (generate_children g this up) as [this'| | |] eqn:Eg; cbn [bind];
      try discriminate; [|congruence].
    pose proof (generate_children_leaf g this this' up Hl Eg) as Hleaf.
    unfold is_leaf in Hleaf.
    destruct (children_ this') as [|c cs] eqn:Ec; [discriminate|].
    destruct (first_unplayed [] (c :: cs)) as [[[b c'] a]|] eqn:Ef; [discriminate|].
    apply first_unplayed_none in Ef. congruence. }
  unfold is_terminal, at_ in Et.
  destruct (find_key (succs_ g) (op_ this)); discriminate.
Qed.

(** X17: in [mcts.cpp], [select] leaves the tree as it is and returns a
    node that is a leaf or terminal, and [expand] called on that node
    never reaches its [THROW_RUNTIME("unreachable")]: it throws nothing
    but the [std::out_of_range] of a map look-up, and on a graph whose
    maps know the ops involved it returns a node. *)
Theorem select_then_expand (ctx : Context double) (g : Graph) (root : Node)
  (loc : Location double) :
  select ctx g root [] = Ok loc ->
  (is_leaf (fst loc) = true \/ is_terminal g (fst loc) = Ok true) /\
  root_of (fst loc) (snd loc) = root /\
  (forall msg, expand g loc <> Throw msg) /\
  (graph_closed g ->
   (forall op, In op (path_to_root (fst loc) (snd loc)) ->
               find_key (succs_ g) op <> None) ->
   is_ok (expand g loc) = true).
Proof.
  intros H. destruct (select_stops ctx g root [] loc H) as [Hstop Hroot].
  destruct loc as [this up]. cbn [fst snd] in *.
  split; [exact Hstop|]. split; [exact Hroot|]. split.
  { intros msg. apply expand_no_throw, Hstop. }
  intros Hc Hk.
  pose proof (expand_no_throw g this up) as Hnt.
  unfold expand in *.
  unfold is_terminal, at_ in *.
  destruct (find_key (succs_ g) (op_ this)) as [ss|] eqn:Es.
  2:{ exfalso. apply (Hk (op_ this)); [left; reflexivity|exact Es]. }
  cbn [bind] in *.
  destruct ss as [|s ss]; [reflexivity|].
  assert (Hgen : exists this', generate_children g this up = Ok this').
  { unfold generate_children. destruct (expanded_ this); [eexists; reflexivity|].
    destruct (ChildrenFacts.expand_frontier_both g (path_to_root this up) Hc Hk)
      as (gathered & frontier & H1 & H2 & _).
    rewrite H1. cbn [bind]. rewrite H2. cbn [bind]. eexists. reflexivity. }
  destruct Hgen as [this' Eg]. rewrite Eg in *. cbn [bind] in *.
  destruct (children_ this') as [|c cs]; [reflexivity|].
  destruct (first_unplayed [] (c :: cs)) as [[[b c'] a]|]; [reflexivity|].
  exfalso. apply (Hnt "unreachable"); [|reflexivity].
  destruct Hstop as [Hl|Ht]; [left; exact Hl|discriminate].
Qed.

(** *** [backprop] *)

Variable std_sort : list double -> list double.
Variable le : double -> double -> Prop.

Local Abbreviation backprop := (backprop std_sort).

(** What [backprop(med)] does to a node of the path. *)
Local Abbreviation recorded med :=
  (fun old new : Node =>
     op_ new = op_ old /\ expanded_ new = expanded_ old /\
     times_ new = std_sort (times_ old ++ [med])).

Lemma path_nodes_own (up : list Frame) (a b : Node) (P : Node -> Node -> Prop) :
  (forall x y x', op_ x' = op_ x -> expanded_ x' = expanded_ x ->
                  times_ x' = times_ x -> P x y -> P x' y) ->
  op_ b = op_ a -> expanded_ b = expanded_ a -> times_ b = times_ a ->
  forall l, Forall2 P (path_nodes a up) l -> Forall2 P (path_nodes b up) l.
Proof.
  intros HP. revert a b. induction up as [|f up IH]; intros a b H1 H2 H3 l HF;
    simpl in *.
  - inversion HF as [|x y l1 l2 Hxy Hl]; subst. constructor; [|exact Hl].
    apply (HP a y b); assumption.
  - inversion HF as [|x y l1 l2 Hxy Hl]; subst. constructor.
    + apply (HP a y b); assumption.
    + apply (IH (plug f a) (plug f b)); auto.
Qed.

Lemma legacy_backprop_this (this : Node) (up : list Frame) (med : double) :
  fst (backprop this up med)
  = mkNode (op_ this) (children_ this) (std_sort (times_ this ++ [med]))
           (expanded_ this).
Proof.
  destruct up as [|f up]; simpl; [reflexivity|].
  destruct (backprop _ up med). reflexivity.
Qed.

Lemma backprop_path (this : Node) (up : list Frame) (med : double) :
  Forall2 (recorded med) (path_nodes this up)
          (path_nodes (fst (backprop this up med)) (snd (backprop this up med))) /\
  Forall2 (fun f f' => fr_left f' = fr_left f /\ fr_right f' = fr_right f)
          up (snd (backprop this up med)).
Proof.
  revert this. induction up as [|f up IH]; intros this.
  - simpl. split; repeat constructor.
  - cbn [Mcts.backprop].
    set (this' := mkNode (op_ this) (children_ this)
                         (std_sort (times_ this ++ [med])) (expanded_ this)).
    destruct (IH (plug f this')) as [IH1 IH2].
    pose proof (legacy_backprop_this (plug f this') up med) as Hthis.
    destruct (backprop (plug f this') up med) as [parent' up''].
    cbn [fst snd] in *. split.
    + cbn [TreeSpec.path_nodes]. constructor; [simpl; auto|].
      assert (Hplug : plug (mkFrame (op_ parent') (fr_left f) (fr_right f)
                                    (times_ parent') (expanded_ parent')) this'
                      = parent').
      { rewrite Hthis. reflexivity. }
      rewrite Hplug.
      apply (path_nodes_own up (plug f this') (plug f this)); auto.
      intros x y x' E1 E2 E3 (H1 & H2 & H3). rewrite E1, E2, E3. auto.
    + constructor; [simpl; auto|exact IH2].
Qed.

(** X18: [Node::backprop(med)] of [mcts.cpp] pushes [med] to the [times_]
    of the node and of every ancestor up to the root, once each, and sorts
    them; the ops and the [expanded_] flags stay, and so do the siblings
    along the path.  When [std::sort] sorts, each of these lists is a
    sorted arrangement of the old list and [med], so its first and last
    elements, which [select] reads, are its smallest and largest. *)
Theorem legacy_backprop_records (this : Node) (up : list Frame) (med : double) :
  (forall l, Permutation (std_sort l) l) ->
  (forall l, Sorted le (std_sort l)) ->
  Forall2 (fun old new =>
             op_ new = op_ old /\ expanded_ new = expanded_ old /\
             Permutation (times_ new) (med :: times_ old) /\
             Sorted le (times_ new))
          (path_nodes this up)
          (path_nodes (fst (backprop this up med)) (snd (backprop this up med))) /\
  Forall2 (fun f f' => fr_left f' = fr_left f /\ fr_right f' = fr_right f)
          up (snd (backprop this up med)).
Proof.
  intros Hperm Hsorted. destruct (backprop_path this up med) as [H1 H2].
  split; [|exact H2].
  eapply Forall2_impl; [|exact H1].
  intros old new (E1 & E2 & E3). split; [exact E1|]. split; [exact E2|].
  rewrite E3. split; [|apply Hsorted].
  rewrite Hperm. apply Permutation_sym, Permutation_cons_append.
Qed.

End WithDouble.

End LegacyFacts.

(** ** Runs of the node of [mcts.cpp] *)

Module LegacyRuns.
Import Outcomes Graphs GraphSpec TreeSpec Mcts LegacyFacts.

Lemma fork_closed : graph_closed Samples.fork.
Proof. apply MctsNodeFacts.graph_closedb_sound. reflexivity. Qed.

(** On the fork, with both children of the root played: [select] goes
    down to the first child, and [expand] returns it. *)
Lemma select_then_expand_witness :
  exists loc,
    select (fun _ _ => 0) (mkContext 5 6) Samples.fork
      (mkNode 0 [mkNode 1 [] [5] false; mkNode 2 [] [6] false] [5; 6] true) []
    = Ok loc /\
    op_ (fst loc) = 1 /\
    is_ok (expand Samples.fork loc) = true.
Proof.
  eexists. split; [reflexivity|]. split; [reflexivity|].
  apply (select_then_expand nat (fun _ _ => 0) (mkContext 5 6) Samples.fork
           (mkNode 0 [mkNode 1 [] [5] false; mkNode 2 [] [6] false] [5; 6] true)
           _ eq_refl).
  - exact fork_closed.
  - intros op [<-|[<-|[]]]; discriminate.
Defined.

Lemma insert_sorted_perm (x : nat) (l : list nat) :
  Permutation (insert_sorted x l) (x :: l).
Proof.
  induction l as [|y t IH]; simpl; [reflexivity|].
  destruct (Nat.leb x y); [reflexivity|].
  rewrite IH. apply perm_swap.
Qed.

Lemma demo_sort_perm (l : list nat) : Permutation (demo_sort l) l.
Proof.
  induction l as [|x l IH]; simpl; [reflexivity|].
  rewrite insert_sorted_perm, IH. reflexivity.
Qed.

Lemma insert_sorted_sorted (x : nat) (l : list nat) :
  Sorted Nat.le l -> Sorted Nat.le (insert_sorted x l).
Proof.
  induction l as [|y t IH]; intros Hs; simpl.
  - repeat constructor.
  - destruct (Nat.leb_spec x y).
    + constructor; [exact Hs|constructor; assumption].
    + inversion Hs as [|? ? Ht Hhd]; subst. constructor; [apply IH, Ht|].
      destruct t as [|z t]; simpl.
      * constructor. lia.
      * inversion Hhd; subst. destruct (Nat.leb x z); constructor; lia.
Qed.

Lemma demo_sort_sorted (l : list nat) : Sorted Nat.le (demo_sort l).
Proof.
  induction l as [|x l IH]; simpl; [constructor|].
  apply insert_sorted_sorted, IH.
Qed.

(** A playout of 4 below a root with the times 3 and 5. *)
Lemma legacy_backprop_records_witness :
  Forall2 (fun old new =>
             op_ new = op_ old /\ expanded_ new = expanded_ old /\
             Permutation (times_ new) (4 :: times_ old) /\
             Sorted Nat.le (times_ new))
          (path_nodes nat (new_Node nat 1) [mkFrame 0 [] [new_Node nat 2] [3; 5] true])
          (path_nodes nat
             (fst (backprop demo_sort (new_Node nat 1)
                            [mkFrame 0 [] [new_Node nat 2] [3; 5] true] 4))
             (snd (backprop demo_sort (new_Node nat 1)
                            [mkFrame 0 [] [new_Node nat 2] [3; 5] true] 4))).
Proof.
  apply (legacy_backprop_records nat demo_sort Nat.le (new_Node nat 1)
           [mkFrame 0 [] [new_Node nat 2] [3; 5] true] 4
           demo_sort_perm demo_sort_sorted).
Defined.

(** The times after that playout: 4 at the child, 3, 4, 5 at the root. *)
Example legacy_backprop_times :
  map (@times_ nat)
      (path_nodes nat
         (fst (backprop demo_sort (new_Node nat 1)
                        [mkFrame 0 [] [new_Node nat 2] [3; 5] true] 4))
         (snd (backprop demo_sort (new_Node nat 1)
                        [mkFrame 0 [] [new_Node nat 2] [3; 5] true] 4)))
  = [[4]; [3; 4; 5]].
Proof. reflexivity. Qed.

End LegacyRuns.

(** ** More facts about [get_frontier] and [mpi_bcast] *)

Module FrontierEdges.
Import Outcomes Platform OpsCuda Frontier FrontierSpec.

Section WithHelpers.

Variable CpuOp : Type.
Variable GpuOp : Type.
Variable cpu_eq : CpuOp -> CpuOp -> bool.
Variable gpu_eq : GpuOp -> GpuOp -> bool.
Variable GraphT : Type.
Variable PlatformT : Type.

Local Abbreviation BoundOp := (BoundOp CpuOp GpuOp).
Local Abbreviation OpBase := (OpBase CpuOp GpuOp).

Variable same_ptr : OpBase -> OpBase -> bool.
Variable succs_find_or_find_unbound : GraphT -> BoundOp -> option (list OpBase).
Variable preds_at : GraphT -> OpBase -> Outcome (list OpBase).
Variable contains_unbound : list BoundOp -> OpBase -> bool.
Variable make_platform_variations :
  PlatformT -> OpBase -> list BoundOp * PlatformT.
Variable is_synced : BoundOp -> GraphT -> list BoundOp -> bool.
Variable make_syncs : BoundOp -> GraphT -> list BoundOp -> list BoundOp.

Local Abbreviation one_pred_completed :=
  (one_pred_completed same_ptr succs_find_or_find_unbound).
Local Abbreviation select_candidates := (select_candidates preds_at contains_unbound).
Local Abbreviation get_frontier :=
  (get_frontier cpu_eq gpu_eq same_ptr succs_find_or_find_unbound preds_at
                contains_unbound make_platform_variations is_synced make_syncs).

Lemma one_pred_completed_nil (g : GraphT) (completed : list BoundOp) (acc : list OpBase) :
  (forall c, In c completed ->
     succs_find_or_find_unbound g c = None \/
     succs_find_or_find_unbound g c = Some []) ->
  fold_left (fun acc cOp =>
               match succs_find_or_find_unbound g cOp with
               | Some succs => push_succs same_ptr acc succs
               | None => acc
               end) completed acc = acc.
Proof.
  revert acc. induction completed as [|c completed IH]; intros acc H; simpl;
    [reflexivity|].
  rewrite IH by (intros c' Hc'; apply H; simpl; auto).
  destruct (H c) as [E|E]; [simpl; auto| |]; rewrite E; reflexivity.
Qed.

(** X22: when no completed operation has a successor in the graph (none is
    found by [succs_find_or_find_unbound], or an empty set is), as with an
    empty [completed], [get_frontier] returns the empty frontier: it looks
    at no predecessor, asks for no platform variation and leaves the
    platform as it is. *)
Theorem get_frontier_no_successors (plat : PlatformT) (g : GraphT)
  (completed : list BoundOp) :
  (forall c, In c completed ->
     succs_find_or_find_unbound g c = None \/
     succs_find_or_find_unbound g c = Some []) ->
  get_frontier plat g completed = Ok ([], plat).
Proof.
  intros H. unfold Frontier.get_frontier, Frontier.one_pred_completed.
  rewrite (one_pred_completed_nil g completed [] H). reflexivity.
Qed.

Lemma select_candidates_ok (g : GraphT) (completed : list BoundOp) (l : list OpBase) :
  is_ok (select_candidates g completed l) = true <->
  forall x, In x l -> contains_unbound completed x = false ->
            is_ok (preds_at g x) = true.
Proof.
  induction l as [|x l IH]; simpl.
  - split; [intros _ x []|reflexivity].
  - destruct (contains_unbound completed x) eqn:Ec.
    + rewrite IH. split.
      * intros H y [<-|Hy] Hn; [congruence|apply H; assumption].
      * intros H y Hy. apply H. auto.
    + destruct (preds_at g x) as [preds| | |] eqn:Ep; cbn [bind].
      * destruct (select_candidates g completed l) as [cs| | |] eqn:Es; cbn [bind].
        -- split; [|reflexivity]. intros _ y [<-|Hy] Hn.
           ++ rewrite Ep. reflexivity.
           ++ apply IH; auto.
        -- split; [discriminate|]. intros H. apply IH. intros y Hy. apply H. auto.
        -- split; [discriminate|]. intros H. apply IH. intros y Hy. apply H. auto.
        -- split; [discriminate|]. intros H. apply IH. intros y Hy. apply H. auto.
      * split; [discriminate|]. intros H. specialize (H x (or_introl eq_refl) Ec).
        rewrite Ep in H. exact H.
      * split; [discriminate|]. intros H. specialize (H x (or_introl eq_refl) Ec).
        rewrite Ep in H. exact H.
      * split; [discriminate|]. intros H. specialize (H x (or_introl eq_refl) Ec).
        rewrite Ep in H. exact H.
Qed.

(** When [at] fails with [std::out_of_range] only, so does the loop. *)
Lemma select_candidates_out_of_range (g : GraphT) (completed : list BoundOp)
  (l : list OpBase) :
  (forall x, is_ok (preds_at g x) = false -> preds_at g x = OutOfRange) ->
  is_ok (select_candidates g completed l) = false ->
  select_candidates g completed l = OutOfRange.
Proof.
  intros Hat. induction l as [|x l IH]; simpl; [discriminate|].
  destruct (contains_unbound completed x); [exact IH|].
  pose proof (Hat x) as Hx.
  destruct (preds_at g x) as [preds| | |]; cbn [bind];
    try (intros _; specialize (Hx eq_refl); congruence).
  destruct (select_candidates g completed l) as [cs| | |]; cbn [bind];
    try discriminate; intros H; specialize (IH H); congruence.
Qed.

(** X23: the loop of [get_frontier] that picks the candidates (lines
    88-110) runs to its end exactly when [g.preds_.at] succeeds for every
    successor of a completed operation that is not itself completed; a
    successor that is completed is passed over before its predecessors
    are looked up.  When the lookup fails for a successor that is not
    completed, [get_frontier] returns no frontier, and when [at] fails
    with [std::out_of_range] only, that is what [get_frontier] throws. *)
Theorem get_frontier_candidate_lookups (plat : PlatformT) (g : GraphT)
  (completed : list BoundOp) :
  (is_ok (select_candidates g completed (one_pred_completed g completed)) = true <->
   forall x, In x (one_pred_completed g completed) ->
             contains_unbound completed x = false ->
             is_ok (preds_at g x) = true) /\
  (forall x, In x (one_pred_completed g completed) ->
             contains_unbound completed x = false ->
             is_ok (preds_at g x) = false ->
             is_ok (get_frontier plat g completed) = false /\
             ((forall y, is_ok (preds_at g y) = false -> preds_at g y = OutOfRange) ->
              get_frontier plat g completed = OutOfRange)).
Proof.
  split; [apply select_candidates_ok|].
  intros x Hin Hc Hx.
  assert (Hs : is_ok (select_candidates g completed (one_pred_completed g completed))
               = false).
  { destruct (is_ok (select_candidates g completed (one_pred_completed g completed)))
      eqn:E; [|reflexivity].
    rewrite (proj1 (select_candidates_ok g completed _) E x Hin Hc) in Hx.
    discriminate. }
  unfold Frontier.get_frontier. split.
  - destruct (select_candidates g completed (one_pred_completed g completed));
      cbn [bind]; [discriminate|reflexivity..].
  - intros Hat.
    rewrite (select_candidates_out_of_range g completed _ Hat Hs). reflexivity.
Qed.

End WithHelpers.

(** With the device operation [k] and an inserted synchronization
    completed, nothing is left to issue. *)
Lemma get_frontier_no_successors_witness :
  get_frontier String.eqb String.eqb Samples.demo_same_ptr Samples.demo_succs
    Samples.demo_preds Samples.demo_contains_unbound Samples.demo_variations
    Samples.demo_is_synced Samples.demo_make_syncs tt tt
    [BGpu (mkBoundGpuOp "k" (mkStream 0)); BStreamSync (new_StreamSync (mkStream 1))]
  = Ok ([], tt).
Proof.
  apply (get_frontier_no_successors string string String.eqb String.eqb unit unit
           Samples.demo_same_ptr Samples.demo_succs Samples.demo_preds
           Samples.demo_contains_unbound Samples.demo_variations
           Samples.demo_is_synced Samples.demo_make_syncs tt tt).
  intros c [<-|[<-|[]]]; simpl; auto.
Defined.

(** [start] is completed and its successor [k] has no entry in
    [preds_]. *)
Lemma get_frontier_candidate_lookups_witness :
  get_frontier String.eqb String.eqb Samples.demo_same_ptr Samples.demo_succs
    (fun _ _ => OutOfRange) Samples.demo_contains_unbound Samples.demo_variations
    Samples.demo_is_synced Samples.demo_make_syncs tt tt [BCpu "start"]
  = OutOfRange.
Proof.
  destruct (get_frontier_candidate_lookups string string String.eqb String.eqb
              unit unit Samples.demo_same_ptr Samples.demo_succs
              (fun _ _ => OutOfRange) Samples.demo_contains_unbound
              Samples.demo_variations Samples.demo_is_synced
              Samples.demo_make_syncs tt tt [BCpu "start"]) as [_ H].
  destruct (H (Unbound "k")) as [_ H2];
    [left; reflexivity|reflexivity|reflexivity|].
  apply H2. reflexivity.
Defined.

End FrontierEdges.

Module BcastMore.
Import Outcomes Mcts BcastSpec BcastFacts.

Section WithOps.

Variable BOp : Type.
Variable name : BOp -> string.

(** X24: the three messages of [mpi_bcast] carry the names: when every name
    is shorter than 2^31 characters and all together are shorter than 2^64,
    the lengths sent are the lengths of the names, the buffer a receiver
    sizes from them has the size of what rank 0 sends, and cutting that
    buffer at the lengths gives back the names of rank 0's operations, in
    order. *)
Theorem bcast_names_round_trip (order : list BOp) :
  names_fit BOp name order ->
  name_lengths name order
  = map (fun op => Z.of_nat (String.length (name op))) order /\
  total_length (name_lengths name order) = List.length (all_names name order) /\
  break_names (all_names name order) (name_lengths name order) = map name order.
Proof.
  intros [Hfit Hsum]. split; [|split].
  - unfold name_lengths. apply map_ext_in. intros op Hop.
    rewrite Forall_forall in Hfit. apply int_of_size_small, Hfit, Hop.
  - unfold total_length. rewrite (total_length_fit BOp name order 0 Hfit Hsum).
    rewrite all_names_length. reflexivity.
  - apply break_names_all_names, Hfit.
Qed.

End WithOps.

Lemma bcast_names_round_trip_witness :
  break_names (all_names (@fst string nat) [("k", 1); ("copy", 2)])
              (name_lengths (@fst string nat) [("k", 1); ("copy", 2)])
  = ["k"; "copy"].
Proof.
  apply (bcast_names_round_trip (string * nat) (@fst string nat)
           [("k", 1); ("copy", 2)]).
  split; [repeat constructor; simpl; lia|simpl; lia].
Defined.

End BcastMore.
